(** * NewsStream: the feed acquisition and aggregation pipeline of script.js

    A shallow embedding of the [NewsStreamApp] methods that fetch, parse,
    merge and rate-limit RSS feeds, and the properties the specification
    states about them.

    Conventions.
    - A JavaScript string is the list of its UTF-16 code units ([jsstring]).
    - A JavaScript Number that the code only ever uses as an integer
      (a hash, a millisecond timestamp, a counter) is a [Z]; the 32-bit
      conversions of the bitwise operators are written out.
    - Host built-ins whose tables are not part of the repository
      ([String.prototype.toLowerCase], the [URL] constructor, [Date] parsing)
      are the fields of the class [Host]. *)

From Stdlib Require Import ZArith Lia String Ascii Sorted.
From stdpp Require Import base decidable option numbers list sets gmap.

Local Open Scope Z_scope.

(** ** JavaScript strings *)

Abbreviation jsstring := (list Z).

(** The code units of an ASCII literal, to write examples. *)
Definition js (s : string) : jsstring :=
  (λ a, Z.of_N (N_of_ascii a)) <$> list_ascii_of_string s.

(** [\s] of a regular expression and the set [String.prototype.trim]
    strips: WhiteSpace and LineTerminator code units. *)
Definition is_space (c : Z) : bool :=
  ((9 <=? c) && (c <=? 13)) || (c =? 32) || (c =? 160) || (c =? 5760)
  || ((8192 <=? c) && (c <=? 8202)) || (c =? 8232) || (c =? 8233)
  || (c =? 8239) || (c =? 8287) || (c =? 12288) || (c =? 65279).

(** [\w] without the unicode flag: [A-Za-z0-9_]. *)
Definition is_word (c : Z) : bool :=
  ((65 <=? c) && (c <=? 90)) || ((97 <=? c) && (c <=? 122))
  || ((48 <=? c) && (c <=? 57)) || (c =? 95).

(** [s.replace(/\s+/g, ' ')]: every maximal run of white space becomes one
    space (code unit 32). [in_run] tells that the previous code unit was
    white space, whose run has already been replaced. *)
Fixpoint collapse_from (in_run : bool) (s : jsstring) : jsstring :=
  match s with
  | [] => []
  | c :: s' =>
      if is_space c
      then (if in_run then collapse_from true s' else 32 :: collapse_from true s')
      else c :: collapse_from false s'
  end.

Definition collapse_spaces (s : jsstring) : jsstring := collapse_from false s.

(** [String.prototype.trim]. *)
Fixpoint trimStart (s : jsstring) : jsstring :=
  match s with
  | [] => []
  | c :: s' => if is_space c then trimStart s' else s
  end.

Definition trimEnd (s : jsstring) : jsstring := reverse (trimStart (reverse s)).

Definition trim (s : jsstring) : jsstring := trimEnd (trimStart s).

(** [s.substring(0, n)] for a literal [n >= 0]. *)
Definition substring0 (n : nat) (s : jsstring) : jsstring := take n s.

(** ** The host

    Built-ins of the JavaScript host that the pipeline calls and whose
    behaviour is fixed by Unicode, WHATWG URL and ECMAScript date tables. *)

(** What [new URL(s)] exposes to the code: [protocol], [pathname] and the
    serialisation [toString()]. *)
Record URL := mkURL {
  protocol : jsstring;
  pathname : jsstring;
  href : jsstring
}.

Class Host := {
  (** [String.prototype.toLowerCase] *)
  toLowerCase : jsstring → jsstring;
  (** [new URL(s)]: [None] when the constructor throws a TypeError *)
  parseURL : jsstring → option URL;
  (** [new Date(s)]: the time value in milliseconds, [None] for an
      Invalid Date *)
  parseDateString : jsstring → option Z
}.

(** ** 32-bit integers of the bitwise operators *)

(** ToInt32 of an integral Number. *)
Definition ToInt32 (z : Z) : Z := (z + 2 ^ 31) `mod` 2 ^ 32 - 2 ^ 31.

(** [a << b] *)
Definition js_shl (a b : Z) : Z := ToInt32 (Z.shiftl (ToInt32 a) (b `mod` 32)).

(** [a & b] *)
Definition js_and (a b : Z) : Z := ToInt32 (Z.land (ToInt32 a) (ToInt32 b)).

(** ** Number.prototype.toString(36) on a non-negative integer *)

Definition digit36 (d : Z) : Z := if d <? 10 then 48 + d else 87 + d.

(** Most significant digit first; [acc] holds the digits already produced. *)
Fixpoint digits36 (fuel : nat) (n : Z) (acc : jsstring) : jsstring :=
  match fuel with
  | O => acc
  | S fuel' =>
      let acc' := digit36 (n `mod` 36) :: acc in
      if n <? 36 then acc' else digits36 fuel' (n `div` 36) acc'
  end.

(** A number below [2^k] has at most [k] digits (and 0 has one). *)
Definition toString36 (n : Z) : jsstring :=
  digits36 (S (Z.to_nat (Z.log2 n))) n [].

(** Reading a base-36 numeral back, to state what [toString36] produces. *)
Definition digit_value (c : Z) : Z := if c <? 58 then c - 48 else c - 87.

Definition from_base36 (s : jsstring) : Z :=
  foldl (λ acc c, acc * 36 + digit_value c) 0 s.

Definition is_digit36 (c : Z) : bool :=
  ((48 <=? c) && (c <=? 57)) || ((97 <=? c) && (c <=? 122)).

(** ** generateArticleId (script.js 634-643) *)

Section Identity.
Context `{Host}.

(** One iteration of the loop body:
    [hash = ((hash << 5) - hash) + char; hash = hash & hash]. *)
Definition hash_step (hash char : Z) : Z :=
  let hash := (js_shl hash 5 - hash) + char in
  js_and hash hash.

Definition hashCode (combined : jsstring) : Z := foldl hash_step 0 combined.

Definition generateArticleId (title url : jsstring) : jsstring :=
  let combined := toLowerCase (title ++ url) in
  toString36 (Z.abs (hashCode combined)).

(** The specification's wording of the same computation:
    [hash = (hash << 5) - hash + charCode] with 32-bit signed wrap-around
    at each step, then base 36 of the absolute value. *)
Definition wrap32 (z : Z) : Z :=
  let r := z `mod` 2 ^ 32 in if r <? 2 ^ 31 then r else r - 2 ^ 32.

Definition spec_hash_step (hash char : Z) : Z :=
  wrap32 (hash * 2 ^ 5 - hash + char).

Definition spec_article_id (title url : jsstring) : jsstring :=
  toString36 (Z.abs (foldl spec_hash_step 0 (toLowerCase (title ++ url)))).
End Identity.

(** An ASCII-only host, enough to run the definitions on examples:
    lower-casing of [A-Z], URLs of the plain form [scheme://rest], dates
    written as decimal millisecond counts. *)
Definition ascii_lower (c : Z) : Z :=
  if (65 <=? c) && (c <=? 90) then c + 32 else c.

Definition lower_ascii (s : jsstring) : jsstring := ascii_lower <$> s.

(** ** Articles and feed items *)

(** An entry of [getActiveSources()]: a catalog or custom source tagged with
    its category. *)
Record ActiveSource := mkSource {
  s_id : jsstring;
  s_name : jsstring;
  s_url : jsstring;
  s_verified : bool;
  s_isCustom : bool;
  s_category : jsstring
}.

(** The [source] object nested in an article. *)
Record SourceInfo := mkSourceInfo {
  info_id : jsstring;
  info_name : jsstring;
  info_verified : bool;
  info_isCustom : bool
}.

(** The object literal returned by [extractArticleFromItem]. [url] and
    [imageUrl] may be [null]; [publishedAt] is an ISO string in the code,
    kept here as the time value [new Date(publishedAt)] reads back. *)
Record Article := mkArticle {
  article_id : jsstring;
  title : jsstring;
  summary : jsstring;
  url : option jsstring;
  imageUrl : option jsstring;
  publishedAt : Z;
  source : SourceInfo;
  category : jsstring;
  loadedAt : Z
}.

(** What the code reads of an [item] element. Each text field is the
    [textContent] of the first descendant the selector finds, [None] when
    [querySelector] returns null; an attribute is [None] when
    [getAttribute] returns null. *)
Record Item := mkItem {
  el_title : option jsstring;
  el_description : option jsstring;
  el_link : option jsstring;
  el_guid : option jsstring;
  el_pubDate : option jsstring;
  (** first [content] or [thumbnail] element: its [url] attribute *)
  el_media : option (option jsstring);
  (** first [enclosure] element: its [type] and [url] attributes *)
  el_enclosure : option (option jsstring * option jsstring)
}.

(** The result of [DOMParser.parseFromString(xmlText, 'text/xml')]: a
    document holding a [parsererror] element, or the [item] elements of the
    document in document order. *)
Inductive Document :=
  | ParserError
  | Feed (items : list Item).

(** JavaScript truthiness of a string, and [a || b] on strings. *)
Definition truthy (s : jsstring) : bool :=
  match s with [] => false | _ => true end.

Definition or_else (a b : jsstring) : jsstring := if truthy a then a else b.

(** getElementText (script.js 580-583) *)
Definition getElementText (element : option jsstring) : jsstring :=
  match element with
  | Some textContent => trim textContent
  | None => []
  end.

(** [text.replace(/<[^>]*>/g, '')]. [held] is the text since an opening
    [<] (code unit 60) that has not met its [>] (62) yet, most recent code
    unit first; it is dropped at the [>] and given back at the end of the
    string, where the match fails. *)
Fixpoint strip_tags_from (held : option jsstring) (s : jsstring) : jsstring :=
  match s with
  | [] => match held with Some buf => reverse buf | None => [] end
  | c :: s' =>
      match held with
      | None =>
          if c =? 60 then strip_tags_from (Some [c]) s'
          else c :: strip_tags_from None s'
      | Some buf =>
          if c =? 62 then strip_tags_from None s'
          else strip_tags_from (Some (c :: buf)) s'
      end
  end.

(** [text.replace(/&[^;]+;/g, ' ')]. [held] is the text since an [&] (38)
    that has not met its [;] (59) yet; [&;] does not match, since [[^;]+]
    needs one code unit. *)
Fixpoint replace_entities_from (held : option jsstring) (s : jsstring) : jsstring :=
  match s with
  | [] => match held with Some buf => reverse buf | None => [] end
  | c :: s' =>
      match held with
      | None =>
          if c =? 38 then replace_entities_from (Some [c]) s'
          else c :: replace_entities_from None s'
      | Some buf =>
          if c =? 59 then
            match buf with
            | [_] => reverse buf ++ c :: replace_entities_from None s'
            | _ => 32 :: replace_entities_from None s'
            end
          else replace_entities_from (Some (c :: buf)) s'
      end
  end.

(** sanitizeText (script.js 648-656) *)
Definition sanitizeText (text : jsstring) : jsstring :=
  if negb (truthy text) then []
  else trim (collapse_spaces (replace_entities_from None (strip_tags_from None text))).

(** generateSummary (script.js 689-691) *)
Definition generateSummary (title : jsstring) : jsstring :=
  if (100 <? Z.of_nat (length title)) then substring0 100 title ++ js "..." else title.

(** Matching of a literal under the [i] flag: only ASCII letters fold. *)
Fixpoint strip_prefix_ci (pat s : jsstring) : option jsstring :=
  match pat, s with
  | [], _ => Some s
  | _ :: _, [] => None
  | p :: pat', c :: s' =>
      if ascii_lower p =? ascii_lower c then strip_prefix_ci pat' s' else None
  end.

(** [s.startsWith(pat)] *)
Fixpoint startsWith (pat s : jsstring) : bool :=
  match pat, s with
  | [], _ => true
  | _ :: _, [] => false
  | p :: pat', c :: s' => (p =? c) && startsWith pat' s'
  end.

Definition ends_with_ci (suffix s : jsstring) : bool :=
  bool_decide (is_Some (strip_prefix_ci (reverse suffix) (reverse s))).

Definition is_quote (c : Z) : bool := (c =? 34) || (c =? 39).

Fixpoint take_unquoted (s : jsstring) : jsstring * jsstring :=
  match s with
  | [] => ([], [])
  | c :: s' =>
      if is_quote c then ([], s)
      else let '(run, rest) := take_unquoted s' in (c :: run, rest)
  end.

(** The tail of the image pattern, anchored at the head of [s]: the
    literal [src=], a single or double quote, a non-empty run of code units
    that are not quotes (the capture group, returned), and a quote. *)
Definition match_src (s : jsstring) : option jsstring :=
  match strip_prefix_ci (js "src=") s with
  | Some (q :: s') =>
      if is_quote q then
        match take_unquoted s' with
        | (c :: run, q' :: _) => Some (c :: run)
        | _ => None
        end
      else None
  | _ => None
  end.

(** [[^>]+] is greedy: of the positions reachable through code units other
    than [>], the furthest one where [match_src] succeeds is taken. *)
Fixpoint last_src (s : jsstring) : option jsstring :=
  match s with
  | [] => None
  | c :: s' =>
      match (if c =? 62 then None else last_src s') with
      | Some capture => Some capture
      | None => match_src s
      end
  end.

(** [description.match(...)] with the image pattern: the literal [<img],
    [[^>]+], then the tail above, under the [i] flag; the result is the
    capture of the leftmost match. *)
Fixpoint match_img (s : jsstring) : option jsstring :=
  match s with
  | [] => None
  | _ :: s' =>
      let here :=
        match strip_prefix_ci (js "<img") s with
        | Some (c :: rest) => if c =? 62 then None else last_src rest
        | _ => None
        end in
      match here with
      | Some capture => Some capture
      | None => match_img s'
      end
  end.

Section Parser.
Context `{Host}.

(** isValidImageUrl (script.js 621-629) *)
Definition isValidImageUrl (u : jsstring) : bool :=
  match parseURL u with
  | Some urlObj =>
      bool_decide (protocol urlObj = js "https:")
      && existsb (λ ext, ends_with_ci ext (pathname urlObj))
           [js ".jpg"; js ".jpeg"; js ".png"; js ".gif"; js ".webp"]
  | None => false
  end.

Definition valid_image (candidate : option jsstring) : option jsstring :=
  match candidate with
  | Some u => if truthy u && isValidImageUrl u then Some u else None
  | None => None
  end.

(** extractImageUrl (script.js 588-616) *)
Definition extractImageUrl (item : Item) (description : jsstring) : option jsstring :=
  match (mediaContent ← el_media item; valid_image mediaContent) with
  | Some u => Some u
  | None =>
      match (enclosure ← el_enclosure item;
             type ← enclosure.1;
             if startsWith (js "image/") type
             then valid_image enclosure.2 else None) with
      | Some u => Some u
      | None =>
          if truthy description then
            match match_img description with
            | Some src => if isValidImageUrl src then Some src else None
            | None => None
            end
          else None
      end
  end.

(** sanitizeUrl (script.js 661-670) *)
Definition sanitizeUrl (u : jsstring) : option jsstring :=
  match parseURL u with
  | Some urlObj =>
      if bool_decide (protocol urlObj = js "https:")
         || bool_decide (protocol urlObj = js "http:")
      then Some (href urlObj)
      else None
  | None => None
  end.

(** parseDate (script.js 675-684); [now] is the clock at the call.
    [toISOString] throws on an Invalid Date, which the [catch] turns
    into the current instant. *)
Definition parseDate (now : Z) (dateString : jsstring) : Z :=
  if negb (truthy dateString) then now
  else match parseDateString dateString with
       | Some t => t
       | None => now
       end.

(** extractArticleFromItem (script.js 540-575); [None] is [null]. No
    call of the body throws, so the [catch] branch is never taken. *)
Definition extractArticleFromItem (now : Z) (item : Item) (src : ActiveSource)
    : option Article :=
  let title := getElementText (el_title item) in
  let description := getElementText (el_description item) in
  let link := or_else (getElementText (el_link item)) (getElementText (el_guid item)) in
  let pubDate := getElementText (el_pubDate item) in
  if negb (truthy title) || negb (truthy link) then None
  else
    let imageUrl := extractImageUrl item description in
    Some {|
      article_id := generateArticleId title link;
      title := sanitizeText title;
      summary := or_else (sanitizeText description) (generateSummary title);
      url := sanitizeUrl link;
      imageUrl := imageUrl;
      publishedAt := parseDate now pubDate;
      source := {| info_id := s_id src; info_name := s_name src;
                   info_verified := s_verified src || false;
                   info_isCustom := s_isCustom src || false |};
      category := s_category src;
      loadedAt := now
    |}.
End Parser.

(** ** Content limits and rate limit (constructor, script.js 38-42, 96-97) *)

Definition maxArticles : nat := 100.
Definition maxArticlesPerSource : nat := 5.
Definition minFetchInterval : Z := 30000.

(** ** The aggregation engine *)

Section Aggregation.
Context `{Host}.

(** The key computed in the loop of [deduplicateArticles]. *)
Definition dedupKey (article : Article) : jsstring :=
  substring0 50
    (trim
       (collapse_spaces
          (filter (λ c, is_word c || is_space c) (toLowerCase (title article))))).

(** One call of the [forEach] callback on the pair [(seen, unique)]. *)
Definition dedup_visit (st : gset jsstring * list Article) (article : Article)
    : gset jsstring * list Article :=
  let key := dedupKey article in
  if decide (key ∈ st.1) then st
  else ({[key]} ∪ st.1, st.2 ++ [article]).

(** deduplicateArticles (script.js 752-770) *)
Definition deduplicateArticles (articles : list Article) : list Article :=
  (foldl dedup_visit (∅, []) articles).2.

(** The specification's wording of the same: walking the input in order,
    an article whose key has been seen is dropped, any other is kept and
    its key becomes seen. *)
Fixpoint first_occurrences (seen : gset jsstring) (articles : list Article)
    : list Article :=
  match articles with
  | [] => []
  | article :: articles' =>
      if decide (dedupKey article ∈ seen) then first_occurrences seen articles'
      else article :: first_occurrences ({[dedupKey article]} ∪ seen) articles'
  end.

(** The comparator [(a, b) => new Date(b.publishedAt) - new Date(a.publishedAt)]. *)
Definition byNewest (a b : Article) : Z := publishedAt b - publishedAt a.
End Aggregation.

(** [Array.prototype.sort(compare)]: the stable sort (ECMAScript 2019) by a
    consistent comparator, written as an insertion sort. [x] goes before
    the first element it does not sort after, hence before its equals,
    which came later in the input. *)
Section Sort.
Context {A : Type} (compare : A → A → Z).

Fixpoint sort_insert (x : A) (l : list A) : list A :=
  match l with
  | [] => [x]
  | y :: l' => if 0 <? compare x y then y :: sort_insert x l' else x :: l
  end.

Fixpoint sort (l : list A) : list A :=
  match l with
  | [] => []
  | x :: l' => sort_insert x (sort l')
  end.
End Sort.

(** The article list [processAllArticles] computes from [allArticles]. *)
Definition aggregate `{Host} (allArticles : list Article) : list Article :=
  let uniqueArticles := deduplicateArticles allArticles in
  let uniqueArticles := sort byNewest uniqueArticles in
  take maxArticles uniqueArticles.

(** The order a list is in once sorted with decreasing [key]. *)
Definition descending {A : Type} (key : A → Z) (a b : A) : Prop := key b ≤ key a.

(** Newest first: [articles[i].publishedAt >= articles[i+1].publishedAt]
    at every index. *)
Definition newest_first (l : list Article) : Prop :=
  ∀ i a b, l !! i = Some a → l !! S i = Some b → publishedAt b ≤ publishedAt a.

(** The articles published at the instant [t], in list order. *)
Definition published_at (t : Z) (l : list Article) : list Article :=
  filter (λ a, publishedAt a = t) l.

(** ** Application state and effects *)

(** The fields of [NewsStreamApp] the pipeline reads and writes. *)
Record App := mkApp {
  articles : list Article;
  allArticles : list Article;
  isLoading : bool;
  loadedSources : Z;
  totalSources : Z;
  lastUpdateTime : option Z;
  lastFetchTime : Z
}.

(** The state of a fresh instance (constructor, script.js 30-36, 96). *)
Definition initialApp : App :=
  {| articles := []; allArticles := []; isLoading := false;
     loadedSources := 0; totalSources := 0; lastUpdateTime := None;
     lastFetchTime := 0 |}.

Definition set_articles (v : list Article) (app : App) : App :=
  {| articles := v; allArticles := allArticles app; isLoading := isLoading app;
     loadedSources := loadedSources app; totalSources := totalSources app;
     lastUpdateTime := lastUpdateTime app; lastFetchTime := lastFetchTime app |}.

Definition set_allArticles (v : list Article) (app : App) : App :=
  {| articles := articles app; allArticles := v; isLoading := isLoading app;
     loadedSources := loadedSources app; totalSources := totalSources app;
     lastUpdateTime := lastUpdateTime app; lastFetchTime := lastFetchTime app |}.

Definition set_isLoading (v : bool) (app : App) : App :=
  {| articles := articles app; allArticles := allArticles app; isLoading := v;
     loadedSources := loadedSources app; totalSources := totalSources app;
     lastUpdateTime := lastUpdateTime app; lastFetchTime := lastFetchTime app |}.

Definition set_loadedSources (v : Z) (app : App) : App :=
  {| articles := articles app; allArticles := allArticles app; isLoading := isLoading app;
     loadedSources := v; totalSources := totalSources app;
     lastUpdateTime := lastUpdateTime app; lastFetchTime := lastFetchTime app |}.

Definition set_totalSources (v : Z) (app : App) : App :=
  {| articles := articles app; allArticles := allArticles app; isLoading := isLoading app;
     loadedSources := loadedSources app; totalSources := v;
     lastUpdateTime := lastUpdateTime app; lastFetchTime := lastFetchTime app |}.

Definition set_lastUpdateTime (v : option Z) (app : App) : App :=
  {| articles := articles app; allArticles := allArticles app; isLoading := isLoading app;
     loadedSources := loadedSources app; totalSources := totalSources app;
     lastUpdateTime := v; lastFetchTime := lastFetchTime app |}.

Definition set_lastFetchTime (v : Z) (app : App) : App :=
  {| articles := articles app; allArticles := allArticles app; isLoading := isLoading app;
     loadedSources := loadedSources app; totalSources := totalSources app;
     lastUpdateTime := lastUpdateTime app; lastFetchTime := v |}.

(** A statement completes normally with a value or abruptly with a thrown
    error (its message). *)
Inductive Completion (A : Type) :=
  | Normal (a : A)
  | Throw (message : jsstring).
Arguments Normal {A} a.
Arguments Throw {A} message.

(** Code that runs on the application state and may throw. *)
Definition Eff (A : Type) : Type := App → App * Completion A.

Definition ret {A} (a : A) : Eff A := λ app, (app, Normal a).
Definition throw {A} (message : jsstring) : Eff A := λ app, (app, Throw message).
Definition bind {A B} (m : Eff A) (k : A → Eff B) : Eff B :=
  λ app, match m app with
         | (app', Normal a) => k a app'
         | (app', Throw e) => (app', Throw e)
         end.
Definition try_catch {A} (body : Eff A) (handler : jsstring → Eff A) : Eff A :=
  λ app, match body app with
         | (app', Normal a) => (app', Normal a)
         | (app', Throw e) => handler e app'
         end.
Definition modify (f : App → App) : Eff unit := λ app, (f app, Normal tt).

Declare Scope eff_scope.
Delimit Scope eff_scope with eff.
Notation "x <~ m ;; k" := (bind m (λ x, k))
  (at level 100, m at next level, right associativity) : eff_scope.
Notation "m ;;; k" := (bind m (λ _, k))
  (at level 100, right associativity) : eff_scope.

(** How the relay answers one request: [fetch] rejects, or it resolves to
    a response with its [ok] flag whose [text()] rejects or yields a body,
    given here as the document [DOMParser] makes of it. *)
Inductive FetchOutcome :=
  | FetchRejected (reason : jsstring)
  | Responded (ok : bool) (body : option Document).

Section Loader.
Context `{Host}.
Local Open Scope eff_scope.

(** The [forEach] of parseRSSFeed: [articles] after the callback ran on
    [item] at [index]. *)
Definition visit_item (now : Z) (src : ActiveSource)
    (articles : list Article) (index : nat) (item : Item) : list Article :=
  if (Z.of_nat index <? 10) then
    match extractArticleFromItem now item src with
    | Some article => articles ++ [article]
    | None => articles
    end
  else articles.

Fixpoint forEach_items (now : Z) (src : ActiveSource) (index : nat)
    (items : list Item) (articles : list Article) : list Article :=
  match items with
  | [] => articles
  | item :: items' =>
      forEach_items now src (S index) items' (visit_item now src articles index item)
  end.

(** parseRSSFeed (script.js 506-535) on the parsed document. *)
Definition parseRSSFeed (now : Z) (xmlDoc : Document) (src : ActiveSource)
    : list Article :=
  let body : Completion (list Article) :=
    match xmlDoc with
    | ParserError => Throw (js "XML parsing failed")
    | Feed items => Normal (forEach_items now src 0 items [])
    end in
  match body with
  | Normal articles => articles
  | Throw _ => []
  end.

Definition count_loaded : Eff unit :=
  modify (λ app, set_loadedSources (loadedSources app + 1) app).

(** loadSingleSource (script.js 466-501) from the point where the request
    has been issued: what runs once the relay has answered with
    [outcome], at clock [now]. The message of a thrown error (the status
    line, for a response that is not OK) is only logged. *)
Definition loadSingleSource (now : Z) (src : ActiveSource) (outcome : FetchOutcome)
    : Eff (list Article) :=
  try_catch
    (response <~ match outcome with
                 | FetchRejected reason => throw reason
                 | Responded ok body => ret (ok, body)
                 end;;
     (if negb response.1 then throw (js "HTTP") else ret tt);;;
     xmlDoc <~ match response.2 with
               | None => throw (js "body")
               | Some doc => ret doc
               end;;
     let articles := parseRSSFeed now xmlDoc src in
     (if 0 <? Z.of_nat (length articles) then
        let limitedArticles := take maxArticlesPerSource articles in
        modify (λ app, set_allArticles (allArticles app ++ limitedArticles) app)
      else ret tt);;;
     count_loaded;;;
     ret articles)
    (λ error, count_loaded;;; ret []).
End Loader.

(** ** The fetch scheduler *)

(** One dispatched task: the source, the answer the relay will give to its
    request, and the clock when that answer is processed (the parse of one
    answer is a single synchronous run, read here at one instant). *)
Record Job := mkJob {
  j_source : ActiveSource;
  j_outcome : FetchOutcome;
  j_now : Z
}.

(** [startProgressiveLoading] suspended at [await Promise.allSettled]:
    tasks still in their stagger delay, requests on the wire, and the
    settled promises in completion order; [requests] logs the network
    calls issued so far. *)
Record Loading := mkLoading {
  l_app : App;
  delayed : list Job;
  inflight : list Job;
  settled : list (Job * Completion (list Article));
  requests : list ActiveSource
}.

Inductive Exit := AlreadyInProgress | NoActiveSources | Completed.

Inductive Stage :=
  | Returned (why : Exit) (app : App)
  | Waiting (l : Loading).

(** Math.ceil(x / d) for integers. *)
Definition ceil_div (x d : Z) : Z := - ((- x) `div` d).

Inductive RefreshResult :=
  | RateLimited (remainingTime : Z) (app : App)
  | Refreshing (st : Stage).

Section Scheduler.
Context `{Host}.

(** processAllArticles (script.js 736-747) *)
Definition processAllArticles (app : App) : App :=
  set_articles (aggregate (allArticles app)) app.

(** startProgressiveLoading (script.js 395-450) up to its [await]. [jobs]
    holds one task per entry of [this.getActiveSources()], in that order,
    with what the relay will answer. The task of index 0 has no delay and
    issues its request at once. *)
Definition startProgressiveLoading (jobs : list Job) (app : App) : Stage :=
  if isLoading app then Returned AlreadyInProgress app
  else
    let app := set_isLoading true app in
    let app := set_totalSources (Z.of_nat (length jobs)) app in
    if totalSources app =? 0 then Returned NoActiveSources (set_isLoading false app)
    else
      let app := set_allArticles [] app in
      let app := set_loadedSources 0 app in
      Waiting {| l_app := app; delayed := drop 1 jobs; inflight := take 1 jobs;
                 settled := []; requests := j_source <$> take 1 jobs |}.

(** The rest of startProgressiveLoading, after the [await]. *)
Definition finishLoading (now : Z) (app : App) : App :=
  let app := processAllArticles app in
  let app := set_lastUpdateTime (Some now) app in
  set_isLoading false app.

(** refreshNews (script.js 1136-1156) *)
Definition refreshNews (now : Z) (jobs : list Job) (app : App) : RefreshResult :=
  if now - lastFetchTime app <? minFetchInterval then
    let remainingTime := ceil_div (minFetchInterval - (now - lastFetchTime app)) 1000 in
    RateLimited remainingTime app
  else
    let app := set_lastFetchTime now app in
    Refreshing (startProgressiveLoading jobs app).

(** The tasks a call has dispatched, each of which issues one request. *)
Definition dispatched (r : RefreshResult) : list Job :=
  match r with
  | Refreshing (Waiting l) => inflight l ++ delayed l
  | _ => []
  end.

Definition app_after (r : RefreshResult) : App :=
  match r with
  | RateLimited _ app => app
  | Refreshing (Returned _ app) => app
  | Refreshing (Waiting l) => l_app l
  end.

(** The events of the loop while the loader is suspended: a stagger timer
    fires and its task issues the request; an answer arrives and the rest
    of [loadSingleSource] runs; the user asks for a refresh, which
    returns at once; all promises have settled and the loader resumes. *)
Inductive step : Stage → Stage → Prop :=
  | step_issue l d1 j d2 :
      delayed l = d1 ++ j :: d2 →
      step (Waiting l)
           (Waiting {| l_app := l_app l; delayed := d1 ++ d2;
                       inflight := inflight l ++ [j]; settled := settled l;
                       requests := requests l ++ [j_source j] |})
  | step_settle l f1 j f2 :
      inflight l = f1 ++ j :: f2 →
      let r := loadSingleSource (j_now j) (j_source j) (j_outcome j) (l_app l) in
      step (Waiting l)
           (Waiting {| l_app := r.1; delayed := delayed l;
                       inflight := f1 ++ f2; settled := settled l ++ [(j, r.2)];
                       requests := requests l |})
  | step_refresh l now jobs r :
      refreshNews now jobs (l_app l) = r →
      dispatched r = [] →
      step (Waiting l)
           (Waiting {| l_app := app_after r; delayed := delayed l;
                       inflight := inflight l; settled := settled l;
                       requests := requests l |})
  | step_join l now :
      delayed l = [] → inflight l = [] →
      step (Waiting l) (Returned Completed (finishLoading now (l_app l))).

Inductive steps : Stage → Stage → Prop :=
  | steps_refl st : steps st st
  | steps_step st1 st2 st3 : steps st1 st2 → step st2 st3 → steps st1 st3.

(** What a task adds to [allArticles] when it settles. *)
Definition contribution (j : Job) : list Article :=
  match j_outcome j with
  | Responded true (Some xmlDoc) =>
      take maxArticlesPerSource (parseRSSFeed (j_now j) xmlDoc (j_source j))
  | _ => []
  end.

(** A task whose fetch or parse fails: the request is rejected, the
    status is not OK, the body cannot be read, or the document is
    malformed. *)
Definition failed (j : Job) : bool :=
  match j_outcome j with
  | Responded true (Some (Feed _)) => false
  | _ => true
  end.

(** One run of the loop that settles the tasks in the order given, each
    request issued just before its answer: a schedule to execute. *)
Fixpoint settle_all (jobs : list Job) (app : App) : App :=
  match jobs with
  | [] => app
  | j :: jobs' =>
      settle_all jobs' (loadSingleSource (j_now j) (j_source j) (j_outcome j) app).1
  end.

(** The state the loader returns with when the tasks of [l] are run to
    their end in the order of [settle_all], and the promises are joined
    at clock [now]. *)
Definition run_to_end (now : Z) (l : Loading) : App :=
  finishLoading now (settle_all (inflight l ++ delayed l) (l_app l)).

(** What holds of the suspended loader started on [jobs] from [app0]:
    the displayed list is still the old one, every settled promise is
    fulfilled, [allArticles] is the contributions of the settled tasks in
    completion order, and no task has been lost or duplicated. *)
Definition loading_invariant (jobs : list Job) (app0 : App) (l : Loading) : Prop :=
  isLoading (l_app l) = true
  ∧ articles (l_app l) = articles app0
  ∧ Forall (λ p, ∃ result, p.2 = Normal result) (settled l)
  ∧ allArticles (l_app l) = concat (contribution <$> (settled l).*1)
  ∧ loadedSources (l_app l) = Z.of_nat (length (settled l))
  ∧ (settled l).*1 ++ inflight l ++ delayed l ≡ₚ jobs
  ∧ requests l ≡ₚ j_source <$> ((settled l).*1 ++ inflight l).

(** What holds of the state the loader has returned with. *)
Definition returned_invariant (jobs : list Job) (why : Exit) (app : App) : Prop :=
  isLoading app = false
  ∧ match why with
    | AlreadyInProgress => False
    | NoActiveSources => jobs = []
    | Completed =>
        ∃ order, order ≡ₚ jobs
          ∧ allArticles app = concat (contribution <$> order)
          ∧ articles app = aggregate (allArticles app)
          ∧ loadedSources app = Z.of_nat (length jobs)
    end.

Definition stage_invariant (jobs : list Job) (app0 : App) (st : Stage) : Prop :=
  match st with
  | Waiting l => loading_invariant jobs app0 l
  | Returned why app => returned_invariant jobs why app
  end.
End Scheduler.

(** ** An ASCII host *)

(** URLs of the form [scheme:rest] with a lower-case scheme made of letters;
    the path starts at the first [/] after [//authority]. Enough for the
    examples; the theorems hold for every host. *)
Fixpoint split_scheme (s : jsstring) : option (jsstring * jsstring) :=
  match s with
  | [] => None
  | c :: s' =>
      if c =? 58 then Some ([c], s')
      else if (97 <=? c) && (c <=? 122) then
        match split_scheme s' with
        | Some (scheme, rest) => Some (c :: scheme, rest)
        | None => None
        end
      else None
  end.

Fixpoint from_slash (s : jsstring) : jsstring :=
  match s with
  | [] => [47]
  | c :: s' => if c =? 47 then s else from_slash s'
  end.

Definition ascii_parseURL (s : jsstring) : option URL :=
  match split_scheme s with
  | Some (c :: c' :: scheme, rest) =>
      Some {| protocol := c :: c' :: scheme; pathname := from_slash (drop 2 rest);
              href := s |}
  | _ => None
  end.

(** Dates written as a decimal count of milliseconds. *)
Fixpoint decimal (acc : Z) (s : jsstring) : option Z :=
  match s with
  | [] => Some acc
  | c :: s' =>
      if (48 <=? c) && (c <=? 57) then decimal (10 * acc + (c - 48)) s' else None
  end.

Definition ascii_parseDate (s : jsstring) : option Z :=
  match s with [] => None | _ => decimal 0 s end.

Definition ascii_host : Host :=
  {| toLowerCase := lower_ascii; parseURL := ascii_parseURL;
     parseDateString := ascii_parseDate |}.

(** ** Sample data *)

Definition sample_source : ActiveSource :=
  {| s_id := js "bbc-world"; s_name := js "BBC World";
     s_url := js "https://feeds.bbci.co.uk/news/world/rss.xml";
     s_verified := true; s_isCustom := false; s_category := js "world" |}.

Definition sample_article (t : string) (published : Z) : Article :=
  {| article_id := js "0"; title := js t; summary := js t; url := None;
     imageUrl := None; publishedAt := published;
     source := {| info_id := js "bbc-world"; info_name := js "BBC World";
                  info_verified := true; info_isCustom := false |};
     category := js "world"; loadedAt := 0 |}.

(** An item with the given title, link and date and nothing else. *)
Definition sample_item (t link date : string) : Item :=
  {| el_title := Some (js t); el_description := None; el_link := Some (js link);
     el_guid := None; el_pubDate := Some (js date); el_media := None;
     el_enclosure := None |}.

(** [n] articles with pairwise distinct titles (the numerals [0], [1], ...
    in base 36), the article of index [i] published at [i]. *)
Definition numbered_articles (n : nat) : list Article :=
  (λ i, {| article_id := js "0"; title := toString36 (Z.of_nat i); summary := [];
           url := None; imageUrl := None; publishedAt := Z.of_nat i;
           source := {| info_id := js "bbc-world"; info_name := js "BBC World";
                        info_verified := true; info_isCustom := false |};
           category := js "world"; loadedAt := 0 |}) <$> seq 0 n.

(** Four sources: the request of the first is rejected, the second answers
    with a feed of two items, the third with a status that is not OK, the
    fourth with a malformed document. *)
Definition sample_jobs : list Job :=
  [ mkJob sample_source (FetchRejected (js "Failed to fetch")) 1700000000100;
    mkJob sample_source
      (Responded true
         (Some (Feed [sample_item "Storm hits coast" "https://example.com/storm"
                        "1700000000000";
                      sample_item "Markets rally" "https://example.com/markets"
                        "1700000000050"])))
      1700000000200;
    mkJob sample_source (Responded false None) 1700000000300;
    mkJob sample_source (Responded true (Some ParserError)) 1700000000400 ].

(** The scenario of the specification with a failing source added: the
    request of the first source is rejected; the second and the third
    report the same headline, one with trailing punctuation, one without. *)
Definition second_reporter : Job :=
  mkJob sample_source
    (Responded true
       (Some (Feed [sample_item "Storm hits coast." "https://example.com/storm"
                      "1700000000000"])))
    1700000000200.

Definition third_reporter : Job :=
  mkJob sample_source
    (Responded true
       (Some (Feed [sample_item "Storm hits coast" "https://example.org/storm"
                      "1700000000050"])))
    1700000000300.

Definition same_headline_jobs : list Job :=
  [ mkJob sample_source (FetchRejected (js "Failed to fetch")) 1700000000100;
    second_reporter; third_reporter ].

(** * Further parts of the code and what they are measured against *)

(** ** Shapes of text *)

(** [/<[^>]*>/.test(s)]: some [<] has a [>] after it. *)
Fixpoint has_tag (s : jsstring) : bool :=
  match s with
  | [] => false
  | c :: s' => ((c =? 60) && existsb (λ d, d =? 62) s') || has_tag s'
  end.

(** Whether [[^;]+;] matches at the head of [s]: a code unit other than
    [;], and a [;] further on. *)
Definition entity_tail (s : jsstring) : bool :=
  match s with
  | d :: s' => negb (d =? 59) && existsb (λ e, e =? 59) s'
  | [] => false
  end.

(** [/&[^;]+;/.test(s)] *)
Fixpoint has_entity (s : jsstring) : bool :=
  match s with
  | [] => false
  | c :: s' => ((c =? 38) && entity_tail s') || has_entity s'
  end.

(** No white space next to white space. *)
Fixpoint single_spaced (s : jsstring) : bool :=
  match s with
  | c :: (d :: _) as s' => negb (is_space c && is_space d) && single_spaced s'
  | _ => true
  end.

(** [l'] is [l] with some code units that satisfy [P] dropped or turned
    into a space. *)
Inductive thinned (P : Z → Prop) : jsstring → jsstring → Prop :=
  | thinned_nil : thinned P [] []
  | thinned_keep c l' l : thinned P l' l → thinned P (c :: l') (c :: l)
  | thinned_drop c l' l : P c → thinned P l' l → thinned P l' (c :: l)
  | thinned_blank c l' l : P c → thinned P l' l → thinned P (32 :: l') (c :: l).

(** Text as [sanitizeText] leaves it: no white space but the space, never
    two in a row, none at either end. *)
Definition tidy (s : jsstring) : Prop :=
  Forall (λ c, is_space c = true → c = 32) s
  ∧ single_spaced s = true
  ∧ (∀ c, head s = Some c → is_space c = false)
  ∧ (∀ c, last s = Some c → is_space c = false).

(** ** Items and articles *)

(** The test that opens [extractArticleFromItem]: a title, and a link or
    else a guid, that are not empty once trimmed. *)
Definition usable (item : Item) : bool :=
  truthy (getElementText (el_title item))
  && truthy (or_else (getElementText (el_link item)) (getElementText (el_guid item))).

(** The file extensions [isValidImageUrl] accepts. *)
Definition image_extensions : list jsstring :=
  [js ".jpg"; js ".jpeg"; js ".png"; js ".gif"; js ".webp"].

(** An item whose title is markup and which has no description. *)
Definition markup_title_item : Item :=
  {| el_title := Some (js "<b>Storm</b> hits coast"); el_description := None;
     el_link := Some (js "https://example.com/storm"); el_guid := None;
     el_pubDate := None;
     el_media := Some (Some (js "https://example.com/storm.JPG"));
     el_enclosure := None |}.

(** ** The category view *)

(** The list [filterAndDisplayArticles] (script.js 775-788) hands to the
    display: all articles under [all], else those of [currentCategory]. *)
Definition filterArticles (currentCategory : jsstring) (articles : list Article)
    : list Article :=
  if bool_decide (currentCategory ≠ js "all")
  then filter (λ article, category article = currentCategory) articles
  else articles.

(** ** Time ago *)

(** Number.prototype.toString() of an integer: decimal digits, most
    significant first, with a minus sign below zero. *)
Fixpoint digits10 (fuel : nat) (n : Z) (acc : jsstring) : jsstring :=
  match fuel with
  | O => acc
  | S fuel' =>
      let acc' := (48 + n `mod` 10) :: acc in
      if n <? 10 then acc' else digits10 fuel' (n `div` 10) acc'
  end.

Definition toString10 (n : Z) : jsstring :=
  if n <? 0 then 45 :: digits10 (S (Z.to_nat (Z.log2 (- n)))) (- n) []
  else digits10 (S (Z.to_nat (Z.log2 n))) n [].

(** What [getTimeAgo] tells: one of its four phrases, or the date. *)
Inductive TimeAgo :=
  | JustNow
  | MinutesAgo (diffMins : Z)
  | HoursAgo (diffHours : Z)
  | DaysAgo (diffDays : Z)
  | OnDate (date : option Z).

(** The branches of getTimeAgo (script.js 886-902) on the time value of
    [new Date(dateString)], [None] for an Invalid Date: there the
    difference is NaN, every comparison fails and the date is printed.
    [Math.floor] of the quotient of integers is the floored division. *)
Definition timeAgo (now : Z) (date : option Z) : TimeAgo :=
  match date with
  | None => OnDate None
  | Some d =>
      let diffMs := now - d in
      let diffMins := diffMs `div` 60000 in
      if diffMins <? 1 then JustNow
      else if diffMins <? 60 then MinutesAgo diffMins
      else
        let diffHours := (diffMins `div` 60) in
        if diffHours <? 24 then HoursAgo diffHours
        else
          let diffDays := (diffHours `div` 24) in
          if diffDays <? 7 then DaysAgo diffDays
          else OnDate date
  end.

Section TimeAgoText.
Context `{Host}.
(** [Date.prototype.toLocaleDateString], which depends on the locale of
    the host. *)
Variable toLocaleDateString : option Z → jsstring.

Definition renderTimeAgo (t : TimeAgo) : jsstring :=
  match t with
  | JustNow => js "Just now"
  | MinutesAgo n => toString10 n ++ js "m ago"
  | HoursAgo n => toString10 n ++ js "h ago"
  | DaysAgo n => toString10 n ++ js "d ago"
  | OnDate date => toLocaleDateString date
  end.

(** getTimeAgo (script.js 886-902) at clock [now]. *)
Definition getTimeAgo (now : Z) (dateString : jsstring) : jsstring :=
  renderTimeAgo (timeAgo now (parseDateString dateString)).
End TimeAgoText.

(** ** Preferences *)

(** What reading [object[name]] finds on a plain object: a property of
    the object itself, a member inherited from [Object.prototype] (a
    function, or the prototype object for [__proto__]: truthy, and with
    none of the array methods), or [undefined]. *)
Inductive Property (A : Type) :=
  | Own (a : A)
  | Inherited
  | Undefined.
Arguments Own {A} a.
Arguments Inherited {A}.
Arguments Undefined {A}.

(** The property names of [Object.prototype]. *)
Definition prototype_names : list jsstring :=
  [js "constructor"; js "__defineGetter__"; js "__defineSetter__";
   js "hasOwnProperty"; js "__lookupGetter__"; js "__lookupSetter__";
   js "isPrototypeOf"; js "propertyIsEnumerable"; js "toString";
   js "valueOf"; js "__proto__"; js "toLocaleString"].

Definition get {A} (object : gmap jsstring A) (name : jsstring) : Property A :=
  match object !! name with
  | Some a => Own a
  | None => if bool_decide (name ∈ prototype_names) then Inherited else Undefined
  end.

(** A source as the catalog and the preferences hold it; a catalog entry
    has no [isCustom] member, which reads as falsy. *)
Record StoredSource := mkStored {
  st_id : jsstring;
  st_name : jsstring;
  st_url : jsstring;
  st_verified : bool;
  st_isCustom : bool
}.

Definition catalog_source (id name url : string) : StoredSource :=
  {| st_id := js id; st_name := js name; st_url := js url;
     st_verified := true; st_isCustom := false |}.

(** [this.defaultSources] (script.js 48-80). *)
Definition defaultSources : gmap jsstring (list StoredSource) :=
  list_to_map
    [(js "breaking",
      [catalog_source "foxnews-breaking" "Fox News" "https://moxie.foxnews.com/google-publisher/latest.xml";
       catalog_source "ndtv" "NDTV" "https://feeds.feedburner.com/ndtvnews-india-news";
       catalog_source "bbc-breaking" "BBC News" "https://feeds.bbci.co.uk/news/rss.xml";
       catalog_source "sky-breaking" "Sky News" "https://feeds.skynews.com/feeds/rss/world.xml"]);
     (js "world",
      [catalog_source "bbc-world" "BBC World" "https://feeds.bbci.co.uk/news/world/rss.xml";
       catalog_source "foxnews-world" "Fox News" "https://moxie.foxnews.com/google-publisher/world.xml";
       catalog_source "guardian-world" "The Guardian" "https://www.theguardian.com/world/rss"]);
     (js "politics",
      [catalog_source "foxnews-politics" "Fox News Politics" "https://moxie.foxnews.com/google-publisher/politics.xml";
       catalog_source "npr-politics" "NPR Politics" "https://feeds.npr.org/1014/rss.xml";
       catalog_source "hill-politics" "The Hill" "https://thehill.com/rss/syndicator/19109"]);
     (js "business",
      [catalog_source "yahoo-finance" "Yahoo Finance" "https://news.yahoo.com/rss/finance";
       catalog_source "marketwatch" "MarketWatch" "https://feeds.marketwatch.com/marketwatch/topstories/";
       catalog_source "cnbc-business" "CNBC" "https://www.cnbc.com/id/100003114/device/rss/rss.html"]);
     (js "technology",
      [catalog_source "theverge" "The Verge" "https://www.theverge.com/rss/index.xml";
       catalog_source "wired" "Wired" "https://www.wired.com/feed/rss";
       catalog_source "arstechnica" "Ars Technica" "https://feeds.arstechnica.com/arstechnica/index"]);
     (js "sports",
      [catalog_source "espn" "ESPN" "https://www.espn.com/espn/rss/news";
       catalog_source "bbc-sport" "BBC Sport" "https://feeds.bbci.co.uk/sport/rss.xml";
       catalog_source "cbs-sports" "CBS Sports" "https://www.cbssports.com/rss/headlines/"])].

(** [this.categoryMetadata] (script.js 83-90), each key with its [name];
    [icon] and [color] are not read by the code embedded here. *)
Definition categoryMetadata : gmap jsstring jsstring :=
  list_to_map
    [(js "breaking", js "Breaking News"); (js "world", js "World");
     (js "politics", js "Politics"); (js "business", js "Business");
     (js "technology", js "Technology"); (js "sports", js "Sports")].

Definition maxSourcesPerCategory : nat := 5.

(** [this.userPreferences]. *)
Record UserPreferences := mkPreferences {
  categories : list jsstring;
  sources : gmap jsstring (list jsstring);
  customCategories : list jsstring;
  customSources : gmap jsstring (list StoredSource)
}.

(** The [defaults] of loadUserPreferences (script.js 157-167), which it
    returns when nothing is stored. *)
Definition defaultPreferences : UserPreferences :=
  {| categories := [js "breaking"; js "world"; js "business"; js "technology"];
     sources :=
       list_to_map
         [(js "breaking", [js "foxnews-breaking"; js "ap-breaking"]);
          (js "world", [js "bbc-world"; js "foxnews-world"]);
          (js "business", [js "yahoo-finance"; js "businessnewsstandard-business"]);
          (js "technology", [js "techcrunch"; js "theverge"])];
     customCategories := [];
     customSources := ∅ |}.

Definition set_categories (v : list jsstring) (prefs : UserPreferences) : UserPreferences :=
  {| categories := v; sources := sources prefs;
     customCategories := customCategories prefs; customSources := customSources prefs |}.

Definition set_customCategories (v : list jsstring) (prefs : UserPreferences)
  : UserPreferences :=
  {| categories := categories prefs; sources := sources prefs;
     customCategories := v; customSources := customSources prefs |}.

Definition set_customSources (v : gmap jsstring (list StoredSource))
  (prefs : UserPreferences) : UserPreferences :=
  {| categories := categories prefs; sources := sources prefs;
     customCategories := customCategories prefs; customSources := v |}.

(** [showNotification(message, type)]. *)
Inductive Notification :=
  | showNotification (message type : jsstring).


Definition TypeError : jsstring := js "TypeError".

(** A Number passed where the code expects an array index: an integer,
    or a value that is no integer, which is a finite one, given by its
    truncation toward zero, NaN, or an infinity. *)
Inductive Index :=
  | Whole (i : Z)
  | Broken (truncated : Z)
  | NotANumber
  | Infinite (negative : bool).

(** [array[index]]: only an integer from 0 names an element. *)
Definition at_index {A} (array : list A) (index : Index) : option A :=
  match index with
  | Whole i => if 0 <=? i then array !! Z.to_nat i else None
  | _ => None
  end.

(** Where [array.splice(index, 1)] starts on an array of length [len]:
    at ToIntegerOrInfinity of the index, counted from the end when that
    is negative, and clamped to the array. *)
Definition splice_start (len : nat) (index : Index) : nat :=
  match index with
  | Whole i | Broken i =>
      if i <? 0 then Z.to_nat (Z.max (Z.of_nat len + i) 0)
      else Z.to_nat (Z.min i (Z.of_nat len))
  | NotANumber => 0
  | Infinite negative => if negative then 0 else len
  end.

(** What [array.splice(index, 1)] leaves of the array: the element at
    the start is removed, if there is one. *)
Definition splice1 {A} (array : list A) (index : Index) : list A :=
  delete (splice_start (length array) index) array.

Section Preferences.
Context `{Host}.

(** [category.replace(/\s+/g, '').toLowerCase()] *)
Definition categoryKey (category : jsstring) : jsstring :=
  toLowerCase (filter (λ c, is_space c = false) category).

(** [category.toLowerCase().replace(/\s+/g, '')] *)
Definition customKey (category : jsstring) : jsstring :=
  filter (λ c, is_space c = false) (toLowerCase category).

(** The catalog sources of one category that are pushed: those whose id
    is among the selected ones. *)
Definition selected_entries (selectedSources : list jsstring) (key : jsstring)
  (catalog : list StoredSource) : list ActiveSource :=
  (λ source, {| s_id := st_id source; s_name := st_name source;
                s_url := st_url source; s_verified := st_verified source;
                s_isCustom := false; s_category := key |})
    <$> filter (λ source, st_id source ∈ selectedSources) catalog.

Definition custom_entries (key : jsstring) (custom : list StoredSource)
  : list ActiveSource :=
  (λ customSource, {| s_id := st_id customSource; s_name := st_name customSource;
                      s_url := st_url customSource; s_verified := false;
                      s_isCustom := true; s_category := key |})
    <$> custom.

(** The first half of the callback of getActiveSources. On an inherited
    member [forEach] is undefined and the call throws; the selection
    [sources[categoryKey] || []] is an array, nothing, or an inherited
    member, whose [includes] is undefined and throws at the first catalog
    source. *)
Definition visit_default (prefs : UserPreferences) (key : jsstring)
  : Completion (list ActiveSource) :=
  match get defaultSources key with
  | Own catalog =>
      match get (sources prefs) key with
      | Own selectedSources => Normal (selected_entries selectedSources key catalog)
      | Undefined => Normal (selected_entries [] key catalog)
      | Inherited => match catalog with [] => Normal [] | _ => Throw TypeError end
      end
  | Inherited => Throw TypeError
  | Undefined => Normal []
  end.

(** The second half of the callback. *)
Definition visit_custom (prefs : UserPreferences) (key : jsstring)
  : Completion (list ActiveSource) :=
  match get (customSources prefs) key with
  | Own custom => Normal (custom_entries key custom)
  | Inherited => Throw TypeError
  | Undefined => Normal []
  end.

(** [this.userPreferences.categories.forEach(...)] pushing onto
    [pushed]; a throw leaves the loop and the function. *)
Fixpoint forEach_category (prefs : UserPreferences) (pending : list jsstring)
  (pushed : list ActiveSource) : Completion (list ActiveSource) :=
  match pending with
  | [] => Normal pushed
  | category :: rest =>
      let key := categoryKey category in
      match visit_default prefs key with
      | Throw e => Throw e
      | Normal defaults =>
          match visit_custom prefs key with
          | Throw e => Throw e
          | Normal custom =>
              forEach_category prefs rest (pushed ++ defaults ++ custom)
          end
      end
  end.

(** getActiveSources (script.js 696-731). *)
Definition getActiveSources (prefs : UserPreferences) : Completion (list ActiveSource) :=
  forEach_category prefs (categories prefs) [].

(** removeCustomCategory (script.js 1587-1606); [index] is the Number
    the caller passes, [confirmed] the answer to the confirm dialog. An
    index that finds nothing reads [undefined], which the dialog prints;
    [splice] then removes what its own reading of the index points at,
    and [category.toLowerCase()] throws. The three lists redrawn at the
    end are built without a call that can throw. *)
Definition removeCustomCategory (index : Index) (confirmed : bool)
  (prefs : UserPreferences) : UserPreferences * Completion (option Notification) :=
  let category := at_index (customCategories prefs) index in
  if confirmed then
    let prefs1 := set_customCategories (splice1 (customCategories prefs) index) prefs in
    match category with
    | None => (prefs1, Throw TypeError)
    | Some category =>
        let key := customKey category in
        (set_customSources (delete key (customSources prefs1))
           (set_categories (filter (λ cat, cat ≠ key) (categories prefs1)) prefs1),
         Normal (Some (showNotification (js "Removed custom category: " ++ category)
                         (js "success"))))
    end
  else (prefs, Normal None).

(** createSourceCheckboxItem (script.js 1415-1447) as far as it can
    fail: [new URL(sourceUrl)] throws a TypeError on a url it cannot
    parse, and is not called for an empty one. A stored source has no
    [rss] member. *)
Definition createSourceCheckboxItem (source : StoredSource) : Completion unit :=
  if truthy (st_url source) then
    match parseURL (st_url source) with
    | Some _ => Normal tt
    | None => Throw TypeError
    end
  else Normal tt.

(** [list.forEach(source => ... createSourceCheckboxItem(source, ...))] *)
Fixpoint forEach_source (list : list StoredSource) : Completion unit :=
  match list with
  | [] => Normal tt
  | source :: rest =>
      match createSourceCheckboxItem source with
      | Normal _ => forEach_source rest
      | Throw e => Throw e
      end
  end.

(** The callback of populateSourcesGrid on one checked category. The
    heading is made by getCategoryDisplayName, which does not throw.
    Reading [sources[category]?.includes] on an inherited member finds
    no [includes] and throws at the first catalog source. *)
Definition render_category (prefs : UserPreferences) (category : jsstring)
  : Completion unit :=
  match
    match get defaultSources category with
    | Own catalog =>
        match get (sources prefs) category with
        | Inherited => match catalog with [] => Normal tt | _ => Throw TypeError end
        | _ => forEach_source catalog
        end
    | Inherited => Throw TypeError
    | Undefined => Normal tt
    end
  with
  | Throw e => Throw e
  | Normal _ =>
      match get (customSources prefs) category with
      | Own custom => forEach_source custom
      | Inherited => Throw TypeError
      | Undefined => Normal tt
      end
  end.

(** populateSourcesGrid (script.js 1364-1410) as far as it can fail;
    [checked] holds the values of the category checkboxes that are
    checked when it runs, in document order. *)
Fixpoint populateSourcesGrid (prefs : UserPreferences) (checked : list jsstring)
  : Completion unit :=
  match checked with
  | [] => Normal tt
  | category :: rest =>
      match render_category prefs category with
      | Normal _ => populateSourcesGrid prefs rest
      | Throw e => Throw e
      end
  end.

(** addCustomSource (script.js 1611-1668) at clock [now], on the values
    of the two text fields and of the category select, with the checked
    category checkboxes [checked]. A category that names a member of
    [Object.prototype] finds that member, skips the initialisation,
    passes the length test (no such member has a length of 5 or more)
    and throws at [some]. After the push the lists of the dialog are
    redrawn, populateCustomLists without a call that can throw, then
    populateSourcesGrid; the notification comes last. *)
Definition addCustomSource (now : Z) (nameInput urlInput category : jsstring)
  (checked : list jsstring) (prefs : UserPreferences)
  : UserPreferences * Completion Notification :=
  let name := trim nameInput in
  let url := trim urlInput in
  if negb (truthy name) || negb (truthy url) || negb (truthy category) then
    (prefs, Normal (showNotification (js "Please fill all fields") (js "warning")))
  else if negb (startsWith (js "https://") url) then
    (prefs, Normal (showNotification (js "RSS URL must use HTTPS") (js "warning")))
  else
    match get (customSources prefs) category with
    | Inherited => (prefs, Throw TypeError)
    | found =>
        let existing := match found with Own custom => custom | _ => [] end in
        let prefs1 :=
          match found with
          | Own _ => prefs
          | _ => set_customSources (<[category := []]> (customSources prefs)) prefs
          end in
        if (maxSourcesPerCategory <=? length existing)%nat then
          (prefs1,
           Normal (showNotification
                     (js "Maximum " ++ toString10 (Z.of_nat maxSourcesPerCategory)
                      ++ js " custom sources per category") (js "warning")))
        else if existsb (λ source, bool_decide (st_name source = name)
                                   || bool_decide (st_url source = url)) existing then
          (prefs1, Normal (showNotification (js "Source already exists") (js "warning")))
        else
          let prefs2 :=
            set_customSources
              (<[category := existing ++
                   [{| st_id := js "custom-" ++ toString10 now; st_name := name;
                       st_url := url; st_verified := false; st_isCustom := true |}]]>
                 (customSources prefs1)) prefs1 in
          (prefs2,
           match populateSourcesGrid prefs2 checked with
           | Normal _ =>
               Normal (showNotification (js "Added custom source: " ++ name) (js "success"))
           | Throw e => Throw e
           end)
    end.

(** removeCustomSource (script.js 1673-1689). Reading the source throws
    when the category has no list, and [source.name] throws when the
    index finds nothing, both before anything is changed. After the
    splice the lists are redrawn as in addCustomSource. *)
Definition removeCustomSource (category : jsstring) (index : Index) (confirmed : bool)
  (checked : list jsstring) (prefs : UserPreferences)
  : UserPreferences * Completion (option Notification) :=
  match get (customSources prefs) category with
  | Own custom =>
      match at_index custom index with
      | Some source =>
          if confirmed then
            let remaining := splice1 custom index in
            let prefs1 :=
              set_customSources
                (if (length remaining =? 0)%nat
                 then delete category (customSources prefs)
                 else <[category := remaining]> (customSources prefs)) prefs in
            (prefs1,
             match populateSourcesGrid prefs1 checked with
             | Normal _ =>
                 Normal (Some (showNotification
                                 (js "Removed custom source: " ++ st_name source)
                                 (js "success")))
             | Throw e => Throw e
             end)
          else (prefs, Normal None)
      | None => (prefs, Throw TypeError)
      end
  | _ => (prefs, Throw TypeError)
  end.
End Preferences.

(** addCustomCategory (script.js 1553-1582, the later of the two methods
    of this name, which is the one the class keeps); [input] is the value
    of the text field. The lists redrawn at the end are built without a
    call that can throw. *)
Definition addCustomCategory (input : jsstring) (prefs : UserPreferences)
  : UserPreferences * Notification :=
  let name := trim input in
  if negb (truthy name) then
    (prefs, showNotification (js "Please enter a category name") (js "warning"))
  else if (9 <=? length (customCategories prefs))%nat then
    (prefs, showNotification (js "Maximum 9 custom categories allowed") (js "warning"))
  else if bool_decide (name ∈ customCategories prefs) then
    (prefs, showNotification (js "Category already exists") (js "warning"))
  else
    (set_customCategories (customCategories prefs ++ [name]) prefs,
     showNotification (js "Added custom category: " ++ name) (js "success")).

(** What the user does to the custom categories and sources, with what
    the dialog shows at that moment. *)
Inductive Action :=
  | AddCategory (input : jsstring)
  | RemoveCategory (index : Index) (confirmed : bool)
  | AddSource (now : Z) (nameInput urlInput category : jsstring)
      (checked : list jsstring)
  | RemoveSource (category : jsstring) (index : Index) (confirmed : bool)
      (checked : list jsstring).

(** The preferences an action leaves, whether it returned or threw. *)
Definition perform `{Host} (prefs : UserPreferences) (action : Action) : UserPreferences :=
  match action with
  | AddCategory input => (addCustomCategory input prefs).1
  | RemoveCategory index confirmed => (removeCustomCategory index confirmed prefs).1
  | AddSource now nameInput urlInput category checked =>
      (addCustomSource now nameInput urlInput category checked prefs).1
  | RemoveSource category index confirmed checked =>
      (removeCustomSource category index confirmed checked prefs).1
  end.

(** The limits the dialog enforces. *)
Definition custom_source_ok (source : StoredSource) : Prop :=
  startsWith (js "https://") (st_url source) = true
  ∧ truthy (st_name source) = true
  ∧ st_verified source = false
  ∧ st_isCustom source = true.

Definition custom_list_ok (custom : list StoredSource) : Prop :=
  custom ≠ []
  ∧ (length custom ≤ maxSourcesPerCategory)%nat
  ∧ NoDup (st_name <$> custom)
  ∧ NoDup (st_url <$> custom)
  ∧ Forall custom_source_ok custom.

Definition within_limits (prefs : UserPreferences) : Prop :=
  (length (customCategories prefs) ≤ 9)%nat
  ∧ NoDup (customCategories prefs)
  ∧ Forall (λ name, truthy name = true) (customCategories prefs)
  ∧ map_Forall (λ _ custom, custom_list_ok custom) (customSources prefs).

(** A source is pushed for a key from the catalog: it is a catalog entry
    of that key whose id is selected under that key. *)
Definition from_catalog (prefs : UserPreferences) (s : ActiveSource) : Prop :=
  ∃ catalog selected entry,
    defaultSources !! s_category s = Some catalog
    ∧ sources prefs !! s_category s = Some selected
    ∧ entry ∈ catalog ∧ st_id entry ∈ selected
    ∧ s_id s = st_id entry ∧ s_name s = st_name entry ∧ s_url s = st_url entry
    ∧ s_verified s = st_verified entry ∧ s_isCustom s = false.

(** A source is pushed for a key from the custom sources stored under
    that key. *)
Definition from_custom (prefs : UserPreferences) (s : ActiveSource) : Prop :=
  ∃ custom entry,
    customSources prefs !! s_category s = Some custom
    ∧ entry ∈ custom
    ∧ s_id s = st_id entry ∧ s_name s = st_name entry ∧ s_url s = st_url entry
    ∧ s_verified s = false ∧ s_isCustom s = true.

(** A host for the examples of the settings dialog: as the ASCII host,
    except that, as [new URL] does, it refuses an https address with
    nothing after the two slashes. *)
Definition web_parseURL (s : jsstring) : option URL :=
  match split_scheme s with
  | Some (scheme, rest) =>
      if bool_decide (scheme = js "https:" ∧ drop 2 rest = []) then None
      else ascii_parseURL s
  | None => None
  end.

Definition web_host : Host :=
  {| toLowerCase := lower_ascii; parseURL := web_parseURL;
     parseDateString := ascii_parseDate |}.

(** ** Category buttons *)

(** An entry of [uniqueCategories] as its button shows it: the
    [data-category] attribute, and whether [data-custom] is set. The
    [displayName] of the entry is left out: getCategoryDisplayName, which
    computes it, does not throw, and the createCategoryButton that the
    class keeps (script.js 1100) has no third parameter to receive it. *)
Record CategoryButton := mkButton {
  data_category : jsstring;
  data_custom : bool
}.

(** [uniqueCategories.has(key)] on the entries in insertion order. *)
Definition has_category (uniqueCategories : list CategoryButton) (key : jsstring) : bool :=
  bool_decide (key ∈ data_category <$> uniqueCategories).

Section Buttons.
Context `{Host}.

(** The set filled by the first loop of updateCategoryButtons. *)
Definition availableCategories (articles : list Article) : gset jsstring :=
  foldl (λ available article,
           if truthy (category article) then {[category article]} ∪ available
           else available)
        {[js "all"]} articles.

(** The callback of the loop over the selected categories. *)
Definition visit_selected (prefs : UserPreferences) (available : gset jsstring)
  (uniqueCategories : list CategoryButton) (selected : jsstring) : list CategoryButton :=
  let key := categoryKey selected in
  if bool_decide (key ∈ available) then
    let isBuiltIn := bool_decide (is_Some (categoryMetadata !! key)) in
    let customCategory :=
      head (filter (λ cat, customKey cat = key) (customCategories prefs)) in
    if has_category uniqueCategories key then uniqueCategories
    else uniqueCategories ++
           [{| data_category := key;
               data_custom := negb isBuiltIn && from_option truthy false customCategory |}]
  else uniqueCategories.

(** The callback of the loop over the custom categories. *)
Definition visit_named (available : gset jsstring)
  (uniqueCategories : list CategoryButton) (customCategory : jsstring)
  : list CategoryButton :=
  let key := customKey customCategory in
  if bool_decide (key ∈ available) && negb (has_category uniqueCategories key)
  then uniqueCategories ++ [{| data_category := key; data_custom := true |}]
  else uniqueCategories.

(** updateCategoryButtons (script.js 907-979): the buttons it creates,
    in the order in which it appends them after the button of all
    articles, which it keeps. *)
Definition updateCategoryButtons (prefs : UserPreferences) (articles : list Article)
  : list CategoryButton :=
  let available := availableCategories articles in
  foldl (visit_named available)
        (foldl (visit_selected prefs available) [] (categories prefs))
        (customCategories prefs).

(** The [data-category] of the tabs of the navigation, in order. *)
Definition categoryTabs (prefs : UserPreferences) (articles : list Article)
  : list jsstring :=
  js "all" :: (data_category <$> updateCategoryButtons prefs articles).
End Buttons.

(** * Properties *)

(** ** Article identity *)

Lemma ToInt32_range z : - 2 ^ 31 ≤ ToInt32 z < 2 ^ 31.
Proof. unfold ToInt32. pose proof (Z.mod_pos_bound (z + 2 ^ 31) (2 ^ 32)). lia. Qed.

Lemma ToInt32_wrap32 z : ToInt32 z = wrap32 z.
Proof.
  unfold ToInt32, wrap32. cbv zeta.
  destruct (Z.ltb_spec (z `mod` 2 ^ 32) (2 ^ 31)); Z.div_mod_to_equations; lia.
Qed.

Lemma ToInt32_congr a b k : a = b + k * 2 ^ 32 → ToInt32 a = ToInt32 b.
Proof.
  intros ->. unfold ToInt32.
  replace (b + k * 2 ^ 32 + 2 ^ 31) with (b + 2 ^ 31 + k * 2 ^ 32) by lia.
  by rewrite Z.mod_add.
Qed.

Lemma ToInt32_unwrap z : ∃ k, ToInt32 z = z + k * 2 ^ 32.
Proof.
  exists (- ((z + 2 ^ 31) `div` 2 ^ 32)). unfold ToInt32.
  Z.div_mod_to_equations; lia.
Qed.

Lemma ToInt32_idemp z : ToInt32 (ToInt32 z) = ToInt32 z.
Proof.
  destruct (ToInt32_unwrap z) as [k Hk].
  apply (ToInt32_congr _ _ k). exact Hk.
Qed.

Lemma js_and_diag x : js_and x x = ToInt32 x.
Proof. unfold js_and. by rewrite Z.land_diag, ToInt32_idemp. Qed.

Lemma js_shl_5 h : ∃ k, js_shl h 5 = h * 2 ^ 5 + k * 2 ^ 32.
Proof.
  unfold js_shl. change (5 `mod` 32) with 5. rewrite Z.shiftl_mul_pow2 by lia.
  destruct (ToInt32_unwrap h) as [k1 Hk1].
  destruct (ToInt32_unwrap (ToInt32 h * 2 ^ 5)) as [k2 Hk2].
  exists (k2 + k1 * 2 ^ 5). lia.
Qed.

(** The loop body of the code is the step the specification words. *)
Lemma hash_step_spec h c : hash_step h c = spec_hash_step h c.
Proof.
  unfold hash_step, spec_hash_step. cbv zeta.
  rewrite js_and_diag, <- ToInt32_wrap32.
  destruct (js_shl_5 h) as [k Hk].
  apply (ToInt32_congr _ _ k). lia.
Qed.

Lemma hash_step_range h c : - 2 ^ 31 ≤ hash_step h c < 2 ^ 31.
Proof. unfold hash_step. cbv zeta. rewrite js_and_diag. apply ToInt32_range. Qed.

Lemma foldl_hash_spec s h : foldl hash_step h s = foldl spec_hash_step h s.
Proof.
  revert h. induction s as [|c s IH]; intros h; simpl; [done|].
  by rewrite hash_step_spec, IH.
Qed.

Lemma foldl_hash_range s h :
  - 2 ^ 31 ≤ h < 2 ^ 31 → - 2 ^ 31 ≤ foldl hash_step h s < 2 ^ 31.
Proof.
  revert h. induction s as [|c s IH]; intros h Hh; simpl; [done|].
  apply IH, hash_step_range.
Qed.

Lemma hashCode_range s : - 2 ^ 31 ≤ hashCode s < 2 ^ 31.
Proof. apply foldl_hash_range. lia. Qed.

Lemma digit_value_digit36 d : 0 ≤ d < 36 → digit_value (digit36 d) = d.
Proof.
  intros Hd. unfold digit_value, digit36.
  destruct (Z.ltb_spec d 10);
    [destruct (Z.ltb_spec (48 + d) 58) | destruct (Z.ltb_spec (87 + d) 58)]; lia.
Qed.

Lemma is_digit36_digit36 d : 0 ≤ d < 36 → is_digit36 (digit36 d) = true.
Proof.
  intros Hd. unfold is_digit36, digit36.
  destruct (Z.ltb_spec d 10); apply orb_true_iff; [left | right];
    apply andb_true_iff; split; apply Z.leb_le; lia.
Qed.

Lemma digits36_app fuel n acc : digits36 fuel n acc = digits36 fuel n [] ++ acc.
Proof.
  revert n acc. induction fuel as [|fuel IH]; intros n acc; simpl; [done|].
  destruct (n <? 36); [done|].
  rewrite (IH _ (_ :: acc)), (IH _ [_]). by rewrite <- app_assoc.
Qed.

Lemma from_base36_snoc s c : from_base36 (s ++ [c]) = from_base36 s * 36 + digit_value c.
Proof. unfold from_base36. by rewrite foldl_app. Qed.

Lemma digits36_value fuel n :
  0 ≤ n < 36 ^ Z.of_nat fuel → from_base36 (digits36 fuel n []) = n.
Proof.
  revert n. induction fuel as [|fuel IH]; intros n Hn.
  - simpl in *. unfold from_base36. simpl. lia.
  - rewrite Nat2Z.inj_succ, Z.pow_succ_r in Hn by lia.
    simpl. destruct (Z.ltb_spec n 36) as [Hlt|Hge].
    + unfold from_base36. simpl. rewrite Z.mod_small by lia.
      rewrite digit_value_digit36; lia.
    + rewrite digits36_app, from_base36_snoc, IH.
      * rewrite digit_value_digit36 by (apply Z.mod_pos_bound; lia).
        Z.div_mod_to_equations; lia.
      * split; [apply Z.div_pos; lia|].
        apply Z.div_lt_upper_bound; lia.
Qed.

Lemma digits36_digits fuel n :
  0 ≤ n → Forall (λ c, is_digit36 c = true) (digits36 fuel n []).
Proof.
  revert n. induction fuel as [|fuel IH]; intros n Hn; simpl; [constructor|].
  assert (is_digit36 (digit36 (n `mod` 36)) = true)
    by (apply is_digit36_digit36, Z.mod_pos_bound; lia).
  destruct (n <? 36); [by repeat constructor|].
  rewrite digits36_app. apply Forall_app; split; [|by repeat constructor].
  apply IH, Z.div_pos; lia.
Qed.

Lemma toString36_fuel n : 0 ≤ n → n < 36 ^ Z.of_nat (S (Z.to_nat (Z.log2 n))).
Proof.
  intros Hn. rewrite Nat2Z.inj_succ, Z2Nat.id by apply Z.log2_nonneg.
  destruct (decide (n = 0)) as [->|]; [done|].
  pose proof (Z.log2_nonneg n).
  apply Z.lt_le_trans with (2 ^ Z.succ (Z.log2 n)).
  - apply Z.log2_spec. lia.
  - apply Z.pow_le_mono_l. lia.
Qed.

(** [toString36] writes its argument: reading the digits back gives it. *)
Lemma from_base36_toString36 n : 0 ≤ n → from_base36 (toString36 n) = n.
Proof.
  intros Hn. unfold toString36. apply digits36_value.
  split; [done|]. by apply toString36_fuel.
Qed.

(** C2: the id of [(title, url)] is the hash of the code units of
    [lowercase(title + url)], folded with [hash = (hash << 5) - hash + charCode]
    wrapped to a signed 32-bit integer at each step, and written in base 36
    from its absolute value; the code's loop body (shift, subtract, add,
    [hash & hash]) is that step, the hash stays within the signed 32-bit
    range, the id is a numeral of digits [0-9a-z] that reads back as the
    absolute value, and equal inputs give equal ids. *)
Theorem generateArticleId_spec `{Host} (title url : jsstring) :
  generateArticleId title url = spec_article_id title url
  ∧ (∀ h c, hash_step h c = wrap32 (h * 2 ^ 5 - h + c))
  ∧ - 2 ^ 31 ≤ hashCode (toLowerCase (title ++ url)) < 2 ^ 31
  ∧ Forall (λ c, is_digit36 c = true) (generateArticleId title url)
  ∧ from_base36 (generateArticleId title url)
    = Z.abs (hashCode (toLowerCase (title ++ url)))
  ∧ (∀ title' url', title' = title → url' = url →
       generateArticleId title' url' = generateArticleId title url).
Proof.
  repeat split.
  - unfold generateArticleId, spec_article_id, hashCode. cbv zeta.
    by rewrite foldl_hash_spec.
  - apply hash_step_spec.
  - apply hashCode_range.
  - apply hashCode_range.
  - apply digits36_digits, Z.abs_nonneg.
  - apply from_base36_toString36, Z.abs_nonneg.
  - by intros ?? -> ->.
Qed.

(** The id of a concrete item, run on the ASCII host. *)
Lemma generateArticleId_spec_witness :
  js "Storm hits coast" = js "Storm hits coast"
  ∧ js "https://example.com/a" = js "https://example.com/a"
  ∧ @generateArticleId ascii_host (js "Storm hits coast") (js "https://example.com/a")
    = js "bbhgdv".
Proof.
  destruct (@generateArticleId_spec ascii_host
              (js "Storm hits coast") (js "https://example.com/a"))
    as (_ & _ & _ & _ & _ & Hdet).
  split; [reflexivity|]. split; [reflexivity|].
  etrans; [exact (Hdet (js "Storm hits coast") (js "https://example.com/a") eq_refl eq_refl)|].
  vm_compute. reflexivity.
Defined.

(** ** Deduplication *)

Section Dedup.
Context `{Host}.

Lemma collapse_from_chars b s :
  Forall (λ c, is_word c || is_space c = true) s →
  Forall (λ c, is_word c || (c =? 32) = true) (collapse_from b s).
Proof.
  intros Hs. revert b. induction Hs as [|c s Hc _ IH]; intros b; simpl; [constructor|].
  destruct (is_space c) eqn:Hsp.
  - destruct b; [apply IH|]. constructor; [|apply IH]. by rewrite orb_true_r.
  - constructor; [|apply IH]. rewrite orb_false_r in Hc. by rewrite Hc.
Qed.

Lemma trimStart_suffix s : trimStart s `suffix_of` s.
Proof.
  induction s as [|c s IH]; simpl; [done|].
  destruct (is_space c); [by apply suffix_cons_r|done].
Qed.

Lemma trimStart_chars (P : Z → Prop) s : Forall P s → Forall P (trimStart s).
Proof.
  intros Hs. destruct (trimStart_suffix s) as [k Hk].
  rewrite Hk in Hs. by apply Forall_app in Hs as [_ ?].
Qed.

Lemma dedupKey_length a : (length (dedupKey a) ≤ 50)%nat.
Proof. unfold dedupKey, substring0. rewrite length_take. lia. Qed.

Lemma dedupKey_chars a : Forall (λ c, is_word c || (c =? 32) = true) (dedupKey a).
Proof.
  unfold dedupKey, substring0, trim, trimEnd, collapse_spaces.
  apply Forall_take, Forall_reverse, trimStart_chars, Forall_reverse, trimStart_chars.
  apply collapse_from_chars, Forall_forall. intros c Hc.
  apply list_elem_of_filter in Hc as [Hc _]. by apply Is_true_true.
Qed.

(** The loop of the code against the specification's wording, from any
    state of [seen] and [unique]. *)
Lemma foldl_dedup_visit seen unique articles :
  (foldl dedup_visit (seen, unique) articles).2
  = unique ++ first_occurrences seen articles.
Proof.
  revert seen unique. induction articles as [|a l IH]; intros seen unique; simpl.
  - by rewrite app_nil_r.
  - unfold dedup_visit at 2. simpl. destruct (decide (dedupKey a ∈ seen)).
    + apply IH.
    + rewrite IH. by rewrite <- app_assoc.
Qed.

Lemma deduplicateArticles_first_occurrences articles :
  deduplicateArticles articles = first_occurrences ∅ articles.
Proof. unfold deduplicateArticles. by rewrite foldl_dedup_visit. Qed.

Lemma first_occurrences_unseen seen articles :
  Forall (λ b, dedupKey b ∉ seen) (first_occurrences seen articles).
Proof.
  revert seen. induction articles as [|a l IH]; intros seen; simpl; [constructor|].
  destruct (decide (dedupKey a ∈ seen)); [apply IH|].
  constructor; [done|].
  eapply Forall_impl; [apply IH|]. intros b Hb Hin. apply Hb, elem_of_union. by right.
Qed.

Lemma filter_all {A} (P : A → Prop) `{∀ x, Decision (P x)} (l : list A) :
  Forall P l → filter P l = l.
Proof.
  induction 1 as [|x l Hx _ IH]; [done|].
  by rewrite filter_cons_True, IH.
Qed.

Lemma first_occurrences_seen k seen articles :
  first_occurrences ({[k]} ∪ seen) articles
  = filter (λ b, dedupKey b ≠ k) (first_occurrences seen articles).
Proof.
  revert seen. induction articles as [|a l IH]; intros seen; simpl; [done|].
  destruct (decide (dedupKey a ∈ seen)) as [Hin|Hnin].
  - rewrite decide_True by (apply elem_of_union; by right). apply IH.
  - destruct (decide (dedupKey a = k)) as [Heq|Hne].
    + rewrite decide_True by (apply elem_of_union; left; by apply elem_of_singleton).
      rewrite filter_cons_False by (intros ?; done).
      subst k. symmetry. apply filter_all.
      eapply Forall_impl; [apply first_occurrences_unseen|].
      intros b Hb Heq. apply Hb, elem_of_union. left. by apply elem_of_singleton.
    + rewrite decide_False
        by (intros [Hk%elem_of_singleton|Hs]%elem_of_union; done).
      rewrite filter_cons_True by done. f_equal.
      rewrite <- IH. f_equal.
      rewrite !(assoc_L (∪)). by rewrite (comm_L (∪) {[dedupKey a]} {[k]}).
Qed.

(** The first article is kept, and of the rest exactly those with its
    key are dropped. *)
Lemma deduplicateArticles_cons a l :
  deduplicateArticles (a :: l)
  = a :: filter (λ b, dedupKey b ≠ dedupKey a) (deduplicateArticles l).
Proof.
  rewrite !deduplicateArticles_first_occurrences. simpl.
  rewrite decide_False by apply not_elem_of_empty.
  rewrite <- first_occurrences_seen. done.
Qed.

Lemma deduplicateArticles_sublist l : deduplicateArticles l `sublist_of` l.
Proof.
  induction l as [|a l IH]; [done|].
  rewrite deduplicateArticles_cons. apply sublist_skip.
  etrans; [apply sublist_filter|done].
Qed.

Lemma deduplicateArticles_NoDup l : NoDup (dedupKey <$> deduplicateArticles l).
Proof.
  induction l as [|a l IH]; [constructor|].
  rewrite deduplicateArticles_cons, fmap_cons. constructor.
  - intros (b & Hk & Hb)%list_elem_of_fmap.
    apply list_elem_of_filter in Hb as [Hb _]. congruence.
  - apply (sublist_NoDup _ (dedupKey <$> deduplicateArticles l)); [exact IH|].
    apply fmap_sublist, sublist_filter.
Qed.

(** Every key of the input is the key of a kept article. *)
Lemma deduplicateArticles_covers l a :
  a ∈ l → ∃ b, b ∈ deduplicateArticles l ∧ dedupKey b = dedupKey a.
Proof.
  induction l as [|c l IH]; [by intros ?%elem_of_nil|].
  rewrite deduplicateArticles_cons. intros [->|Ha]%elem_of_cons.
  - exists c. split; [left|done].
  - destruct (decide (dedupKey a = dedupKey c)) as [Heq|Hne].
    + exists c. split; [left|done].
    + destruct (IH Ha) as (b & Hb & Hk). exists b. split; [|done].
      right. apply list_elem_of_filter. split; [congruence|done].
Qed.

(** A list whose keys are pairwise distinct is left as it is. *)
Lemma deduplicateArticles_id l :
  NoDup (dedupKey <$> l) → deduplicateArticles l = l.
Proof.
  induction l as [|a l IH]; [done|].
  rewrite fmap_cons. intros [Hnin Hnd]%NoDup_cons.
  rewrite deduplicateArticles_cons, IH by done. f_equal.
  apply filter_all, Forall_forall. intros b Hb Heq.
  apply Hnin, list_elem_of_fmap. eauto.
Qed.

(** C3: the dedup key of an article is its lower-cased title with the
    code units that are neither word characters nor white space removed,
    white-space runs collapsed, trimmed and cut to 50 code units; the
    first article of the list is kept and exactly the later articles with
    its key are dropped, and so on down the list, so the result keeps the
    input order, represents every key of the input, and holds no two
    articles with the same key. *)
Theorem deduplicateArticles_spec (articles : list Article) :
  (∀ a, dedupKey a
        = take 50 (trim (collapse_spaces
            (filter (λ c, is_word c || is_space c) (toLowerCase (title a)))))
        ∧ (length (dedupKey a) ≤ 50)%nat
        ∧ Forall (λ c, is_word c || (c =? 32) = true) (dedupKey a))
  ∧ deduplicateArticles articles = first_occurrences ∅ articles
  ∧ deduplicateArticles [] = []
  ∧ (∀ a l, deduplicateArticles (a :: l)
            = a :: filter (λ b, dedupKey b ≠ dedupKey a) (deduplicateArticles l))
  ∧ deduplicateArticles articles `sublist_of` articles
  ∧ (∀ a, a ∈ articles →
          ∃ b, b ∈ deduplicateArticles articles ∧ dedupKey b = dedupKey a)
  ∧ NoDup (dedupKey <$> deduplicateArticles articles)
  ∧ (∀ i j a b, deduplicateArticles articles !! i = Some a →
                deduplicateArticles articles !! j = Some b →
                dedupKey a = dedupKey b → i = j).
Proof.
  split; [intros a; split; [done|split; [apply dedupKey_length|apply dedupKey_chars]]|].
  split; [apply deduplicateArticles_first_occurrences|].
  split; [done|].
  split; [apply deduplicateArticles_cons|].
  split; [apply deduplicateArticles_sublist|].
  split; [apply deduplicateArticles_covers|].
  split; [apply deduplicateArticles_NoDup|].
  intros i j a b Ha Hb Hk.
  eapply NoDup_lookup; [apply deduplicateArticles_NoDup| |].
  - rewrite list_lookup_fmap, Ha. done.
  - rewrite list_lookup_fmap, Hb. simpl. by rewrite Hk.
Qed.
End Dedup.

(** The scenario of the specification: the same headline with and without
    trailing punctuation; the one that came first survives. *)
Lemma deduplicateArticles_spec_witness :
  let a1 := sample_article "Storm hits coast!" 10 in
  let a2 := sample_article "storm  hits coast" 20 in
  let a3 := sample_article "Markets rally" 30 in
  @deduplicateArticles ascii_host [a1; a2; a3] = [a1; a3]
  ∧ a2 ∈ [a1; a2; a3]
  ∧ ∃ b, b ∈ @deduplicateArticles ascii_host [a1; a2; a3]
         ∧ @dedupKey ascii_host b = @dedupKey ascii_host a2.
Proof.
  intros a1 a2 a3.
  destruct (@deduplicateArticles_spec ascii_host [a1; a2; a3])
    as (_ & _ & _ & _ & _ & Hcover & _).
  split; [vm_compute; reflexivity|].
  assert (a2 ∈ [a1; a2; a3]) as Hin by (right; left).
  split; [exact Hin|]. exact (Hcover a2 Hin).
Defined.

(** The key is a similarity heuristic: titles that agree on the first 50
    code units of the normalised text share a key, and a title without
    word characters has the empty key. *)
Example dedupKey_heuristic :
  @dedupKey ascii_host
    (sample_article "Storm hits coast as thousands flee the rising flood waters" 0)
  = @dedupKey ascii_host
      (sample_article "Storm hits coast as thousands flee the rising flood - live" 0)
  ∧ @dedupKey ascii_host
      {| article_id := []; title := [39118; 26292; 34989; 20987]; summary := [];
         url := None; imageUrl := None; publishedAt := 0;
         source := {| info_id := []; info_name := []; info_verified := false;
                      info_isCustom := true |};
         category := []; loadedAt := 0 |} = [].
Proof. split; vm_compute; reflexivity. Qed.

(** ** Sorting *)

Section SortFacts.
Context {A : Type} (key : A → Z) (compare : A → A → Z).
Hypothesis compare_key : ∀ a b, 0 < compare a b ↔ key a < key b.

Lemma sort_insert_perm x l : sort_insert compare x l ≡ₚ x :: l.
Proof.
  induction l as [|y l IH]; simpl; [done|].
  destruct (0 <? compare x y); [|done].
  rewrite IH. apply Permutation_swap.
Qed.

Lemma sort_perm l : sort compare l ≡ₚ l.
Proof.
  induction l as [|x l IH]; simpl; [done|].
  by rewrite sort_insert_perm, IH.
Qed.

Lemma sort_insert_HdRel a x l :
  key x ≤ key a → HdRel (descending key) a l → HdRel (descending key) a (sort_insert compare x l).
Proof.
  intros Hx Hl. destruct l as [|y l]; simpl; [by constructor|].
  destruct (0 <? compare x y); [|by constructor].
  inversion Hl; by constructor.
Qed.

Lemma sort_insert_Sorted x l : Sorted (descending key) l → Sorted (descending key) (sort_insert compare x l).
Proof.
  induction 1 as [|y l Hl IH Hhd]; simpl; [by repeat constructor|].
  destruct (Z.ltb_spec 0 (compare x y)) as [Hlt|Hge].
  - apply compare_key in Hlt. constructor; [done|].
    apply sort_insert_HdRel; [lia|done].
  - constructor; [by constructor|]. constructor. unfold descending.
    destruct (decide (key x < key y)) as [Hxy|]; [|lia].
    apply compare_key in Hxy. lia.
Qed.

Lemma sort_Sorted l : Sorted (descending key) (sort compare l).
Proof. induction l; simpl; [constructor|by apply sort_insert_Sorted]. Qed.

(** Stability: the elements of any one key keep their input order. *)
Lemma sort_insert_stable t x l :
  filter (λ a, key a = t) (sort_insert compare x l)
  = filter (λ a, key a = t) (x :: l).
Proof.
  induction l as [|y l IH]; simpl; [done|].
  destruct (Z.ltb_spec 0 (compare x y)) as [Hlt|Hge]; [|done].
  apply compare_key in Hlt.
  rewrite (filter_cons _ y), IH, !filter_cons.
  destruct (decide (key x = t)), (decide (key y = t)); try done. lia.
Qed.

Lemma sort_stable t l :
  filter (λ a, key a = t) (sort compare l) = filter (λ a, key a = t) l.
Proof.
  induction l as [|x l IH]; simpl; [done|].
  rewrite sort_insert_stable, !filter_cons, IH. done.
Qed.

(** A sorted list is left as it is. *)
Lemma sort_id l : Sorted (descending key) l → sort compare l = l.
Proof.
  induction 1 as [|x l Hl IH Hhd]; simpl; [done|].
  rewrite IH. destruct Hhd as [|y l Hxy]; simpl; [done|].
  destruct (Z.ltb_spec 0 (compare x y)) as [Hlt|Hge]; [|done].
  apply compare_key in Hlt. unfold descending in Hxy. lia.
Qed.

Lemma Sorted_take n l : Sorted (descending key) l → Sorted (descending key) (take n l).
Proof.
  intros Hl. revert n. induction Hl as [|x l Hl IH Hhd]; intros [|n]; simpl;
    try constructor; [apply IH|].
  destruct Hhd; destruct n; simpl; by constructor.
Qed.

Lemma Sorted_adjacent l i a b :
  Sorted (descending key) l → l !! i = Some a → l !! S i = Some b → key b ≤ key a.
Proof.
  intros Hl. revert i. induction Hl as [|x l Hl IH Hhd]; intros i Ha Hb; [done|].
  destruct i as [|i]; simpl in *.
  - injection Ha as ->. destruct Hhd as [|y l Hxy]; [done|].
    simpl in Hb. injection Hb as ->. exact Hxy.
  - by apply (IH i).
Qed.
End SortFacts.

(** ** The aggregate: sort, cap, idempotence *)

Section AggregateFacts.
Context `{Host}.

Lemma byNewest_key a b : 0 < byNewest a b ↔ publishedAt a < publishedAt b.
Proof. unfold byNewest. lia. Qed.

Lemma filter_sublist_mono {A} (P : A → Prop) `{∀ x, Decision (P x)} (l k : list A) :
  l `sublist_of` k → filter P l `sublist_of` filter P k.
Proof.
  induction 1 as [|x l k _ IH|x l k _ IH]; [done| |].
  - rewrite !filter_cons. destruct (decide (P x)); [by apply sublist_skip|done].
  - rewrite filter_cons. destruct (decide (P x)); [by apply sublist_cons|done].
Qed.

Lemma filter_take_prefix {A} (P : A → Prop) `{∀ x, Decision (P x)} n (l : list A) :
  filter P (take n l) `prefix_of` filter P l.
Proof.
  exists (filter P (drop n l)). by rewrite <- filter_app, take_drop.
Qed.

Lemma aggregate_Sorted l :
  Sorted (descending publishedAt) (aggregate l).
Proof.
  unfold aggregate. cbv zeta.
  apply (Sorted_take publishedAt), (sort_Sorted publishedAt), byNewest_key.
Qed.

Lemma aggregate_NoDup l : NoDup (dedupKey <$> aggregate l).
Proof.
  unfold aggregate. cbv zeta.
  apply (sublist_NoDup _ (dedupKey <$> sort byNewest (deduplicateArticles l))).
  - rewrite (sort_perm byNewest). apply deduplicateArticles_NoDup.
  - apply fmap_sublist, sublist_take.
Qed.

Lemma aggregate_length l : (length (aggregate l) ≤ maxArticles)%nat.
Proof. unfold aggregate. cbv zeta. rewrite length_take. lia. Qed.

(** C4: whatever was loaded, the list [processAllArticles] stores has at
    most [maxArticles] entries, and that constant is 100 (the header
    comment of the file says 50). *)
Theorem aggregate_cap (allArticles : list Article) (app : App) :
  (length (aggregate allArticles) ≤ maxArticles)%nat
  ∧ maxArticles = 100%nat
  ∧ (length (articles (processAllArticles app)) ≤ 100)%nat.
Proof.
  split; [apply aggregate_length|]. split; [done|].
  unfold processAllArticles. simpl. apply aggregate_length.
Qed.

(** C5: the aggregated list is in non-increasing order of [publishedAt],
    and the sort is stable: the sorted list is a rearrangement of the
    deduplicated one in which the articles of any one instant keep
    their order, so those that survive the cap are, in input order, the
    first of their instant. *)
Theorem aggregate_sorted_stable (allArticles : list Article) :
  newest_first (aggregate allArticles)
  ∧ sort byNewest (deduplicateArticles allArticles) ≡ₚ deduplicateArticles allArticles
  ∧ (∀ t, published_at t (sort byNewest (deduplicateArticles allArticles))
          = published_at t (deduplicateArticles allArticles))
  ∧ (∀ t, published_at t (aggregate allArticles)
          `prefix_of` published_at t (deduplicateArticles allArticles))
  ∧ (∀ t, published_at t (aggregate allArticles)
          `sublist_of` published_at t allArticles).
Proof.
  assert (∀ t, published_at t (aggregate allArticles)
               `prefix_of` published_at t (deduplicateArticles allArticles)) as Hpre.
  { intros t. unfold published_at, aggregate. cbv zeta.
    rewrite <- (sort_stable publishedAt byNewest byNewest_key t
                  (deduplicateArticles allArticles)).
    apply filter_take_prefix. }
  split; [|split; [|split; [|split]]].
  - intros i a b Ha Hb.
    by apply (Sorted_adjacent publishedAt _ i a b (aggregate_Sorted allArticles)).
  - apply sort_perm.
  - intros t. apply (sort_stable publishedAt), byNewest_key.
  - exact Hpre.
  - intros t. transitivity (published_at t (deduplicateArticles allArticles)).
    + destruct (Hpre t) as [k Hk]. rewrite Hk. by apply sublist_inserts_r.
    + apply filter_sublist_mono, deduplicateArticles_sublist.
Qed.

(** C6: aggregating an aggregated list changes nothing: its keys are
    pairwise distinct, it is sorted, and it is within the cap. *)
Theorem aggregate_idempotent (allArticles : list Article) :
  aggregate (aggregate allArticles) = aggregate allArticles.
Proof.
  unfold aggregate at 1. cbv zeta.
  rewrite (deduplicateArticles_id (aggregate allArticles)) by apply aggregate_NoDup.
  rewrite (sort_id publishedAt byNewest byNewest_key) by apply aggregate_Sorted.
  apply take_ge, aggregate_length.
Qed.
End AggregateFacts.

(** The cap is reached, past 50: of 120 distinct articles, 100 remain, the
    newest first. *)
Example aggregate_cap_reached :
  length (@aggregate ascii_host (numbered_articles 120)) = 100%nat
  ∧ publishedAt <$> take 3 (@aggregate ascii_host (numbered_articles 120))
    = [119; 118; 117].
Proof. split; vm_compute; reflexivity. Qed.

(** Two articles of the same instant stay in input order around a newer
    one. *)
Lemma aggregate_sorted_stable_witness :
  let a1 := sample_article "First" 10 in
  let a2 := sample_article "Second" 30 in
  let a3 := sample_article "Third" 10 in
  @aggregate ascii_host [a1; a2; a3] = [a2; a1; a3]
  ∧ publishedAt a1 ≤ publishedAt a2.
Proof.
  intros a1 a2 a3.
  destruct (@aggregate_sorted_stable ascii_host [a1; a2; a3]) as (Hsorted & _).
  split; [vm_compute; reflexivity|].
  apply (Hsorted 0%nat a2 a1); vm_compute; reflexivity.
Defined.

(** ** The feed parser and the per-source caps *)

Section ParserFacts.
Context `{Host}.

Lemma forEach_items_take now src index items acc :
  forEach_items now src index items acc
  = acc ++ omap (λ item, extractArticleFromItem now item src) (take (10 - index) items).
Proof.
  revert index acc. induction items as [|item items IH]; intros index acc; simpl.
  - by rewrite take_nil, app_nil_r.
  - rewrite IH. unfold visit_item.
    destruct (Z.ltb_spec (Z.of_nat index) 10) as [Hlt|Hge].
    + replace (10 - index)%nat with (S (10 - S index)) by lia. simpl.
      destruct (extractArticleFromItem now item src); [|done].
      by rewrite <- app_assoc.
    + replace (10 - index)%nat with 0%nat by lia.
      replace (10 - S index)%nat with 0%nat by lia. done.
Qed.

Lemma omap_length_le {A B} (f : A → option B) (l : list A) :
  (length (omap f l) ≤ length l)%nat.
Proof. induction l as [|x l IH]; csimpl; [done|]. destruct (f x); csimpl; lia. Qed.

Lemma parseRSSFeed_Feed now src items :
  parseRSSFeed now (Feed items) src
  = omap (λ item, extractArticleFromItem now item src) (take 10 items).
Proof. unfold parseRSSFeed. by rewrite forEach_items_take. Qed.

Lemma set_allArticles_nil app : set_allArticles (allArticles app ++ []) app = app.
Proof. destruct app. unfold set_allArticles. simpl. by rewrite app_nil_r. Qed.

(** What one settled task does to the state: its contribution is
    appended, the counter moves by one, and it completes normally. *)
Lemma loadSingleSource_effect now src outcome app :
  ∃ result,
    loadSingleSource now src outcome app
    = (set_loadedSources (loadedSources app + 1)
         (set_allArticles (allArticles app ++ contribution (mkJob src outcome now)) app),
       Normal result).
Proof.
  unfold contribution. simpl.
  destruct outcome as [reason|[|] [xmlDoc|]];
    try (exists []; unfold loadSingleSource, try_catch, bind, throw, ret, count_loaded,
           modify; simpl; by rewrite set_allArticles_nil).
  exists (parseRSSFeed now xmlDoc src).
  unfold loadSingleSource, try_catch, bind, throw, ret, count_loaded, modify. simpl.
  destruct (Z.ltb_spec 0 (Z.of_nat (length (parseRSSFeed now xmlDoc src)))) as [Hpos|Hz].
  - done.
  - destruct (parseRSSFeed now xmlDoc src); [|simpl in Hz; lia].
    simpl. by rewrite set_allArticles_nil.
Qed.

Lemma contribution_length j : (length (contribution j) ≤ maxArticlesPerSource)%nat.
Proof.
  unfold contribution. destruct (j_outcome j) as [|[|] [|]]; simpl; try lia.
  rewrite length_take. lia.
Qed.

(** C8: of a feed document only the first 10 [item] elements are given
    to the extraction, whatever follows them; the articles extracted
    from those 10 are cut to the first 5 ([maxArticlesPerSource]), in
    document order, and that is what the source adds to [allArticles]. *)
Theorem parseRSSFeed_two_stage_cap (now : Z) (src : ActiveSource)
    (items : list Item) (app : App) :
  let extracted := omap (λ item, extractArticleFromItem now item src) (take 10 items) in
  parseRSSFeed now (Feed items) src = extracted
  ∧ parseRSSFeed now (Feed items) src = parseRSSFeed now (Feed (take 10 items)) src
  ∧ (length extracted ≤ 10)%nat
  ∧ maxArticlesPerSource = 5%nat
  ∧ contribution (mkJob src (Responded true (Some (Feed items))) now) = take 5 extracted
  ∧ allArticles (loadSingleSource now src (Responded true (Some (Feed items))) app).1
    = allArticles app ++ take 5 extracted
  ∧ (length (take 5 extracted) ≤ 5)%nat.
Proof.
  intros extracted.
  split; [apply parseRSSFeed_Feed|].
  split; [by rewrite !parseRSSFeed_Feed, take_take|].
  split.
  { unfold extracted. etrans; [apply omap_length_le|]. rewrite length_take. lia. }
  split; [done|].
  split; [unfold contribution; simpl; by rewrite parseRSSFeed_Feed|].
  split.
  - destruct (loadSingleSource_effect now src (Responded true (Some (Feed items))) app)
      as [result ->].
    unfold contribution. simpl. by rewrite parseRSSFeed_Feed.
  - rewrite length_take. lia.
Qed.

Lemma sanitizeUrl_cases link :
  (parseURL link = None → sanitizeUrl link = None)
  ∧ (∀ u, parseURL link = Some u →
          protocol u ≠ js "https:" → protocol u ≠ js "http:" →
          sanitizeUrl link = None)
  ∧ (∀ u, parseURL link = Some u →
          protocol u = js "https:" ∨ protocol u = js "http:" →
          sanitizeUrl link = Some (href u)).
Proof.
  unfold sanitizeUrl. split; [by intros ->|]. split.
  - intros u -> Hs Hp. by rewrite !bool_decide_eq_false_2.
  - intros u -> [Hs|Hp].
    + by rewrite (bool_decide_eq_true_2 _ Hs).
    + rewrite (bool_decide_eq_true_2 _ Hp). by rewrite orb_true_r.
Qed.

(** C9: an item with a title and a link (or, failing the link, a guid)
    always yields an article, whose [url] is whatever [sanitizeUrl]
    makes of the link: [null] when the link does not parse as a URL or
    has a scheme other than http and https, the serialised URL
    otherwise. A [null] url does not discard the article. *)
Theorem extractArticleFromItem_keeps_null_url (now : Z) (item : Item)
    (src : ActiveSource) :
  let title := getElementText (el_title item) in
  let link := or_else (getElementText (el_link item)) (getElementText (el_guid item)) in
  truthy title = true → truthy link = true →
  ∃ article,
    extractArticleFromItem now item src = Some article
    ∧ url article = sanitizeUrl link
    ∧ (parseURL link = None → url article = None)
    ∧ (∀ u, parseURL link = Some u →
            protocol u ≠ js "https:" → protocol u ≠ js "http:" →
            url article = None)
    ∧ (∀ u, parseURL link = Some u →
            protocol u = js "https:" ∨ protocol u = js "http:" →
            url article = Some (href u)).
Proof.
  intros title link Htitle Hlink.
  unfold extractArticleFromItem. fold title. fold link.
  rewrite Htitle, Hlink. simpl.
  eexists. split; [reflexivity|]. simpl.
  split; [done|]. apply sanitizeUrl_cases.
Qed.
End ParserFacts.

(** A feed of 12 items whose first two have no title: items 3 to 7 are
    contributed, items 11 and 12 are never read. *)
Example twelve_items :
  let items := sample_item "" "https://example.com/0" "1"
               :: sample_item "" "https://example.com/1" "2"
               :: ((λ i, sample_item "Headline" "https://example.com/n" "3") <$> seq 0 10) in
  length items = 12%nat
  ∧ length (@parseRSSFeed ascii_host 0 (Feed items) sample_source) = 8%nat
  ∧ length (@contribution ascii_host
              (mkJob sample_source (Responded true (Some (Feed items))) 0)) = 5%nat.
Proof. repeat split; vm_compute; reflexivity. Qed.

(** An item whose link is a script URL: the article is built, its url is
    [null]. *)
Lemma extractArticleFromItem_keeps_null_url_witness :
  let item := sample_item "Storm hits coast" "javascript:alert(1)" "1700000000000" in
  ∃ article,
    @extractArticleFromItem ascii_host 5 item sample_source = Some article
    ∧ url article = None
    ∧ title article = js "Storm hits coast".
Proof.
  intros item.
  destruct (@extractArticleFromItem_keeps_null_url ascii_host 5 item sample_source)
    as (article & Hsome & Hurl & _); [reflexivity|reflexivity|].
  exists article. split; [exact Hsome|]. split.
  - rewrite Hurl. vm_compute. reflexivity.
  - vm_compute in Hsome. injection Hsome as <-. reflexivity.
Defined.

(** ** Admission control of the manual refresh *)

Section RefreshFacts.
Context `{Host}.

Lemma ceil_div_1000 x : (ceil_div x 1000 - 1) * 1000 < x ≤ ceil_div x 1000 * 1000.
Proof. unfold ceil_div. Z.div_mod_to_equations. lia. Qed.

Lemma startProgressiveLoading_dispatched jobs app :
  isLoading app = false →
  dispatched (Refreshing (startProgressiveLoading jobs app)) = jobs.
Proof.
  intros Hidle. unfold startProgressiveLoading. rewrite Hidle. simpl.
  destruct jobs as [|j jobs]; simpl; [done|].
  destruct (Z.eqb_spec (Z.of_nat (S (length jobs))) 0) as [Hz|_]; [lia|].
  simpl. by rewrite drop_0.
Qed.

Lemma startProgressiveLoading_lastFetchTime jobs app :
  lastFetchTime (app_after (Refreshing (startProgressiveLoading jobs app)))
  = lastFetchTime app.
Proof.
  unfold startProgressiveLoading. destruct (isLoading app); [done|]. simpl.
  by destruct (Z.of_nat (length jobs) =? 0).
Qed.

(** C7: a manual refresh asked less than 30000 ms after the last one
    that passed this check is turned away: the state is untouched, no
    task is dispatched, hence no request is issued, and the notice
    carries the remaining time in whole seconds, rounded up. Otherwise
    the time of the call is recorded and the loader is started, which
    when idle dispatches one task per active source. *)
Theorem refreshNews_rate_limit (now : Z) (jobs : list Job) (app : App) :
  minFetchInterval = 30000
  ∧ (now - lastFetchTime app < minFetchInterval →
       let remaining := minFetchInterval - (now - lastFetchTime app) in
       let wait := ceil_div remaining 1000 in
       refreshNews now jobs app = RateLimited wait app
       ∧ (wait - 1) * 1000 < remaining ≤ wait * 1000
       ∧ 1 ≤ wait
       ∧ dispatched (refreshNews now jobs app) = []
       ∧ app_after (refreshNews now jobs app) = app)
  ∧ (minFetchInterval ≤ now - lastFetchTime app →
       refreshNews now jobs app
       = Refreshing (startProgressiveLoading jobs (set_lastFetchTime now app))
       ∧ (isLoading app = false → dispatched (refreshNews now jobs app) = jobs)).
Proof.
  split; [done|]. split.
  - intros Hsoon remaining wait. unfold refreshNews.
    destruct (Z.ltb_spec (now - lastFetchTime app) minFetchInterval) as [_|]; [|lia].
    cbv zeta. fold remaining. fold wait. simpl.
    pose proof (ceil_div_1000 remaining) as Hceil. fold wait in Hceil.
    assert (0 < remaining) by (unfold remaining; lia).
    repeat split; try done; lia.
  - intros Hlate. unfold refreshNews.
    destruct (Z.ltb_spec (now - lastFetchTime app) minFetchInterval) as [|_]; [lia|].
    cbv zeta. split; [done|]. intros Hidle.
    by apply startProgressiveLoading_dispatched.
Qed.

(** C10: a manual refresh that passes the interval check records its
    time before the loader looks at [isLoading]. If a load is in
    progress the loader returns at once, nothing is dispatched and
    nothing but [lastFetchTime] changes, yet any refresh asked within
    the next 30000 ms is turned away. *)
Theorem refreshNews_busy_restarts_window (now : Z) (jobs : list Job) (app : App) :
  minFetchInterval ≤ now - lastFetchTime app →
  lastFetchTime (app_after (refreshNews now jobs app)) = now
  ∧ (isLoading app = true →
       refreshNews now jobs app
       = Refreshing (Returned AlreadyInProgress (set_lastFetchTime now app))
       ∧ dispatched (refreshNews now jobs app) = []
       ∧ (∀ now' jobs', now' - now < minFetchInterval →
            refreshNews now' jobs' (app_after (refreshNews now jobs app))
            = RateLimited (ceil_div (minFetchInterval - (now' - now)) 1000)
                (set_lastFetchTime now app))).
Proof.
  intros Hlate.
  assert (refreshNews now jobs app
          = Refreshing (startProgressiveLoading jobs (set_lastFetchTime now app))) as Hrun.
  { unfold refreshNews.
    by destruct (Z.ltb_spec (now - lastFetchTime app) minFetchInterval) as [|_]; [lia|]. }
  split.
  - by rewrite Hrun, startProgressiveLoading_lastFetchTime.
  - intros Hbusy. rewrite Hrun. unfold startProgressiveLoading. simpl.
    rewrite Hbusy. split; [done|]. split; [done|].
    intros now' jobs' Hsoon. unfold refreshNews. simpl.
    by destruct (Z.ltb_spec (now' - now) minFetchInterval) as [_|]; [|lia].
Qed.
End RefreshFacts.

(** The scenario of the specification: a refresh asked 10 s after the
    previous one is turned away with 20 s to wait. *)
Lemma refreshNews_rate_limit_witness :
  let app := set_lastFetchTime 1700000000000 initialApp in
  let jobs := [mkJob sample_source (FetchRejected []) 0] in
  1700000010000 - lastFetchTime app < minFetchInterval
  ∧ refreshNews 1700000010000 jobs app = RateLimited 20 app
  ∧ dispatched (refreshNews 1700000010000 jobs app) = [].
Proof.
  intros app jobs.
  assert (1700000010000 - lastFetchTime app < minFetchInterval) as Hsoon
    by (vm_compute; reflexivity).
  destruct (refreshNews_rate_limit 1700000010000 jobs app)
    as (_ & Hlimited & _).
  destruct (Hlimited Hsoon) as (Hr & _ & _ & Hnone & _).
  split; [exact Hsoon|]. split; [|exact Hnone].
  rewrite Hr. vm_compute. reflexivity.
Defined.

(** A refresh asked while the first load is still running, then another
    one 10 s later. *)
Lemma refreshNews_busy_restarts_window_witness :
  let app := set_isLoading true initialApp in
  let jobs := [mkJob sample_source (FetchRejected []) 0] in
  minFetchInterval ≤ 1700000000000 - lastFetchTime app
  ∧ lastFetchTime (app_after (refreshNews 1700000000000 jobs app))
    = 1700000000000
  ∧ dispatched (refreshNews 1700000000000 jobs app) = [].
Proof.
  intros app jobs.
  assert (minFetchInterval ≤ 1700000000000 - lastFetchTime app) as Hlate
    by (vm_compute; discriminate).
  destruct (refreshNews_busy_restarts_window 1700000000000 jobs app Hlate)
    as (Htime & Hbusy).
  destruct (Hbusy eq_refl) as (_ & Hnone & _).
  split; [exact Hlate|]. split; [exact Htime|exact Hnone].
Defined.

(** ** Failure isolation of the refresh *)

Section SchedulerFacts.
Context `{Host}.

Lemma steps_head st1 st2 st3 : step st1 st2 → steps st2 st3 → steps st1 st3.
Proof.
  intros H12 H23. induction H23 as [st|st2 st3 st4 _ IH H34].
  - eapply steps_step; [apply steps_refl|done].
  - eapply steps_step; [by apply IH|done].
Qed.

Lemma loadSingleSource_normal now src outcome app :
  ∃ result, (loadSingleSource now src outcome app).2 = Normal result.
Proof.
  destruct (loadSingleSource_effect now src outcome app) as [result ->]. by exists result.
Qed.

Lemma loadSingleSource_state j app :
  (loadSingleSource (j_now j) (j_source j) (j_outcome j) app).1
  = set_loadedSources (loadedSources app + 1)
      (set_allArticles (allArticles app ++ contribution j) app).
Proof.
  destruct (loadSingleSource_effect (j_now j) (j_source j) (j_outcome j) app)
    as [result ->]. by destruct j.
Qed.

Lemma failed_contribution j : failed j = true → contribution j = [].
Proof.
  unfold failed, contribution.
  by destruct (j_outcome j) as [|[|] [[|]|]].
Qed.

(** While a load is in progress a manual refresh dispatches nothing. *)
Lemma refreshNews_busy now jobs app :
  isLoading app = true →
  dispatched (refreshNews now jobs app) = []
  ∧ isLoading (app_after (refreshNews now jobs app)) = true
  ∧ articles (app_after (refreshNews now jobs app)) = articles app
  ∧ allArticles (app_after (refreshNews now jobs app)) = allArticles app
  ∧ loadedSources (app_after (refreshNews now jobs app)) = loadedSources app.
Proof.
  intros Hbusy. unfold refreshNews.
  destruct (now - lastFetchTime app <? minFetchInterval); [done|].
  unfold startProgressiveLoading. simpl. by rewrite Hbusy.
Qed.

Lemma refreshNews_same now jobs app :
  dispatched (refreshNews now jobs app) = [] →
  isLoading app = true →
  isLoading (app_after (refreshNews now jobs app)) = true
  ∧ articles (app_after (refreshNews now jobs app)) = articles app
  ∧ allArticles (app_after (refreshNews now jobs app)) = allArticles app
  ∧ loadedSources (app_after (refreshNews now jobs app)) = loadedSources app.
Proof. intros _ Hbusy. by apply refreshNews_busy. Qed.

Lemma startProgressiveLoading_invariant jobs app0 :
  isLoading app0 = false →
  stage_invariant jobs app0 (startProgressiveLoading jobs app0).
Proof.
  intros Hidle. unfold startProgressiveLoading. rewrite Hidle. simpl.
  destruct jobs as [|j jobs]; simpl; [done|].
  destruct (Z.eqb_spec (Z.of_nat (S (length jobs))) 0) as [Hz|_]; [lia|].
  simpl. unfold loading_invariant. simpl. rewrite drop_0.
  repeat split; done.
Qed.

Lemma step_invariant jobs app0 st st' :
  stage_invariant jobs app0 st → step st st' → stage_invariant jobs app0 st'.
Proof.
  intros Hinv Hstep.
  destruct Hstep as [l d1 j d2 Hd|l f1 j f2 Hf r|l now jobs' r Hr Hnone|l now Hd Hf];
    simpl in *; destruct Hinv as (Hbusy & Hold & Hok & Hall & Hcount & Hperm & Hreq).
  - unfold loading_invariant. simpl. repeat split; try done.
    + rewrite <- Hperm, Hd. rewrite <- !app_assoc. simpl.
      apply Permutation_app_head, Permutation_app_head.
      apply Permutation_middle.
    + rewrite Hreq, !fmap_app. simpl. by rewrite <- !app_assoc.
  - unfold loading_invariant. simpl.
    subst r. rewrite loadSingleSource_state. simpl.
    repeat split; try done.
    + apply Forall_app. split; [done|]. constructor; [|constructor]. simpl.
      apply loadSingleSource_normal.
    + rewrite !fmap_app, concat_app. simpl. by rewrite Hall, app_nil_r.
    + rewrite length_app. simpl. lia.
    + rewrite <- Hperm, Hf, fmap_app. simpl. rewrite <- !app_assoc. simpl.
      apply Permutation_app_head, Permutation_middle.
    + rewrite Hreq, Hf. apply fmap_Permutation.
      rewrite fmap_app. simpl. rewrite <- app_assoc. simpl.
      apply Permutation_app_head. symmetry. apply Permutation_middle.
  - subst r. destruct (refreshNews_same now jobs' (l_app l) Hnone Hbusy)
      as (Hbusy' & Hold' & Hall' & Hcount').
    unfold loading_invariant. simpl.
    rewrite Hbusy', Hold', Hall', Hcount'. done.
  - unfold returned_invariant, finishLoading, processAllArticles. simpl.
    split; [done|]. exists (settled l).*1.
    rewrite Hd, Hf, !app_nil_r in Hperm.
    repeat split; try done.
    rewrite Hcount. f_equal. by rewrite <- Hperm, length_fmap.
Qed.

Lemma steps_invariant jobs app0 st st' :
  stage_invariant jobs app0 st → steps st st' → stage_invariant jobs app0 st'.
Proof.
  intros Hinv Hsteps. induction Hsteps as [|st1 st2 st3 _ IH Hstep]; [done|].
  eapply step_invariant; [by apply IH|done].
Qed.

(** The loader can always run to its end: no task blocks another. *)
Lemma steps_drain_delayed now d l :
  delayed l = d → inflight l = [] →
  steps (Waiting l) (Returned Completed (run_to_end now l)).
Proof.
  revert l. induction d as [|j d IH]; intros l Hd Hf.
  - eapply steps_head; [by apply (step_join l now)|].
    unfold run_to_end. rewrite Hd, Hf. simpl. apply steps_refl.
  - eapply steps_head; [by apply (step_issue l [] j d)|].
    eapply steps_head; [apply (step_settle _ [] j []); simpl; by rewrite Hf|].
    simpl. unfold run_to_end. rewrite Hd, Hf. simpl.
    apply (IH {| l_app := _; delayed := d; inflight := []; settled := _;
                 requests := _ |}); done.
Qed.

Lemma steps_run_to_end now l :
  steps (Waiting l) (Returned Completed (run_to_end now l)).
Proof.
  remember (inflight l) as f eqn:Hf. symmetry in Hf.
  revert l Hf. induction f as [|j f IH]; intros l Hf.
  - by eapply steps_drain_delayed.
  - eapply steps_head; [by apply (step_settle l [] j f)|].
    simpl. unfold run_to_end. rewrite Hf. simpl.
    apply (IH {| l_app := _; delayed := delayed l; inflight := f; settled := _;
                 requests := _ |}); done.
Qed.

Lemma concat_contribution_filter order :
  concat (contribution <$> filter (λ j, failed j = false) order)
  = concat (contribution <$> order).
Proof.
  induction order as [|j order IH]; [done|].
  rewrite filter_cons. destruct (decide (failed j = false)) as [Hok|Hfail]; csimpl.
  - by rewrite IH.
  - rewrite failed_contribution by by destruct (failed j). by rewrite IH.
Qed.

Lemma steps_trans st1 st2 st3 : steps st1 st2 → steps st2 st3 → steps st1 st3.
Proof.
  intros H12 H23. induction H23 as [|st2 st3 st4 _ IH H34]; [done|].
  eapply steps_step; [by apply IH|done].
Qed.

(** Every timer can fire before any answer arrives. *)
Lemma steps_issue_all l :
  ∃ l', steps (Waiting l) (Waiting l')
    ∧ l_app l' = l_app l ∧ delayed l' = []
    ∧ inflight l' = inflight l ++ delayed l.
Proof.
  remember (delayed l) as d eqn:Hd. revert l Hd.
  induction d as [|j d IH]; intros l Hd.
  - exists l. split; [apply steps_refl|]. by rewrite <- Hd, app_nil_r.
  - destruct (IH {| l_app := l_app l; delayed := d; inflight := inflight l ++ [j];
                    settled := settled l; requests := requests l ++ [j_source j] |}
                eq_refl) as (l' & Hsteps & Happ & Hdel & Hinf).
    exists l'. split.
    + eapply steps_head; [|exact Hsteps]. by apply (step_issue l [] j d).
    + simpl in *. by rewrite Hinf, <- app_assoc.
Qed.

(** The answers to the requests on the wire can arrive in any order. *)
Lemma steps_settle_order order l :
  delayed l = [] → inflight l ≡ₚ order →
  ∃ l', steps (Waiting l) (Waiting l')
    ∧ delayed l' = [] ∧ inflight l' = []
    ∧ articles (l_app l') = articles (l_app l)
    ∧ allArticles (l_app l')
      = allArticles (l_app l) ++ concat (contribution <$> order).
Proof.
  revert l. induction order as [|j order IH]; intros l Hd Hperm.
  - apply Permutation_nil_r in Hperm. exists l. rewrite app_nil_r.
    split; [apply steps_refl|done].
  - assert (j ∈ inflight l) as Hin by (rewrite Hperm; left).
    apply list_elem_of_split in Hin as (f1 & f2 & Hf).
    destruct (IH {| l_app := (loadSingleSource (j_now j) (j_source j) (j_outcome j)
                                (l_app l)).1;
                    delayed := delayed l; inflight := f1 ++ f2;
                    settled := settled l ++
                      [(j, (loadSingleSource (j_now j) (j_source j) (j_outcome j)
                              (l_app l)).2)];
                    requests := requests l |})
      as (l' & Hsteps & Hdel & Hinf & Hold & Hall).
    + done.
    + simpl. rewrite Hf in Hperm. symmetry.
      eapply Permutation_cons_app_inv. symmetry. exact Hperm.
    + exists l'. split; [|split; [done|split; [done|]]].
      * eapply steps_head; [|exact Hsteps]. by apply (step_settle l f1 j f2).
      * simpl in Hold, Hall. rewrite loadSingleSource_state in Hold, Hall.
        simpl in Hold, Hall. split; [done|]. by rewrite Hall, <- app_assoc.
Qed.

(** The tasks of a load can settle in any order one likes. *)
Lemma steps_in_order jobs order app0 :
  isLoading app0 = false → jobs ≠ [] → order ≡ₚ jobs →
  ∃ app, steps (startProgressiveLoading jobs app0) (Returned Completed app)
    ∧ allArticles app = concat (contribution <$> order)
    ∧ articles app = aggregate (concat (contribution <$> order)).
Proof.
  intros Hidle Hne Hperm. unfold startProgressiveLoading. rewrite Hidle. simpl.
  destruct (Z.eqb_spec (Z.of_nat (length jobs)) 0) as [Hz|_];
    [by destruct jobs|].
  match goal with |- ∃ app, steps (Waiting ?l0) _ ∧ _ =>
    destruct (steps_issue_all l0) as (l1 & H1 & Happ1 & Hd1 & Hf1)
  end.
  simpl in Happ1, Hf1. rewrite take_drop in Hf1.
  destruct (steps_settle_order order l1 Hd1) as (l2 & H2 & Hd2 & Hf2 & _ & Hall).
  { rewrite Hf1. by symmetry. }
  rewrite Happ1 in Hall. simpl in Hall.
  exists (finishLoading 0 (l_app l2)). split.
  - eapply steps_trans; [exact H1|]. eapply steps_trans; [exact H2|].
    eapply steps_step; [apply steps_refl|]. by apply step_join.
  - unfold finishLoading, processAllArticles. simpl. by rewrite Hall.
Qed.

(** C1: a task whose fetch or parse fails (request rejected, status not
    OK, body unreadable, malformed document) settles as a fulfilled
    promise and adds nothing; no task ever completes abruptly. However
    the events interleave, [allArticles] holds the contributions of the
    settled tasks in completion order, and the displayed list is not
    recomputed while a task is pending. When the loader returns, every
    dispatched task has settled: [allArticles] is the contributions of
    all tasks in completion order, which is what the sources that did
    not fail contributed; every article a source contributed is in it,
    and the displayed list is its aggregate. The failed sources leave no
    trace: a load of the other sources alone can end with the same
    [allArticles] and the same displayed list. From any state it
    reaches, the loader can run to its end. *)
Theorem refresh_failure_isolation (jobs : list Job) (app0 : App) (st : Stage) :
  isLoading app0 = false →
  steps (startProgressiveLoading jobs app0) st →
  (∀ now src outcome app,
     ∃ result, (loadSingleSource now src outcome app).2 = Normal result)
  ∧ (∀ j, failed j = true → contribution j = [])
  ∧ match st with
    | Waiting l =>
        articles (l_app l) = articles app0
        ∧ Forall (λ p, ∃ result, p.2 = Normal result) (settled l)
        ∧ allArticles (l_app l) = concat (contribution <$> (settled l).*1)
        ∧ (settled l).*1 ++ inflight l ++ delayed l ≡ₚ jobs
    | Returned why app =>
        why ≠ AlreadyInProgress
        ∧ (why = NoActiveSources → jobs = [])
        ∧ (why = Completed →
             ∃ order, order ≡ₚ jobs
               ∧ allArticles app = concat (contribution <$> order)
               ∧ allArticles app
                 = concat (contribution <$> filter (λ j, failed j = false) order)
               ∧ (∀ j a, j ∈ jobs → a ∈ contribution j → a ∈ allArticles app)
               ∧ articles app = aggregate (allArticles app)
               ∧ (filter (λ j, failed j = false) jobs ≠ [] →
                  ∃ app',
                    steps (startProgressiveLoading
                             (filter (λ j, failed j = false) jobs) app0)
                          (Returned Completed app')
                    ∧ allArticles app' = allArticles app
                    ∧ articles app' = articles app))
    end
  ∧ ∃ why app, steps st (Returned why app).
Proof.
  intros Hidle Hsteps.
  pose proof (steps_invariant jobs app0 _ _
                (startProgressiveLoading_invariant jobs app0 Hidle) Hsteps) as Hinv.
  split; [apply loadSingleSource_normal|].
  split; [apply failed_contribution|].
  split.
  - destruct st as [why app|l]; simpl in Hinv.
    + destruct Hinv as [_ Hwhy]. split; [by intros ->|].
      split; [by intros ->|]. intros ->.
      destruct Hwhy as (order & Hperm & Hall & Hagg & _).
      exists order. split; [done|]. split; [done|].
      split; [by rewrite concat_contribution_filter|].
      split.
      { intros j a Hj Ha. rewrite Hall. apply list_elem_of_In, in_concat.
        exists (contribution j). split; [|by apply list_elem_of_In].
        apply list_elem_of_In, list_elem_of_fmap. exists j. split; [done|].
        by rewrite Hperm. }
      split; [done|].
      intros Hsome.
      destruct (steps_in_order (filter (λ j, failed j = false) jobs)
                  (filter (λ j, failed j = false) order) app0 Hidle Hsome)
        as (app' & Hrun & Hall' & Hagg').
      { by rewrite Hperm. }
      exists app'. split; [done|].
      rewrite concat_contribution_filter in Hall', Hagg'.
      split; [by rewrite Hall', Hall|by rewrite Hagg', Hagg, Hall].
    + by destruct Hinv as (_ & Hold & Hok & Hall & _ & Hperm & _).
  - destruct st as [why app|l].
    + exists why, app. apply steps_refl.
    + exists Completed, (run_to_end 0 l). apply steps_run_to_end.
Qed.
End SchedulerFacts.

(** One refresh of four sources of which three fail: the loader returns,
    the two articles of the one good source are displayed, and a load of
    that source alone can end with the same displayed list. *)
Lemma refresh_failure_isolation_witness :
  isLoading initialApp = false
  ∧ ∃ l, startProgressiveLoading sample_jobs initialApp = Waiting l
         ∧ @steps ascii_host (Waiting l) (Returned Completed (@run_to_end ascii_host 1700000000500 l))
         ∧ title <$> articles (@run_to_end ascii_host 1700000000500 l)
           ≡ₚ [js "Storm hits coast"; js "Markets rally"]
         ∧ (∃ order, order ≡ₚ sample_jobs
              ∧ allArticles (@run_to_end ascii_host 1700000000500 l)
                = concat (@contribution ascii_host <$> order))
         ∧ ∃ app',
             @steps ascii_host
               (startProgressiveLoading (filter (λ j, failed j = false) sample_jobs)
                  initialApp)
               (Returned Completed app')
             ∧ articles app' = articles (@run_to_end ascii_host 1700000000500 l).
Proof.
  split; [reflexivity|]. eexists. split; [vm_compute; reflexivity|].
  match goal with |- @steps _ (Waiting ?l) ?st ∧ _ =>
    assert (@steps ascii_host (startProgressiveLoading sample_jobs initialApp) st) as Hsteps
      by exact (@steps_run_to_end ascii_host 1700000000500 l);
    destruct (@refresh_failure_isolation ascii_host sample_jobs initialApp st
                eq_refl Hsteps) as (_ & _ & (_ & _ & Hdone) & _)
  end.
  split; [exact Hsteps|].
  split.
  { match goal with |- ?titles ≡ₚ _ =>
      assert (titles = [js "Markets rally"; js "Storm hits coast"]) as ->
        by (vm_compute; reflexivity)
    end.
    apply perm_swap. }
  destruct (Hdone eq_refl) as (order & Hperm & Hall & _ & _ & _ & Hwithout).
  split; [exists order; split; [exact Hperm|exact Hall]|].
  assert (filter (λ j, failed j = false) sample_jobs ≠ []) as Hgood
    by (vm_compute; discriminate).
  destruct (Hwithout Hgood) as (app' & Hrun & _ & Hsame).
  exists app'. split; [exact Hrun|exact Hsame].
Defined.

(** The scenario of the specification with a failing source added: two
    sources report one headline, and the second report is dropped as a
    duplicate whether the failing source is there or not. *)
Example same_headline_with_and_without_failure :
  ∃ l l',
    startProgressiveLoading same_headline_jobs initialApp = Waiting l
    ∧ startProgressiveLoading [second_reporter; third_reporter] initialApp = Waiting l'
    ∧ articles (@run_to_end ascii_host 1700000000400 l)
      = articles (@run_to_end ascii_host 1700000000400 l')
    ∧ title <$> articles (@run_to_end ascii_host 1700000000400 l)
      = [js "Storm hits coast."].
Proof.
  eexists. eexists. split; [vm_compute; reflexivity|].
  split; [vm_compute; reflexivity|]. split; vm_compute; reflexivity.
Qed.


(** * Properties of the further parts *)

(** ** Sanitised text *)

Section TextFacts.

Lemma thinned_refl P l : thinned P l l.
Proof. induction l; by constructor. Qed.

Lemma thinned_mono (P Q : Z → Prop) l' l :
  (∀ c, P c → Q c) → thinned P l' l → thinned Q l' l.
Proof.
  intros HPQ. induction 1 as [|c l' l _ IH|c l' l Hc _ IH|c l' l Hc _ IH].
  - apply thinned_nil.
  - by apply thinned_keep.
  - apply thinned_drop; auto.
  - apply thinned_blank; auto.
Qed.

Lemma thinned_trans P l1 l2 l3 :
  P 32 → thinned P l1 l2 → thinned P l2 l3 → thinned P l1 l3.
Proof.
  intros H32 H12 H23. revert l1 H12.
  induction H23 as [|c l2 l3 _ IH|c l2 l3 Hc _ IH|c l2 l3 Hc _ IH]; intros l1 H12.
  - done.
  - inversion H12; subst.
    + apply thinned_keep. by apply IH.
    + apply thinned_drop; [done|by apply IH].
    + apply thinned_blank; [done|by apply IH].
  - apply thinned_drop; [done|by apply IH].
  - inversion H12; subst.
    + apply thinned_blank; [done|by apply IH].
    + apply thinned_drop; [done|by apply IH].
    + apply thinned_blank; [done|by apply IH].
Qed.

Lemma thinned_drop_all P p l' l :
  Forall P p → thinned P l' l → thinned P l' (p ++ l).
Proof. induction 1; simpl; [done|]. intros. apply thinned_drop; auto. Qed.

Lemma thinned_app P l1' l1 l2' l2 :
  thinned P l1' l1 → thinned P l2' l2 → thinned P (l1' ++ l2') (l1 ++ l2).
Proof.
  induction 1; simpl; intros; [done| | |].
  - apply thinned_keep; auto.
  - apply thinned_drop; auto.
  - apply thinned_blank; auto.
Qed.

Lemma thinned_exists P (d : Z) l' l :
  d ≠ 32 → thinned P l' l →
  existsb (λ e, e =? d) l' = true → existsb (λ e, e =? d) l = true.
Proof.
  intros Hd. induction 1 as [|c l' l _ IH|c l' l _ _ IH|c l' l _ _ IH];
    cbn [existsb]; [done| | |].
  - intros [->|H]%orb_true_iff; [done|]. rewrite IH by done. apply orb_true_r.
  - intros H. rewrite IH by done. apply orb_true_r.
  - intros [Heq%Z.eqb_eq|H]%orb_true_iff; [done|]. rewrite IH by done. apply orb_true_r.
Qed.

Lemma thinned_no (P : Z → Prop) (d : Z) l' l :
  d ≠ 32 → thinned P l' l →
  existsb (λ e, e =? d) l = false → existsb (λ e, e =? d) l' = false.
Proof.
  intros Hd Hth Hno. destruct (existsb _ l') eqn:Hex; [|done].
  by rewrite (thinned_exists P d l' l Hd Hth Hex) in Hno.
Qed.

(** Dropping and blanking code units makes no tag. *)
Lemma thinned_has_tag P l' l : thinned P l' l → has_tag l = false → has_tag l' = false.
Proof.
  induction 1 as [|c l' l Hth IH|c l' l _ _ IH|c l' l _ _ IH];
    cbn [has_tag]; [done| | |].
  - intros [Hhead Htail]%orb_false_iff. rewrite IH by done. rewrite orb_false_r.
    apply andb_false_iff in Hhead as [Hc|Hno]; [by rewrite Hc|].
    rewrite (thinned_no P 62 l' l) by done. apply andb_false_r.
  - intros [_ Htail]%orb_false_iff. by apply IH.
  - intros [_ Htail]%orb_false_iff. by apply IH.
Qed.

Lemma existsb_eqb_elem (d : Z) l : existsb (λ e, e =? d) l = true ↔ d ∈ l.
Proof.
  induction l as [|c l IH]; cbn [existsb].
  - split; [done|by intros ?%elem_of_nil].
  - rewrite orb_true_iff, IH, elem_of_cons, Z.eqb_eq.
    split; (intros [Heq|Hin]; [left; by symmetry|by right]).
Qed.

Lemma existsb_eqb_not_elem (d : Z) l : existsb (λ e, e =? d) l = false ↔ d ∉ l.
Proof. rewrite <- existsb_eqb_elem. by destruct (existsb _ l). Qed.

Lemma has_tag_no_gt l : 62 ∉ l → has_tag l = false.
Proof.
  induction l as [|c l IH]; cbn [has_tag]; [done|].
  intros [_ Hl]%not_elem_of_cons. rewrite IH by done.
  rewrite (proj2 (existsb_eqb_not_elem 62 l)) by done. by rewrite andb_false_r.
Qed.

Lemma strip_tags_from_has_tag held s :
  (∀ buf, held = Some buf → 62 ∉ buf) →
  has_tag (strip_tags_from held s) = false.
Proof.
  revert held. induction s as [|c s IH]; intros held Hheld; simpl.
  - destruct held as [buf|]; [|done].
    apply has_tag_no_gt. rewrite elem_of_reverse. by apply Hheld.
  - destruct held as [buf|].
    + destruct (Z.eqb_spec c 62) as [->|Hc].
      * by apply IH.
      * apply IH. intros buf' [= <-]. apply not_elem_of_cons. split; [done|].
        by apply Hheld.
    + destruct (Z.eqb_spec c 60) as [->|Hc].
      * apply IH. intros buf' [= <-]. by intros [?|?%elem_of_nil]%elem_of_cons.
      * cbn [has_tag]. rewrite IH by done.
        destruct (Z.eqb_spec c 60); [done|]. done.
Qed.

Lemma replace_entities_from_thinned held s :
  thinned (λ _, True) (replace_entities_from held s)
    (match held with Some buf => reverse buf | None => [] end ++ s).
Proof.
  revert held. induction s as [|c s IH]; intros held; simpl.
  - rewrite app_nil_r. destruct held; apply thinned_refl.
  - destruct held as [buf|]; simpl.
    + destruct (Z.eqb_spec c 59) as [->|Hc].
      * destruct buf as [|x [|y buf]].
        -- simpl. apply thinned_blank; [done|]. apply (IH None).
        -- simpl. apply thinned_keep, thinned_keep. apply (IH None).
        -- apply thinned_drop_all; [by apply Forall_forall|].
           apply thinned_blank; [done|]. apply (IH None).
      * specialize (IH (Some (c :: buf))). simpl in IH.
        by rewrite reverse_cons, <- app_assoc in IH.
    + destruct (Z.eqb_spec c 38) as [->|Hc].
      * apply (IH (Some [38])).
      * apply thinned_keep. apply (IH None).
Qed.

Lemma collapse_from_thinned b s :
  thinned (λ c, is_space c = true) (collapse_from b s) s.
Proof.
  revert b. induction s as [|c s IH]; intros b; simpl; [apply thinned_nil|].
  destruct (is_space c) eqn:Hc.
  - destruct b; [by apply thinned_drop|by apply thinned_blank].
  - by apply thinned_keep.
Qed.

Lemma trimStart_thinned s : thinned (λ c, is_space c = true) (trimStart s) s.
Proof.
  induction s as [|c s IH]; simpl; [apply thinned_nil|].
  destruct (is_space c) eqn:Hc; [by apply thinned_drop|apply thinned_refl].
Qed.

Lemma thinned_reverse P l' l : thinned P l' l → thinned P (reverse l') (reverse l).
Proof.
  induction 1 as [|c l' l _ IH|c l' l Hc _ IH|c l' l Hc _ IH]; [apply thinned_nil| | |].
  - rewrite !reverse_cons. apply thinned_app; [done|apply thinned_refl].
  - rewrite reverse_cons, <- (app_nil_r (reverse l')).
    apply thinned_app; [done|]. by apply thinned_drop; [|apply thinned_nil].
  - rewrite !reverse_cons. apply thinned_app; [done|].
    by apply thinned_blank; [|apply thinned_nil].
Qed.

Lemma trim_thinned s : thinned (λ c, is_space c = true) (trim s) s.
Proof.
  unfold trim, trimEnd.
  apply (thinned_trans _ _ (trimStart s)); [done| |apply trimStart_thinned].
  rewrite <- (reverse_involutive (trimStart s)) at 2.
  apply thinned_reverse, trimStart_thinned.
Qed.

(** From markup to text: the white-space steps of [sanitizeText] only
    drop white space or turn it into a space. *)
Lemma sanitizeText_thinned text :
  thinned (λ _, True) (sanitizeText text) (strip_tags_from None text).
Proof.
  unfold sanitizeText. destruct (truthy text) eqn:Htext; simpl.
  - apply (thinned_trans _ _ (collapse_spaces (replace_entities_from None
                                                  (strip_tags_from None text)))); [done| |].
    { eapply thinned_mono; [|apply trim_thinned]. done. }
    apply (thinned_trans _ _ (replace_entities_from None (strip_tags_from None text)));
      [done| |].
    { eapply thinned_mono; [|apply collapse_from_thinned]. done. }
    apply (replace_entities_from_thinned None).
  - destruct text; [apply thinned_nil|done].
Qed.

Lemma has_entity_no_semicolon l : 59 ∉ l → has_entity l = false.
Proof.
  induction l as [|c l IH]; cbn [has_entity]; [done|].
  intros [_ Hl]%not_elem_of_cons. rewrite IH by done. rewrite orb_false_r.
  destruct l as [|d l]; cbn [entity_tail]; [apply andb_false_r|].
  apply not_elem_of_cons in Hl as [_ Hl].
  rewrite (proj2 (existsb_eqb_not_elem 59 l)) by done. by rewrite !andb_false_r.
Qed.

Lemma replace_entities_from_has_entity held s :
  (∀ buf, held = Some buf → 59 ∉ buf) →
  has_entity (replace_entities_from held s) = false.
Proof.
  revert held. induction s as [|c s IH]; intros held Hheld; simpl.
  - destruct held as [buf|]; [|done].
    apply has_entity_no_semicolon. rewrite elem_of_reverse. by apply Hheld.
  - destruct held as [buf|].
    + destruct (Z.eqb_spec c 59) as [->|Hc].
      * destruct buf as [|x [|y buf]].
        -- cbn [has_entity]. by rewrite (IH None).
        -- change (reverse [x] ++ 59 :: replace_entities_from None s)
             with (x :: 59 :: replace_entities_from None s).
           cbn [has_entity entity_tail]. rewrite (IH None) by done.
           change (59 =? 59) with true. cbn [negb andb orb].
           rewrite andb_false_r. cbn [orb].
           destruct (replace_entities_from None s); by rewrite ?andb_false_r.
        -- cbn [has_entity]. by rewrite (IH None).
      * apply IH. intros buf' [= <-]. apply not_elem_of_cons. split; [done|].
        by apply Hheld.
    + destruct (Z.eqb_spec c 38) as [->|Hc].
      * apply IH. intros buf' [= <-]. by intros [?|?%elem_of_nil]%elem_of_cons.
      * cbn [has_entity]. rewrite IH by done.
        destruct (Z.eqb_spec c 38); done.
Qed.

Lemma thinned_entity_tail l' l :
  thinned (λ c, is_space c = true) l' l → entity_tail l = false → entity_tail l' = false.
Proof.
  destruct 1 as [|c l' l Hth|c l' l Hc Hth|c l' l Hc Hth]; cbn [entity_tail]; [done| | |].
  - intros [Hc|Hno]%andb_false_iff; [by rewrite Hc|].
    rewrite (thinned_no _ 59 l' l) by done. apply andb_false_r.
  - assert (c ≠ 59) as Hne by (by intros ->).
    destruct (Z.eqb_spec c 59); [done|]. cbn [negb andb]. intros Hno.
    pose proof (thinned_no _ 59 l' l ltac:(done) Hth Hno) as Hno'.
    destruct l' as [|d l']; [done|]. cbn [existsb] in Hno'.
    apply orb_false_iff in Hno' as [_ Hno']. cbn [entity_tail].
    rewrite Hno'. apply andb_false_r.
  - assert (c ≠ 59) as Hne by (by intros ->).
    destruct (Z.eqb_spec c 59); [done|]. cbn [negb andb]. intros Hno.
    rewrite (thinned_no _ 59 l' l) by done. apply andb_false_r.
Qed.

(** Dropping white space, or turning it into a space, makes no entity. *)
Lemma thinned_has_entity l' l :
  thinned (λ c, is_space c = true) l' l → has_entity l = false → has_entity l' = false.
Proof.
  induction 1 as [|c l' l Hth IH|c l' l _ _ IH|c l' l _ _ IH];
    cbn [has_entity]; [done| | |].
  - intros [Hhead Htail]%orb_false_iff. rewrite IH by done. rewrite orb_false_r.
    apply andb_false_iff in Hhead as [Hc|Hno]; [by rewrite Hc|].
    rewrite (thinned_entity_tail l' l) by done. apply andb_false_r.
  - intros [_ Htail]%orb_false_iff. by apply IH.
  - intros [_ Htail]%orb_false_iff. by apply IH.
Qed.

Lemma collapse_from_spaces b s :
  Forall (λ c, is_space c = true → c = 32) (collapse_from b s).
Proof.
  revert b. induction s as [|c s IH]; intros b; simpl; [constructor|].
  destruct (is_space c) eqn:Hc.
  - destruct b; [apply IH|]. constructor; [done|apply IH].
  - constructor; [|apply IH]. by rewrite Hc.
Qed.

Lemma single_spaced_cons c d s :
  single_spaced (c :: d :: s) = negb (is_space c && is_space d) && single_spaced (d :: s).
Proof. reflexivity. Qed.

Lemma collapse_from_single_spaced b s :
  single_spaced (collapse_from b s) = true
  ∧ (b = true → ∀ c, head (collapse_from b s) = Some c → is_space c = false).
Proof.
  revert b. induction s as [|c s IH]; intros b; simpl; [done|].
  destruct (is_space c) eqn:Hc.
  - destruct b; [apply IH|]. split; [|done].
    destruct (IH true) as [Hs Hh].
    destruct (collapse_from true s) as [|d out] eqn:Hout; [done|].
    rewrite single_spaced_cons, Hs, (Hh eq_refl d) by done. done.
  - split; [|by intros _ d [= <-]].
    destruct (IH false) as [Hs _].
    destruct (collapse_from false s) as [|d out] eqn:Hout; [done|].
    by rewrite single_spaced_cons, Hs, Hc.
Qed.

Lemma single_spaced_tail c s : single_spaced (c :: s) = true → single_spaced s = true.
Proof.
  destruct s as [|d s]; [done|]. rewrite single_spaced_cons.
  by intros [_ ?]%andb_true_iff.
Qed.

Lemma single_spaced_prefix l1 l2 :
  single_spaced (l1 ++ l2) = true → single_spaced l1 = true.
Proof.
  induction l1 as [|c l1 IH]; [done|].
  destruct l1 as [|d l1]; [done|].
  simpl app. rewrite !single_spaced_cons. intros [Hcd Hrest]%andb_true_iff.
  rewrite Hcd. by apply IH.
Qed.

Lemma trimStart_single_spaced s :
  single_spaced s = true → single_spaced (trimStart s) = true.
Proof.
  induction s as [|c s IH]; [done|]. cbn [trimStart].
  destruct (is_space c); [|done]. intros Hs. by apply IH, (single_spaced_tail c).
Qed.

Lemma trimEnd_prefix s : trimEnd s `prefix_of` s.
Proof.
  unfold trimEnd. destruct (trimStart_suffix (reverse s)) as [k Hk].
  exists (reverse k). rewrite <- reverse_app, <- Hk. by rewrite reverse_involutive.
Qed.

Lemma trimStart_head s c : head (trimStart s) = Some c → is_space c = false.
Proof.
  induction s as [|d s IH]; [done|]. simpl.
  destruct (is_space d) eqn:Hd; [done|]. by intros [= <-].
Qed.

Lemma trimStart_last s c : last (trimStart s) = Some c → last s = Some c.
Proof.
  destruct (trimStart_suffix s) as [k Hk]. intros Hlast.
  rewrite Hk at 1. rewrite last_app, Hlast. done.
Qed.

Lemma trim_ends s :
  (∀ c, head (trim s) = Some c → is_space c = false)
  ∧ (∀ c, last (trim s) = Some c → is_space c = false).
Proof.
  unfold trim, trimEnd. split; intros c.
  - rewrite head_reverse. intros Hc%trimStart_last.
    rewrite last_reverse in Hc. by apply (trimStart_head s).
  - rewrite last_reverse. apply trimStart_head.
Qed.

Lemma trim_spaces (P : Z → Prop) s : Forall P s → Forall P (trim s).
Proof.
  intros Hs. unfold trim, trimEnd.
  by apply Forall_reverse, trimStart_chars, Forall_reverse, trimStart_chars.
Qed.

Lemma trim_single_spaced s : single_spaced s = true → single_spaced (trim s) = true.
Proof.
  intros Hs. unfold trim.
  destruct (trimEnd_prefix (trimStart s)) as [k Hk].
  apply (single_spaced_prefix _ k). rewrite <- Hk. by apply trimStart_single_spaced.
Qed.

Lemma sanitizeText_tidy text : tidy (sanitizeText text).
Proof.
  unfold sanitizeText. destruct (negb (truthy text)).
  - repeat split; [constructor|done..].
  - split; [apply trim_spaces, collapse_from_spaces|].
    split; [apply trim_single_spaced, collapse_from_single_spaced|].
    apply trim_ends.
Qed.

(** On text that has their shape already the steps change nothing. *)
Lemma strip_tags_from_held buf s :
  62 ∉ s → strip_tags_from (Some buf) s = reverse buf ++ s.
Proof.
  revert buf. induction s as [|c s IH]; intros buf Hs; simpl.
  - by rewrite app_nil_r.
  - apply not_elem_of_cons in Hs as [Hc Hs].
    destruct (Z.eqb_spec c 62); [done|].
    rewrite IH by done. by rewrite reverse_cons, <- app_assoc.
Qed.

Lemma strip_tags_from_id s : has_tag s = false → strip_tags_from None s = s.
Proof.
  induction s as [|c s IH]; [done|]. cbn [has_tag].
  intros [Hhead Htail]%orb_false_iff. simpl.
  destruct (Z.eqb_spec c 60) as [->|Hc].
  - simpl in Hhead. apply existsb_eqb_not_elem in Hhead.
    by rewrite strip_tags_from_held.
  - by rewrite IH.
Qed.

Lemma replace_entities_from_held buf s :
  59 ∉ s → replace_entities_from (Some buf) s = reverse buf ++ s.
Proof.
  revert buf. induction s as [|c s IH]; intros buf Hs; simpl.
  - by rewrite app_nil_r.
  - apply not_elem_of_cons in Hs as [Hc Hs].
    destruct (Z.eqb_spec c 59); [done|].
    rewrite IH by done. by rewrite reverse_cons, <- app_assoc.
Qed.

Lemma replace_entities_from_id s :
  has_entity s = false → replace_entities_from None s = s.
Proof.
  induction s as [|c s IH]; [done|]. cbn [has_entity].
  intros [Hhead Htail]%orb_false_iff. simpl.
  destruct (Z.eqb_spec c 38) as [->|Hc]; [|by rewrite IH].
  simpl in Hhead. destruct s as [|d s]; [done|].
  cbn [entity_tail] in Hhead. simpl.
  destruct (Z.eqb_spec d 59) as [->|Hd].
  - pose proof (IH Htail) as Hrec. simpl in Hrec. injection Hrec as Hrec.
    simpl. by rewrite Hrec.
  - simpl in Hhead. apply existsb_eqb_not_elem in Hhead.
    rewrite replace_entities_from_held by done. done.
Qed.

Lemma collapse_from_id b s :
  Forall (λ c, is_space c = true → c = 32) s →
  single_spaced s = true →
  (b = true → ∀ c, head s = Some c → is_space c = false) →
  collapse_from b s = s.
Proof.
  intros Hs. revert b. induction Hs as [|c s Hc _ IH]; intros b Hsingle Hhead; [done|].
  simpl. destruct (is_space c) eqn:Hsp.
  - destruct b; [by rewrite (Hhead eq_refl c) in Hsp|].
    rewrite (Hc eq_refl). f_equal. apply IH; [by apply (single_spaced_tail c)|].
    intros _ d Hd. destruct s as [|e s]; [done|]. injection Hd as ->.
    rewrite single_spaced_cons, Hsp in Hsingle.
    by destruct (is_space d).
  - f_equal. apply IH; [by apply (single_spaced_tail c)|done].
Qed.

Lemma trimStart_id s : (∀ c, head s = Some c → is_space c = false) → trimStart s = s.
Proof. destruct s as [|c s]; [done|]. intros Hh. simpl. by rewrite (Hh c). Qed.

Lemma trim_id s :
  (∀ c, head s = Some c → is_space c = false) →
  (∀ c, last s = Some c → is_space c = false) →
  trim s = s.
Proof.
  intros Hh Hl. unfold trim, trimEnd. rewrite (trimStart_id s) by done.
  rewrite trimStart_id; [apply reverse_involutive|].
  intros c. rewrite head_reverse. apply Hl.
Qed.

Lemma sanitizeText_has_entity text : has_entity (sanitizeText text) = false.
Proof.
  unfold sanitizeText. destruct (negb (truthy text)); [done|].
  apply (thinned_has_entity _ (replace_entities_from None (strip_tags_from None text))).
  - apply (thinned_trans _ _ (collapse_spaces (replace_entities_from None
                                                  (strip_tags_from None text)))); [done| |].
    + apply trim_thinned.
    + apply collapse_from_thinned.
  - by apply replace_entities_from_has_entity.
Qed.

Lemma sanitizeText_has_tag text : has_tag (sanitizeText text) = false.
Proof.
  apply (thinned_has_tag _ _ _ (sanitizeText_thinned text)).
  by apply strip_tags_from_has_tag.
Qed.

(** X1: whatever the text, what [sanitizeText] returns holds no complete
    tag (no [<] with a [>] after it) and no entity reference (no [&]
    followed by other code units and a [;]): neither pattern of the
    function matches its result. *)
Theorem sanitizeText_no_markup (text : jsstring) :
  has_tag (sanitizeText text) = false ∧ has_entity (sanitizeText text) = false.
Proof.
  split; [apply sanitizeText_has_tag|apply sanitizeText_has_entity].
Qed.

(** X2: what [sanitizeText] returns has no white space but the plain
    space (code unit 32), never two spaces in a row, and no space at
    either end. *)
Theorem sanitizeText_whitespace (text : jsstring) :
  Forall (λ c, is_space c = true → c = 32) (sanitizeText text)
  ∧ single_spaced (sanitizeText text) = true
  ∧ (∀ c, head (sanitizeText text) = Some c → is_space c = false)
  ∧ (∀ c, last (sanitizeText text) = Some c → is_space c = false).
Proof. apply sanitizeText_tidy. Qed.

(** X3: [sanitizeText] is idempotent: sanitising sanitised text changes
    nothing. *)
Theorem sanitizeText_idempotent (text : jsstring) :
  sanitizeText (sanitizeText text) = sanitizeText text.
Proof.
  pose proof (sanitizeText_tidy text) as (Hsp & Hsingle & Hhead & Hlast).
  pose proof (sanitizeText_has_entity text) as Hent.
  pose proof (sanitizeText_has_tag text) as Htag.
  remember (sanitizeText text) as out eqn:Hout. clear Hout.
  unfold sanitizeText. destruct out as [|c out]; [done|].
  cbn [truthy negb].
  rewrite strip_tags_from_id, replace_entities_from_id by done.
  unfold collapse_spaces. rewrite collapse_from_id by done.
  by apply trim_id.
Qed.

End TextFacts.

(** Markup, entities and stray white space go; a lone [<] stays. *)
Example sanitizeText_sample :
  sanitizeText (js "  <p>Storm &amp;  flood:<br/></p> 3 < 5 ") = js "Storm flood: 3 < 5".
Proof. vm_compute. reflexivity. Qed.

(** ** Items and articles *)

Section ArticleFacts.
Context `{Host}.

Lemma valid_image_valid candidate u :
  valid_image candidate = Some u → isValidImageUrl u = true.
Proof.
  unfold valid_image. destruct candidate as [v|]; [|done].
  destruct (truthy v); simpl; [|done].
  destruct (isValidImageUrl v) eqn:Hv; [|done]. by intros [= <-].
Qed.

Lemma extractImageUrl_valid item description u :
  extractImageUrl item description = Some u → isValidImageUrl u = true.
Proof.
  unfold extractImageUrl.
  destruct (el_media item ≫= _) as [v|] eqn:Hmedia.
  { intros [= <-]. unfold mbind, option_bind in Hmedia.
    destruct (el_media item) as [mediaContent|]; [|discriminate Hmedia].
    by apply (valid_image_valid mediaContent). }
  destruct (el_enclosure item ≫= _) as [v|] eqn:Henc.
  { intros [= <-]. unfold mbind, option_bind in Henc.
    destruct (el_enclosure item) as [[type url]|]; [|discriminate Henc].
    cbn [fst snd] in Henc. destruct type as [type|]; [|discriminate Henc].
    destruct (startsWith (js "image/") type); [|discriminate Henc].
    by apply (valid_image_valid url). }
  destruct (truthy description); [|done].
  destruct (match_img description) as [src|]; [|done].
  destruct (isValidImageUrl src) eqn:Hsrc; [|done]. by intros [= <-].
Qed.

Lemma isValidImageUrl_shape u :
  isValidImageUrl u = true →
  ∃ urlObj, parseURL u = Some urlObj
    ∧ protocol urlObj = js "https:"
    ∧ ∃ ext, ext ∈ image_extensions ∧ ends_with_ci ext (pathname urlObj) = true.
Proof.
  unfold isValidImageUrl. destruct (parseURL u) as [urlObj|]; [|done].
  intros [Hs Hext]%andb_true_iff. exists urlObj. split; [done|].
  split; [by apply bool_decide_eq_true in Hs|].
  apply existsb_exists in Hext as (ext & Hin & Hends).
  exists ext. split; [by apply list_elem_of_In|done].
Qed.

Lemma extractArticleFromItem_Some now item src article :
  extractArticleFromItem now item src = Some article →
  usable item = true
  ∧ article
    = {| article_id :=
           generateArticleId (getElementText (el_title item))
             (or_else (getElementText (el_link item)) (getElementText (el_guid item)));
         title := sanitizeText (getElementText (el_title item));
         summary := or_else (sanitizeText (getElementText (el_description item)))
                      (generateSummary (getElementText (el_title item)));
         url := sanitizeUrl (or_else (getElementText (el_link item))
                               (getElementText (el_guid item)));
         imageUrl := extractImageUrl item (getElementText (el_description item));
         publishedAt := parseDate now (getElementText (el_pubDate item));
         source := {| info_id := s_id src; info_name := s_name src;
                      info_verified := s_verified src || false;
                      info_isCustom := s_isCustom src || false |};
         category := s_category src;
         loadedAt := now |}.
Proof.
  unfold extractArticleFromItem, usable.
  destruct (truthy (getElementText (el_title item))); [|done].
  destruct (truthy (or_else _ _)); [|done]. simpl. by intros [= <-].
Qed.

Lemma extractArticleFromItem_None now item src :
  extractArticleFromItem now item src = None ↔ usable item = false.
Proof.
  unfold extractArticleFromItem, usable.
  destruct (truthy (getElementText (el_title item))); [|done].
  by destruct (truthy (or_else _ _)).
Qed.

(** X4: the [imageUrl] of an article, when there is one, has passed
    [isValidImageUrl]: it parses as a URL whose protocol is [https:] and
    whose path ends, whatever the case, in one of [.jpg .jpeg .png .gif
    .webp]. Whichever of the three places it came from, no other image
    address is ever attached. *)
Theorem extractArticleFromItem_image_valid (now : Z) (item : Item) (src : ActiveSource)
    (article : Article) (u : jsstring) :
  extractArticleFromItem now item src = Some article →
  imageUrl article = Some u →
  isValidImageUrl u = true
  ∧ ∃ urlObj, parseURL u = Some urlObj
      ∧ protocol urlObj = js "https:"
      ∧ ∃ ext, ext ∈ image_extensions ∧ ends_with_ci ext (pathname urlObj) = true.
Proof.
  intros [_ ->]%extractArticleFromItem_Some. simpl. intros Himg.
  apply extractImageUrl_valid in Himg. split; [done|].
  by apply isValidImageUrl_shape.
Qed.

Lemma generateSummary_truthy raw : truthy raw = true → truthy (generateSummary raw) = true.
Proof.
  unfold generateSummary. destruct (100 <? Z.of_nat (length raw)); [|done].
  destruct raw; [done|]. done.
Qed.

(** X5: every article the parser builds has a summary that is not empty,
    and a title that holds no complete tag and no entity reference, with
    single spaces and no space at either end; the title itself may be
    empty, since the item is tested on its raw title. *)
Theorem extractArticleFromItem_text (now : Z) (item : Item) (src : ActiveSource)
    (article : Article) :
  extractArticleFromItem now item src = Some article →
  truthy (summary article) = true
  ∧ has_tag (title article) = false
  ∧ has_entity (title article) = false
  ∧ tidy (title article)
  ∧ title article = sanitizeText (getElementText (el_title item)).
Proof.
  intros [Huse ->]%extractArticleFromItem_Some. simpl.
  apply andb_true_iff in Huse as [Htitle _].
  split.
  - unfold or_else. destruct (truthy (sanitizeText _)) eqn:Hdesc; [done|].
    by apply generateSummary_truthy.
  - split; [apply sanitizeText_has_tag|]. split; [apply sanitizeText_has_entity|].
    split; [apply sanitizeText_tidy|done].
Qed.

(** X6: when the description sanitises to nothing, the summary is made
    from the raw title, not the sanitised one: a raw title of at most 100
    code units becomes the summary as it stands, markup included, and a
    longer one is cut to its first 100 code units followed by three
    dots. *)
Theorem extractArticleFromItem_summary_fallback (now : Z) (item : Item)
    (src : ActiveSource) (article : Article) :
  extractArticleFromItem now item src = Some article →
  sanitizeText (getElementText (el_description item)) = [] →
  let raw := getElementText (el_title item) in
  ((length raw ≤ 100)%nat → summary article = raw)
  ∧ ((100 < length raw)%nat → summary article = take 100 raw ++ js "...").
Proof.
  intros [_ ->]%extractArticleFromItem_Some Hdesc raw. simpl.
  rewrite Hdesc. unfold or_else. simpl. fold raw. unfold generateSummary, substring0.
  split; intros Hlen.
  - destruct (Z.ltb_spec 100 (Z.of_nat (length raw))); [lia|done].
  - destruct (Z.ltb_spec 100 (Z.of_nat (length raw))); [done|lia].
Qed.
End ArticleFacts.

(** The title of this item is sanitised, its summary is not; its image is
    accepted with an upper-case extension. *)
Lemma extractArticleFromItem_image_valid_witness :
  ∃ article,
    @extractArticleFromItem ascii_host 7 markup_title_item sample_source = Some article
    ∧ imageUrl article = Some (js "https://example.com/storm.JPG")
    ∧ @isValidImageUrl ascii_host (js "https://example.com/storm.JPG") = true.
Proof.
  eexists. split; [vm_compute; reflexivity|]. split; [reflexivity|].
  eapply (@extractArticleFromItem_image_valid ascii_host 7 markup_title_item
            sample_source); [vm_compute; reflexivity|reflexivity].
Defined.

Lemma extractArticleFromItem_text_witness :
  ∃ article,
    @extractArticleFromItem ascii_host 7 markup_title_item sample_source = Some article
    ∧ title article = js "Storm hits coast"
    ∧ has_tag (title article) = false.
Proof.
  eexists. split; [vm_compute; reflexivity|]. split; [vm_compute; reflexivity|].
  eapply (@extractArticleFromItem_text ascii_host 7 markup_title_item sample_source).
  vm_compute. reflexivity.
Defined.

Lemma extractArticleFromItem_summary_fallback_witness :
  ∃ article,
    @extractArticleFromItem ascii_host 7 markup_title_item sample_source = Some article
    ∧ summary article = js "<b>Storm</b> hits coast"
    ∧ has_tag (summary article) = true.
Proof.
  eexists. split; [vm_compute; reflexivity|].
  split; [|vm_compute; reflexivity].
  eapply (@extractArticleFromItem_summary_fallback ascii_host 7 markup_title_item
            sample_source); [vm_compute; reflexivity|reflexivity|vm_compute; lia].
Defined.

(** ** The feed, the id and the aggregate *)

Lemma union_absorb_member (k : jsstring) (K S : gset jsstring) :
  k ∈ K → K ∪ ({[k]} ∪ S) = K ∪ S.
Proof.
  intros Hk. apply set_eq. intros x. rewrite !elem_of_union, elem_of_singleton.
  split; [intros [?|[->|?]]; auto|intros [?|?]; auto].
Qed.

Lemma union_swap (k : jsstring) (K S : gset jsstring) :
  {[k]} ∪ (K ∪ S) = K ∪ ({[k]} ∪ S).
Proof.
  apply set_eq. intros x. rewrite !elem_of_union, elem_of_singleton. tauto.
Qed.

Lemma union_absorb_seen (k : jsstring) (L S : gset jsstring) :
  k ∈ S → ({[k]} ∪ L) ∪ S = L ∪ S.
Proof.
  intros Hk. apply set_eq. intros x. rewrite !elem_of_union, elem_of_singleton.
  split; [intros [[->|?]|?]; auto|intros [?|?]; auto].
Qed.

Lemma union_shift (k : jsstring) (L S : gset jsstring) :
  ({[k]} ∪ L) ∪ S = L ∪ ({[k]} ∪ S).
Proof.
  apply set_eq. intros x. rewrite !elem_of_union, elem_of_singleton. tauto.
Qed.

Section FeedFacts.
Context `{Host}.

Lemma filter_none {A} (P : A → Prop) `{∀ x, Decision (P x)} (l : list A) :
  Forall (λ x, ¬ P x) l → filter P l = [].
Proof.
  induction 1 as [|x l Hx _ IH]; [done|]. by rewrite filter_cons_False.
Qed.

Lemma omap_extract_titles now src (items : list Item) :
  title <$> omap (λ item, extractArticleFromItem now item src) items
  = (λ item, sanitizeText (getElementText (el_title item)))
      <$> filter (λ item, usable item = true) items.
Proof.
  induction items as [|item items IH]; [done|]. csimpl.
  rewrite filter_cons.
  destruct (extractArticleFromItem now item src) as [article|] eqn:Hitem.
  - apply extractArticleFromItem_Some in Hitem as [Huse ->].
    rewrite decide_True by done. csimpl. by rewrite IH.
  - apply extractArticleFromItem_None in Hitem.
    rewrite decide_False by (by rewrite Hitem). done.
Qed.

(** X7: from a well-formed document [parseRSSFeed] returns one article
    for each of the first 10 items that has a title and a link or guid,
    in document order and with the sanitised title of its item; a
    malformed document gives the empty list, and so does a feed none of
    whose first 10 items is usable. *)
Theorem parseRSSFeed_document_order (now : Z) (src : ActiveSource) (items : list Item) :
  title <$> parseRSSFeed now (Feed items) src
  = (λ item, sanitizeText (getElementText (el_title item)))
      <$> filter (λ item, usable item = true) (take 10 items)
  ∧ length (parseRSSFeed now (Feed items) src)
    = length (filter (λ item, usable item = true) (take 10 items))
  ∧ parseRSSFeed now ParserError src = []
  ∧ (Forall (λ item, usable item = false) (take 10 items) →
     parseRSSFeed now (Feed items) src = []).
Proof.
  rewrite parseRSSFeed_Feed.
  pose proof (omap_extract_titles now src (take 10 items)) as Htitles.
  split; [done|]. split.
  - apply (f_equal length) in Htitles. by rewrite !length_fmap in Htitles.
  - split; [done|]. intros Hnone.
    apply (f_equal length) in Htitles. rewrite !length_fmap in Htitles.
    apply nil_length_inv. rewrite Htitles, filter_none; [done|].
    eapply Forall_impl; [exact Hnone|]. intros item Hitem. by rewrite Hitem.
Qed.

Lemma digits36_length fuel (k : nat) n :
  (1 ≤ k)%nat → 0 ≤ n < 36 ^ Z.of_nat k → (length (digits36 fuel n []) ≤ k)%nat.
Proof.
  revert k n. induction fuel as [|fuel IH]; intros k n Hk Hn; simpl; [lia|].
  destruct (Z.ltb_spec n 36) as [Hlt|Hge]; [simpl; lia|].
  rewrite digits36_app, length_app. simpl.
  destruct k as [|[|k]]; [lia| |].
  - change (36 ^ Z.of_nat 1) with 36 in Hn. lia.
  - assert (length (digits36 fuel (n `div` 36) []) ≤ S k)%nat; [|lia].
    apply IH; [lia|].
    rewrite Nat2Z.inj_succ, Z.pow_succ_r in Hn by lia.
    split; [apply Z.div_pos; lia|]. apply Z.div_lt_upper_bound; lia.
Qed.

(** X8: an article id is between one and six digits long, and it is not
    a function of the pair but of the concatenation: moving code units
    from the end of the title to the head of the url leaves the id as it
    is. *)
Theorem generateArticleId_shape (title url : jsstring) :
  (1 ≤ length (generateArticleId title url) ≤ 6)%nat
  ∧ generateArticleId title url = generateArticleId [] (title ++ url)
  ∧ generateArticleId title url = generateArticleId (title ++ url) [].
Proof.
  split; [|split; [done|unfold generateArticleId; by rewrite app_nil_r]].
  unfold generateArticleId, toString36. cbv zeta.
  pose proof (hashCode_range (toLowerCase (title ++ url))) as Hrange.
  set (n := Z.abs (hashCode (toLowerCase (title ++ url)))) in *.
  split.
  - simpl. destruct (n <? 36); [simpl; lia|].
    rewrite digits36_app, length_app. simpl. lia.
  - apply digits36_length; [lia|].
    change (36 ^ Z.of_nat 6) with 2176782336. lia.
Qed.

Lemma first_occurrences_seen_set (K seen : gset jsstring) articles :
  first_occurrences (K ∪ seen) articles
  = filter (λ b, dedupKey b ∉ K) (first_occurrences seen articles).
Proof.
  revert seen. induction articles as [|a l IH]; intros seen; simpl; [done|].
  destruct (decide (dedupKey a ∈ seen)) as [Hin|Hnin].
  - rewrite decide_True by (apply elem_of_union; by right). apply IH.
  - destruct (decide (dedupKey a ∈ K)) as [HK|HK].
    + rewrite decide_True by (apply elem_of_union; by left).
      rewrite filter_cons_False by (intros Hno; by apply Hno).
      rewrite <- IH. f_equal. symmetry. by apply union_absorb_member.
    + rewrite decide_False
        by (intros [Hk|Hs]%elem_of_union; done).
      rewrite filter_cons_True by done. f_equal.
      rewrite <- IH. f_equal. apply union_swap.
Qed.

Lemma first_occurrences_app seen l1 l2 :
  first_occurrences seen (l1 ++ l2)
  = first_occurrences seen l1
    ++ first_occurrences (list_to_set (dedupKey <$> l1) ∪ seen) l2.
Proof.
  revert seen. induction l1 as [|a l1 IH]; intros seen.
  - simpl. by rewrite (left_id_L ∅ (∪)).
  - rewrite fmap_cons, list_to_set_cons. simpl.
    destruct (decide (dedupKey a ∈ seen)) as [Hin|Hnin].
    + rewrite IH. f_equal. f_equal. symmetry. by apply union_absorb_seen.
    + simpl. f_equal. rewrite IH. f_equal. f_equal. symmetry. apply union_shift.
Qed.

(** X9: deduplication goes through a concatenation from left to right:
    the articles kept of the first list stay, and of the second list those
    are kept that it would keep on its own and whose key the first list
    does not have. So what a source adds never displaces what was there,
    and deduplicating twice is deduplicating once. *)
Theorem deduplicateArticles_app (l1 l2 : list Article) :
  deduplicateArticles (l1 ++ l2)
  = deduplicateArticles l1
    ++ filter (λ b, dedupKey b ∉ (dedupKey <$> l1)) (deduplicateArticles l2)
  ∧ deduplicateArticles l1 `prefix_of` deduplicateArticles (l1 ++ l2)
  ∧ deduplicateArticles (deduplicateArticles l1) = deduplicateArticles l1.
Proof.
  assert (deduplicateArticles (l1 ++ l2)
          = deduplicateArticles l1
            ++ filter (λ b, dedupKey b ∉ (dedupKey <$> l1)) (deduplicateArticles l2))
    as Happ.
  { rewrite !deduplicateArticles_first_occurrences, first_occurrences_app.
    f_equal. rewrite first_occurrences_seen_set.
    apply list_filter_iff. intros b. by rewrite elem_of_list_to_set. }
  split; [done|]. split.
  - rewrite Happ. by eexists.
  - apply deduplicateArticles_id, deduplicateArticles_NoDup.
Qed.

Lemma StronglySorted_app_le {A} (R : A → A → Prop) (l1 l2 : list A) a b :
  StronglySorted R (l1 ++ l2) → a ∈ l1 → b ∈ l2 → R a b.
Proof.
  induction l1 as [|c l1 IH]; simpl; [by intros _ ?%elem_of_nil|].
  intros [Hs Hall]%StronglySorted_inv [->|Ha]%elem_of_cons Hb.
  - rewrite Forall_forall in Hall. apply Hall, elem_of_app. by right.
  - by apply IH.
Qed.

Lemma StronglySorted_sublist {A} (R : A → A → Prop) (l k : list A) :
  l `sublist_of` k → StronglySorted R k → StronglySorted R l.
Proof.
  induction 1 as [|x l k Hsub IH|x l k Hsub IH]; [done| |].
  - intros [Hs Hall]%StronglySorted_inv. constructor; [by apply IH|].
    rewrite Forall_forall in Hall. apply Forall_forall. intros y Hy.
    apply Hall. by eapply sublist_subseteq.
  - intros [Hs _]%StronglySorted_inv. by apply IH.
Qed.

Lemma descending_transitive {A} (key : A → Z) : Transitive (descending key).
Proof. unfold descending. intros a b c. lia. Qed.

Lemma aggregate_StronglySorted l :
  StronglySorted (descending publishedAt) (sort byNewest (deduplicateArticles l)).
Proof.
  apply Sorted_StronglySorted; [apply descending_transitive|].
  apply (sort_Sorted publishedAt), byNewest_key.
Qed.

(** X10: the cap keeps the newest: the aggregate is taken from the input
    (no article is invented or repeated), and an article that survives
    deduplication but is cut by the cap is never newer than one that is
    kept. *)
Theorem aggregate_keeps_newest (allArticles : list Article) :
  aggregate allArticles ⊆+ allArticles
  ∧ ∀ a b, a ∈ aggregate allArticles →
           b ∈ deduplicateArticles allArticles →
           b ∉ aggregate allArticles →
           publishedAt b ≤ publishedAt a.
Proof.
  unfold aggregate. cbv zeta.
  set (s := sort byNewest (deduplicateArticles allArticles)) in *.
  split.
  - etrans; [apply sublist_submseteq, sublist_take|].
    unfold s. rewrite (sort_perm byNewest).
    apply sublist_submseteq, deduplicateArticles_sublist.
  - intros a b Ha Hb Hcut.
    apply (StronglySorted_app_le (descending publishedAt)
             (take maxArticles s) (drop maxArticles s) a b); [|done|].
    + rewrite take_drop. apply aggregate_StronglySorted.
    + assert (b ∈ s) as Hs by (unfold s; by rewrite (sort_perm byNewest)).
      rewrite <- (take_drop maxArticles s) in Hs.
      by apply elem_of_app in Hs as [?|?].
Qed.

Lemma filterArticles_sublist c l : filterArticles c l `sublist_of` l.
Proof. unfold filterArticles. case_bool_decide; [apply sublist_filter|done]. Qed.

(** X11: what is displayed for a category is taken in order from the
    aggregated list: under [all] it is the whole list, under any other
    category exactly the articles of that category (none, if there is
    none); it is again newest first, within the cap, and without two
    articles of one key. *)
Theorem filterArticles_view (currentCategory : jsstring) (allArticles : list Article) :
  let view := filterArticles currentCategory (aggregate allArticles) in
  view `sublist_of` aggregate allArticles
  ∧ (length view ≤ maxArticles)%nat
  ∧ newest_first view
  ∧ NoDup (dedupKey <$> view)
  ∧ (currentCategory = js "all" → view = aggregate allArticles)
  ∧ (currentCategory ≠ js "all" →
     ∀ a, a ∈ view ↔ a ∈ aggregate allArticles ∧ category a = currentCategory)
  ∧ (currentCategory ≠ js "all" →
     currentCategory ∉ (category <$> aggregate allArticles) → view = []).
Proof.
  intros view. pose proof (filterArticles_sublist currentCategory (aggregate allArticles))
    as Hsub. fold view in Hsub.
  split; [done|]. split.
  { etrans; [by apply sublist_length|apply aggregate_length]. }
  split.
  { intros i a b Ha Hb.
    apply (Sorted_adjacent publishedAt view i a b); [|done..].
    apply StronglySorted_Sorted, (StronglySorted_sublist _ _ _ Hsub).
    apply Sorted_StronglySorted; [apply descending_transitive|apply aggregate_Sorted]. }
  split.
  { apply (sublist_NoDup _ (dedupKey <$> aggregate allArticles));
      [apply aggregate_NoDup|by apply fmap_sublist]. }
  unfold view, filterArticles. split; [|split].
  - intros ->. by rewrite bool_decide_eq_false_2 by (by intros ?).
  - intros Hc a. rewrite bool_decide_eq_true_2 by done.
    rewrite list_elem_of_filter. tauto.
  - intros Hc Hnone. rewrite bool_decide_eq_true_2 by done.
    apply filter_none, Forall_forall. intros a Ha Hcat. apply Hnone.
    apply list_elem_of_fmap. eauto.
Qed.
End FeedFacts.

(** Two of three articles survive a cap of 100 trivially; the order shows
    which would be cut first. *)
Lemma aggregate_keeps_newest_witness :
  let l := numbered_articles 101 in
  ∃ a b, a ∈ (@aggregate ascii_host l)
    ∧ b ∈ (@deduplicateArticles ascii_host l)
    ∧ (b ∉ @aggregate ascii_host l)
    ∧ publishedAt b = 0 ∧ publishedAt a = 1.
Proof.
  intros l.
  assert (∃ a b rest, @aggregate ascii_host l = rest ++ [a]
                      ∧ @deduplicateArticles ascii_host l = b :: drop 1 l
                      ∧ publishedAt b = 0 ∧ publishedAt a = 1)
    as (a & b & rest & Hagg & Hded & Hb & Ha).
  { eexists. eexists. exists (take 99 (@aggregate ascii_host l)).
    split; [vm_compute; reflexivity|]. split; [vm_compute; reflexivity|].
    split; reflexivity. }
  exists a, b.
  assert (a ∈ (@aggregate ascii_host l)) as Hain
    by (rewrite Hagg; apply elem_of_app; right; left).
  assert (b ∈ (@deduplicateArticles ascii_host l)) as Hbin by (rewrite Hded; left).
  assert (b ∉ (@aggregate ascii_host l)) as Hcut.
  { intros Hin. apply (list_elem_of_fmap_2 publishedAt) in Hin. rewrite Hb in Hin.
    revert Hin. apply (bool_decide_unpack (¬ _)). vm_compute. exact I. }
  split; [done|]. split; [done|]. split; [done|].
  pose proof (proj2 (@aggregate_keeps_newest ascii_host l) a b Hain Hbin Hcut) as Hle.
  split; [done|done].
Defined.

(** ** Progress, requests and the guard of the loader *)

Section LoaderFacts.
Context `{Host}.

Lemma steps_from_Returned why app st :
  steps (Returned why app) st → st = Returned why app.
Proof.
  intros Hsteps. remember (Returned why app) as st0 eqn:Hst0.
  induction Hsteps as [|st1 st2 st3 _ IH Hstep]; [done|].
  specialize (IH Hst0). subst st2. subst st1. inversion Hstep.
Qed.

Lemma refreshNews_busy_totalSources now jobs app :
  isLoading app = true →
  totalSources (app_after (refreshNews now jobs app)) = totalSources app
  ∧ lastUpdateTime (app_after (refreshNews now jobs app)) = lastUpdateTime app.
Proof.
  intros Hbusy. unfold refreshNews.
  destruct (now - lastFetchTime app <? minFetchInterval); [done|].
  unfold startProgressiveLoading. simpl. by rewrite Hbusy.
Qed.

Lemma steps_totalSources jobs app0 l :
  isLoading app0 = false →
  steps (startProgressiveLoading jobs app0) (Waiting l) →
  totalSources (l_app l) = Z.of_nat (length jobs)
  ∧ lastUpdateTime (l_app l) = lastUpdateTime app0.
Proof.
  intros Hidle Hsteps.
  remember (startProgressiveLoading jobs app0) as st0 eqn:Hst0.
  remember (Waiting l) as st eqn:Hst. revert l Hst.
  induction Hsteps as [st|st1 st2 st3 Hsteps IH Hstep]; intros l Hst.
  - subst st. unfold startProgressiveLoading in Hst. rewrite Hidle in Hst.
    simpl in Hst. destruct (Z.of_nat (length jobs) =? 0); [done|].
    by injection Hst as <-.
  - specialize (IH Hst0). subst st3.
    assert (stage_invariant jobs app0 st2) as Hinv.
    { subst st1. eapply steps_invariant; [|exact Hsteps].
      by apply startProgressiveLoading_invariant. }
    inversion Hstep as [l2 d1 j d2 Hd|l2 f1 j f2 Hf r|l2 now jobs' r Hr Hnone|];
      subst; simpl.
    + by apply IH.
    + subst r. rewrite loadSingleSource_state. simpl. by apply IH.
    + destruct Hinv as (Hbusy & _).
      destruct (refreshNews_busy_totalSources now jobs' (l_app l2) Hbusy) as [-> ->].
      by apply IH.
Qed.

(** X12: while the loader waits, [loadedSources] counts the settled
    tasks and never passes [totalSources], which is the number of active
    sources and not zero; the tasks settled, on the wire and delayed add up
    to that number; the two counters meet exactly when nothing is pending;
    and one event moves [loadedSources] by at most one, never back. *)
Theorem loading_progress (jobs : list Job) (app0 : App) (l : Loading) :
  isLoading app0 = false →
  steps (startProgressiveLoading jobs app0) (Waiting l) →
  totalSources (l_app l) = Z.of_nat (length jobs)
  ∧ 0 < totalSources (l_app l)
  ∧ loadedSources (l_app l) = Z.of_nat (length (settled l))
  ∧ 0 ≤ loadedSources (l_app l) ≤ totalSources (l_app l)
  ∧ (length (settled l) + length (inflight l) + length (delayed l) = length jobs)%nat
  ∧ (loadedSources (l_app l) = totalSources (l_app l)
     ↔ inflight l = [] ∧ delayed l = [])
  ∧ (∀ l', step (Waiting l) (Waiting l') →
       loadedSources (l_app l) ≤ loadedSources (l_app l') ≤ loadedSources (l_app l) + 1).
Proof.
  intros Hidle Hsteps.
  destruct (steps_totalSources jobs app0 l Hidle Hsteps) as [Htotal _].
  pose proof (steps_invariant jobs app0 _ _
                (startProgressiveLoading_invariant jobs app0 Hidle) Hsteps) as Hinv.
  destruct Hinv as (Hbusy & _ & _ & _ & Hcount & Hperm & _).
  assert (length (settled l) + length (inflight l) + length (delayed l)
          = length jobs)%nat as Hsum.
  { rewrite <- Hperm, !length_app, length_fmap. lia. }
  assert (jobs ≠ []) as Hjobs.
  { intros ->. unfold startProgressiveLoading in Hsteps. rewrite Hidle in Hsteps.
    simpl in Hsteps. by apply steps_from_Returned in Hsteps. }
  assert (0 < length jobs)%nat by (destruct jobs; simpl; [done|lia]).
  split; [done|]. split; [lia|]. split; [done|]. split; [lia|]. split; [done|].
  split.
  - rewrite Hcount, Htotal. split.
    + intros Heq. split; apply nil_length_inv; lia.
    + intros [Hf Hd]. rewrite Hf, Hd in Hsum. simpl in Hsum. lia.
  - intros l' Hstep.
    inversion Hstep as [l2 d1 j d2 Hd|l2 f1 j f2 Hf r|l2 now jobs' r Hr Hnone|];
      subst; simpl.
    + lia.
    + subst r. rewrite loadSingleSource_state. simpl. lia.
    + destruct (refreshNews_busy now jobs' (l_app l) Hbusy) as (_ & _ & _ & _ & ->).
      lia.
Qed.


(** X14: while a load is in progress [isLoading] is set, so a further
    call of [startProgressiveLoading] returns at once and leaves the state
    as it is; whenever the loader has returned, [isLoading] is clear again,
    and after a completed load [lastUpdateTime] is the clock of the join
    and the displayed list is the aggregate of what was loaded. *)
Theorem loader_guard (jobs : list Job) (app0 : App) (st : Stage) :
  isLoading app0 = false →
  steps (startProgressiveLoading jobs app0) st →
  match st with
  | Waiting l =>
      isLoading (l_app l) = true
      ∧ lastUpdateTime (l_app l) = lastUpdateTime app0
      ∧ ∀ jobs', startProgressiveLoading jobs' (l_app l)
                 = Returned AlreadyInProgress (l_app l)
  | Returned why app =>
      isLoading app = false
      ∧ (why = Completed →
         ∃ l now, steps (startProgressiveLoading jobs app0) (Waiting l)
           ∧ inflight l = [] ∧ delayed l = []
           ∧ app = finishLoading now (l_app l)
           ∧ lastUpdateTime app = Some now
           ∧ articles app = aggregate (allArticles (l_app l)))
  end.
Proof.
  intros Hidle Hsteps.
  pose proof (steps_invariant jobs app0 _ _
                (startProgressiveLoading_invariant jobs app0 Hidle) Hsteps) as Hinv.
  destruct st as [why app|l].
  - destruct Hinv as [Hclear _]. split; [done|]. intros ->.
    inversion Hsteps as [st Hst|st1 st2 st3 Hsteps' Hstep]; subst.
    + unfold startProgressiveLoading in *. rewrite Hidle in *. simpl in *.
      by destruct (Z.of_nat (length jobs) =? 0).
    + inversion Hstep as [| | |l now Hd Hf]; subst.
      exists l, now. by repeat split.
  - destruct Hinv as (Hbusy & _).
    split; [done|]. split; [by apply (steps_totalSources jobs)|].
    intros jobs'. unfold startProgressiveLoading. by rewrite Hbusy.
Qed.
End LoaderFacts.

(** The first of four requests is out at once, the others wait for their
    timers. *)
Lemma loading_progress_witness :
  ∃ l, startProgressiveLoading sample_jobs initialApp = Waiting l
    ∧ totalSources (l_app l) = 4 ∧ loadedSources (l_app l) = 0
    ∧ length (requests l) = 1%nat.
Proof.
  eexists. split; [vm_compute; reflexivity|].
  match goal with |- totalSources (l_app ?l) = _ ∧ _ =>
    assert (@steps ascii_host (startProgressiveLoading sample_jobs initialApp) (Waiting l))
      as Hsteps by apply steps_refl;
    destruct (@loading_progress ascii_host sample_jobs initialApp l eq_refl Hsteps)
      as (Htotal & _ & Hloaded & _)
  end.
  split; [exact Htotal|]. split; [exact Hloaded|reflexivity].
Defined.


Lemma loader_guard_witness :
  ∃ l, startProgressiveLoading sample_jobs initialApp = Waiting l
    ∧ isLoading (l_app l) = true
    ∧ startProgressiveLoading same_headline_jobs (l_app l)
      = Returned AlreadyInProgress (l_app l).
Proof.
  eexists. split; [vm_compute; reflexivity|].
  match goal with |- isLoading (l_app ?l) = _ ∧ _ =>
    assert (@steps ascii_host (startProgressiveLoading sample_jobs initialApp) (Waiting l))
      as Hsteps by apply steps_refl;
    destruct (@loader_guard ascii_host sample_jobs initialApp (Waiting l) eq_refl Hsteps)
      as (Hbusy & _ & Hagain)
  end.
  split; [exact Hbusy|apply Hagain].
Defined.

(** ** Time ago *)

(** X15: [getTimeAgo] reads the age of a date in whole units: under a
    minute, and for any date in the future, it says just now; from one
    minute it counts whole minutes, 1 to 59; from one hour whole hours,
    1 to 23, which are the whole hours of the age although they are
    computed from the minutes; from one day whole days, 1 to 6; from
    seven days on, and for an invalid date, it prints the date. *)
Theorem timeAgo_ranges (now d : Z) :
  let age := now - d in
  (age < 60000 → timeAgo now (Some d) = JustNow)
  ∧ (60000 ≤ age < 3600000 →
     timeAgo now (Some d) = MinutesAgo (age `div` 60000)
     ∧ (1 ≤ age `div` 60000 ≤ 59))
  ∧ (3600000 ≤ age < 86400000 →
     timeAgo now (Some d) = HoursAgo (age `div` 3600000)
     ∧ (1 ≤ age `div` 3600000 ≤ 23))
  ∧ (86400000 ≤ age < 604800000 →
     timeAgo now (Some d) = DaysAgo (age `div` 86400000)
     ∧ (1 ≤ age `div` 86400000 ≤ 6))
  ∧ (604800000 ≤ age → timeAgo now (Some d) = OnDate (Some d))
  ∧ timeAgo now None = OnDate None.
Proof.
  intros age. unfold timeAgo. fold age. cbv zeta.
  assert ((age `div` 60000) `div` 60 = age `div` 3600000) as Hh
    by (rewrite Z.div_div by lia; done).
  assert (((age `div` 60000) `div` 60) `div` 24 = age `div` 86400000) as Hd
    by (rewrite !Z.div_div by lia; done).
  rewrite Hd, Hh.
  generalize (Z.div_mod age 60000), (Z.mod_pos_bound age 60000).
  generalize (Z.div_mod age 3600000), (Z.mod_pos_bound age 3600000).
  generalize (Z.div_mod age 86400000), (Z.mod_pos_bound age 86400000).
  generalize (age `mod` 60000), (age `mod` 3600000), (age `mod` 86400000).
  generalize (age `div` 60000), (age `div` 3600000), (age `div` 86400000).
  intros m h dd rm rh rd Hd1 Hd2 Hh1 Hh2 Hm1 Hm2.
  specialize (Hd1 ltac:(lia)). specialize (Hd2 ltac:(lia)).
  specialize (Hh1 ltac:(lia)). specialize (Hh2 ltac:(lia)).
  specialize (Hm1 ltac:(lia)). specialize (Hm2 ltac:(lia)).
  repeat match goal with
         | |- _ ∧ _ => split
         | |- _ → _ => intros ?
         end;
    repeat match goal with
           | |- context [?a <? ?b] => destruct (Z.ltb_spec a b)
           end;
    try done; lia.
Qed.

Lemma timeAgo_ranges_witness :
  3600000 ≤ 1700009000000 - 1700000000000 < 86400000
  ∧ timeAgo 1700009000000 (Some 1700000000000) = HoursAgo 2.
Proof.
  assert (3600000 ≤ 1700009000000 - 1700000000000 < 86400000) as Hage by lia.
  split; [exact Hage|].
  destruct (timeAgo_ranges 1700009000000 1700000000000) as (_ & _ & Hhours & _).
  destruct (Hhours Hage) as [-> _]. reflexivity.
Defined.

(** ** Preferences *)

Example toString10_sample :
  toString10 1700000000000 = js "1700000000000" ∧ toString10 0 = js "0"
  ∧ toString10 (-42) = js "-42".
Proof. by vm_compute. Qed.

(** With nothing stored, five of the eight default selections name a
    catalog source; the other three ids are in no catalog list. *)
Example getActiveSources_defaults :
  s_id <$> (match @getActiveSources ascii_host defaultPreferences with
            | Normal active => active
            | Throw _ => []
            end)
  = [js "foxnews-breaking"; js "bbc-world"; js "foxnews-world";
     js "yahoo-finance"; js "theverge"].
Proof. by vm_compute. Qed.

Lemma prototype_names_not_catalog (key : jsstring) :
  key ∈ prototype_names → defaultSources !! key = None.
Proof.
  unfold prototype_names. intros Hin.
  repeat (apply elem_of_cons in Hin as [-> | Hin]; [by vm_compute|]).
  by apply elem_of_nil in Hin.
Qed.

Lemma get_Inherited {A} (object : gmap jsstring A) (name : jsstring) :
  get object name = Inherited ↔ object !! name = None ∧ name ∈ prototype_names.
Proof.
  unfold get. destruct (object !! name); [intuition congruence|].
  case_bool_decide; intuition congruence.
Qed.

Lemma get_Own {A} (object : gmap jsstring A) (name : jsstring) (a : A) :
  get object name = Own a ↔ object !! name = Some a.
Proof.
  unfold get. destruct (object !! name); [intuition congruence|].
  case_bool_decide; intuition congruence.
Qed.

Lemma get_Undefined {A} (object : gmap jsstring A) (name : jsstring) :
  get object name = Undefined ↔ object !! name = None ∧ name ∉ prototype_names.
Proof.
  unfold get. destruct (object !! name); [intuition congruence|].
  case_bool_decide; intuition congruence.
Qed.

Section PreferenceFacts.
Context `{Host}.

Lemma visit_default_Throw prefs key message :
  visit_default prefs key = Throw message → key ∈ prototype_names.
Proof.
  unfold visit_default.
  destruct (get defaultSources key) as [catalog| |] eqn:Hget; [|intros _|done].
  - apply get_Own in Hget.
    destruct (get (sources prefs) key) eqn:Hsel; try done.
    apply get_Inherited in Hsel as [_ Hin]. done.
  - by apply get_Inherited in Hget as [_ ?].
Qed.

Lemma visit_custom_Throw prefs key message :
  visit_custom prefs key = Throw message → key ∈ prototype_names.
Proof.
  unfold visit_custom.
  destruct (get (customSources prefs) key) eqn:Hget; try done.
  by apply get_Inherited in Hget as [_ ?].
Qed.

Lemma visit_default_prototype prefs key :
  key ∈ prototype_names → visit_default prefs key = Throw TypeError.
Proof.
  intros Hin. unfold visit_default.
  assert (get defaultSources key = Inherited) as ->; [|done].
  apply get_Inherited. split; [by apply prototype_names_not_catalog|done].
Qed.

Lemma forEach_category_Throw prefs pending pushed :
  (∃ message, forEach_category prefs pending pushed = Throw message)
  ↔ ∃ category, category ∈ pending ∧ categoryKey category ∈ prototype_names.
Proof.
  revert pushed. induction pending as [|category rest IH]; intros pushed; simpl.
  - split; [by intros [? ?]|]. intros (? & Hin & _). by apply elem_of_nil in Hin.
  - destruct (visit_default prefs (categoryKey category)) as [defaults|e] eqn:Hdef.
    + destruct (visit_custom prefs (categoryKey category)) as [custom|e] eqn:Hcus.
      * rewrite IH. split.
        -- intros (c & Hin & Hp). exists c. split; [by apply elem_of_cons; right|done].
        -- intros (c & Hin & Hp). apply elem_of_cons in Hin as [->|Hin].
           ++ rewrite (visit_default_prototype _ _ Hp) in Hdef. done.
           ++ by exists c.
      * split; [intros _|by eexists].
        exists category. split; [apply elem_of_cons; by left|].
        by eapply visit_custom_Throw.
    + split; [intros _|by eexists].
      exists category. split; [apply elem_of_cons; by left|].
      by eapply visit_default_Throw.
Qed.

(** X16: [getActiveSources] throws exactly when the key of some selected
    category is the name of a member of [Object.prototype], such as
    constructor: the catalog lookup then finds that member instead of a
    list of sources, and calls a [forEach] that it does not have.
    Otherwise it returns a list. *)
Theorem getActiveSources_throws (prefs : UserPreferences) :
  ((∃ message, getActiveSources prefs = Throw message)
   ↔ ∃ category, category ∈ categories prefs ∧ categoryKey category ∈ prototype_names)
  ∧ ((∀ category, category ∈ categories prefs → categoryKey category ∉ prototype_names)
     → ∃ active, getActiveSources prefs = Normal active).
Proof.
  split; [apply forEach_category_Throw|].
  intros Hnone. destruct (getActiveSources prefs) as [active|message] eqn:Hget; [by eexists|].
  assert (∃ message, getActiveSources prefs = Throw message) as Hthrow by by eexists.
  apply forEach_category_Throw in Hthrow as (c & Hin & Hp). by destruct (Hnone c Hin).
Qed.

Lemma visit_default_members prefs key defaults s :
  visit_default prefs key = Normal defaults →
  s ∈ defaults ↔ s_category s = key ∧ from_catalog prefs s.
Proof.
  unfold visit_default, from_catalog.
  destruct (get defaultSources key) as [catalog| |] eqn:Hget; [| done |].
  - apply get_Own in Hget.
    assert (∀ selected, s ∈ selected_entries selected key catalog
              ↔ s_category s = key ∧ ∃ entry, entry ∈ catalog ∧ st_id entry ∈ selected
                  ∧ s_id s = st_id entry ∧ s_name s = st_name entry
                  ∧ s_url s = st_url entry ∧ s_verified s = st_verified entry
                  ∧ s_isCustom s = false) as Hsel.
    { intros selected. unfold selected_entries. rewrite list_elem_of_fmap. split.
      - intros (entry & -> & Hin). apply list_elem_of_filter in Hin as [Hid Hin].
        split; [done|]. by exists entry.
      - intros (<- & entry & Hin & Hid & ? & ? & ? & ? & ?). exists entry.
        split; [by destruct s; simplify_eq/=|]. by apply list_elem_of_filter. }
    destruct (get (sources prefs) key) as [selected| |] eqn:Hs.
    + apply get_Own in Hs. intros [= <-]. rewrite Hsel. split.
      * intros [<- (entry & ?)]. split; [done|]. exists catalog, selected, entry. by intuition.
      * intros [<- (catalog' & selected' & entry & Hc & Hs' & ?)].
        split; [done|]. simplify_eq. exists entry. by intuition.
    + apply get_Inherited in Hs as [_ Hin].
      apply prototype_names_not_catalog in Hin. congruence.
    + apply get_Undefined in Hs as [Hs _]. intros [= <-]. rewrite Hsel. split.
      * intros [_ (entry & _ & Hin & _)]. by apply elem_of_nil in Hin.
      * intros [<- (catalog' & selected' & entry & Hc & Hs' & ?)]. congruence.
  - apply get_Undefined in Hget as [Hget _]. intros [= <-]. split.
    + intros Hin. by apply elem_of_nil in Hin.
    + intros [<- (catalog & ? & ? & Hc & _)]. congruence.
Qed.

Lemma visit_custom_members prefs key custom s :
  visit_custom prefs key = Normal custom →
  s ∈ custom ↔ s_category s = key ∧ from_custom prefs s.
Proof.
  unfold visit_custom, from_custom.
  destruct (get (customSources prefs) key) as [stored| |] eqn:Hget; [| done |].
  - apply get_Own in Hget. intros [= <-]. unfold custom_entries.
    rewrite list_elem_of_fmap. split.
    + intros (entry & -> & Hin). split; [done|]. by exists stored, entry.
    + intros (<- & stored' & entry & Hs & Hin & ? & ? & ? & ? & ?). simplify_eq.
      exists entry. split; [by destruct s; simplify_eq/=|done].
  - apply get_Undefined in Hget as [Hget _]. intros [= <-]. split.
    + intros Hin. by apply elem_of_nil in Hin.
    + intros [<- (stored & ? & Hs & _)]. congruence.
Qed.

Lemma forEach_category_members prefs pending pushed active s :
  forEach_category prefs pending pushed = Normal active →
  s ∈ active ↔
    s ∈ pushed
    ∨ ∃ category, category ∈ pending ∧ s_category s = categoryKey category
        ∧ (from_catalog prefs s ∨ from_custom prefs s).
Proof.
  revert pushed. induction pending as [|category rest IH]; intros pushed; simpl.
  - intros [= <-]. split; [by left|]. intros [?|(? & Hin & _)]; [done|].
    by apply elem_of_nil in Hin.
  - destruct (visit_default prefs (categoryKey category)) as [defaults|e] eqn:Hdef; [|done].
    destruct (visit_custom prefs (categoryKey category)) as [custom|e] eqn:Hcus; [|done].
    intros Hrest. rewrite (IH _ Hrest), !elem_of_app.
    rewrite (visit_default_members _ _ _ s Hdef), (visit_custom_members _ _ _ s Hcus).
    split.
    + intros [[?|[[? ?]|[? ?]]]|(c & Hin & ?)].
      * by left.
      * right. exists category. split; [apply elem_of_cons; by left|]. by split; [|left].
      * right. exists category. split; [apply elem_of_cons; by left|]. by split; [|right].
      * right. exists c. split; [apply elem_of_cons; by right|done].
    + intros [?|(c & Hin & Hkey & Hfrom)]; [by left; left|].
      apply elem_of_cons in Hin as [->|Hin].
      * left. right. destruct Hfrom; [by left|by right].
      * right. by exists c.
Qed.

(** X17: when [getActiveSources] returns, the active sources are exactly
    these: for a selected category, under its key, the catalog sources
    whose id is selected under that key, marked not custom and verified
    as the catalog says; and every custom source stored under that key,
    marked custom and never verified. A selected id that is in no
    catalog list of its category gives no source. *)
Theorem getActiveSources_members (prefs : UserPreferences) (active : list ActiveSource) :
  getActiveSources prefs = Normal active →
  ∀ s, s ∈ active ↔
    ∃ category, category ∈ categories prefs ∧ s_category s = categoryKey category
      ∧ (from_catalog prefs s ∨ from_custom prefs s).
Proof.
  intros Hget s. rewrite (forEach_category_members _ _ _ _ s Hget).
  split; [|by right]. intros [Hin|?]; [|done]. by apply elem_of_nil in Hin.
Qed.
End PreferenceFacts.

Lemma js_warning_not_success : js "warning" ≠ js "success".
Proof. by vm_compute. Qed.

Lemma defaultPreferences_within_limits : within_limits defaultPreferences.
Proof.
  unfold within_limits; simpl. split_and!; [lia|constructor|constructor|].
  apply map_Forall_empty.
Qed.

Lemma same_source_none (name url : jsstring) (existing : list StoredSource) :
  existsb (λ source, bool_decide (st_name source = name)
                     || bool_decide (st_url source = url)) existing = false
  ↔ (name ∉ st_name <$> existing) ∧ (url ∉ st_url <$> existing).
Proof.
  induction existing as [|source rest IH]; csimpl.
  - split; [intros _; split; apply not_elem_of_nil|done].
  - rewrite orb_false_iff, IH, !not_elem_of_cons, orb_false_iff.
    rewrite !bool_decide_eq_false. intuition congruence.
Qed.

Lemma custom_list_ok_snoc (existing : list StoredSource) (new : StoredSource) :
  existing = [] ∨ custom_list_ok existing →
  (length existing < maxSourcesPerCategory)%nat →
  st_name new ∉ st_name <$> existing →
  st_url new ∉ st_url <$> existing →
  custom_source_ok new →
  custom_list_ok (existing ++ [new]).
Proof.
  intros Hold Hlen Hname Hurl Hnew. unfold custom_list_ok.
  rewrite length_app, !fmap_app, !NoDup_app, Forall_app. csimpl.
  assert (NoDup (st_name <$> existing) ∧ NoDup (st_url <$> existing)
          ∧ Forall custom_source_ok existing) as (Hn & Hu & Hall).
  { destruct Hold as [->|(_ & _ & ? & ? & ?)]; [|done].
    csimpl. split_and!; constructor. }
  split_and!; try done.
  - by destruct existing.
  - lia.
  - intros x Hx Hin. apply list_elem_of_singleton in Hin as ->. done.
  - apply NoDup_singleton.
  - intros x Hx Hin. apply list_elem_of_singleton in Hin as ->. done.
  - apply NoDup_singleton.
  - by constructor.
Qed.

Lemma custom_list_ok_delete (custom : list StoredSource) (index : nat) :
  custom_list_ok custom → delete index custom ≠ [] →
  custom_list_ok (delete index custom).
Proof.
  intros (_ & Hlen & Hn & Hu & Hall) Hne. unfold custom_list_ok.
  pose proof (sublist_delete custom index) as Hsub.
  split_and!; [done| | | |].
  - apply sublist_length in Hsub. lia.
  - eapply sublist_NoDup; [exact Hn|by apply fmap_sublist].
  - eapply sublist_NoDup; [exact Hu|by apply fmap_sublist].
  - by apply Forall_delete.
Qed.

Lemma addCustomCategory_within_limits (input : jsstring) (prefs : UserPreferences) :
  within_limits prefs → within_limits (addCustomCategory input prefs).1.
Proof.
  intros (Hlen & Hnd & Hne & Hsrc). unfold addCustomCategory.
  destruct (truthy (trim input)) eqn:Hname; [|done]. cbn [negb].
  destruct (Nat.leb_spec 9 (length (customCategories prefs))); [done|].
  case_bool_decide as Hin; [done|]. cbn [fst]. unfold within_limits; cbn.
  rewrite length_app, NoDup_app, Forall_app. csimpl. split_and!; try done.
  - lia.
  - intros x Hx Hin'. apply list_elem_of_singleton in Hin' as ->. done.
  - apply NoDup_singleton.
  - by constructor.
Qed.

Lemma truthy_true (s : jsstring) : truthy s = true ↔ s ≠ [].
Proof. by destruct s. Qed.

Lemma truthy_false (s : jsstring) : truthy s = false ↔ s = [].
Proof. by destruct s. Qed.



Lemma delete_past_end {A} (l : list A) (index : nat) :
  l !! index = None → delete index l = l.
Proof.
  revert index. induction l as [|x l IH]; intros [|index]; csimpl; try done.
  intros Hnone. by rewrite IH.
Qed.

Lemma get_ext {A} (m1 m2 : gmap jsstring A) (name : jsstring) :
  m1 !! name = m2 !! name → get m1 name = get m2 name.
Proof. unfold get. by intros ->. Qed.

(** An index that finds an element is its position, and there the
    splice removes just that element. *)
Lemma at_index_Some {A} (array : list A) (index : Index) (x : A) :
  at_index array index = Some x →
  ∃ position, index = Whole (Z.of_nat position)
    ∧ array !! position = Some x
    ∧ splice1 array index = delete position array.
Proof.
  destruct index as [i| | |]; try done. cbn [at_index].
  destruct (Z.leb_spec 0 i) as [Hi|]; [|done]. intros Hx.
  exists (Z.to_nat i). split; [by rewrite Z2Nat.id|]. split; [done|].
  unfold splice1. cbn [splice_start].
  destruct (Z.ltb_spec i 0); [lia|].
  apply lookup_lt_Some in Hx.
  by replace (Z.min i (Z.of_nat (length array))) with i by lia.
Qed.


Lemma splice1_sublist {A} (array : list A) (index : Index) :
  splice1 array index `sublist_of` array.
Proof. apply sublist_delete. Qed.


Section SettingsFacts.
Context `{Host}.










Lemma addCustomSource_within_limits (now : Z) (nameInput urlInput category : jsstring)
  (checked : list jsstring) (prefs : UserPreferences) :
  within_limits prefs →
  within_limits (addCustomSource now nameInput urlInput category checked prefs).1.
Proof.
  intros Hok. pose proof Hok as (Hlen & Hnd & Hne & Hsrc). unfold addCustomSource.
  destruct (truthy (trim nameInput)) eqn:Hname; [|done].
  destruct (truthy (trim urlInput)) eqn:Hurl; [|done].
  destruct (truthy category) eqn:Hcat; [|done]. cbn [negb orb].
  destruct (startsWith (js "https://") (trim urlInput)) eqn:Hhttps; [|done]. cbn [negb].
  destruct (get (customSources prefs) category) as [custom| |] eqn:Hget; [|done|].
  - apply get_Own in Hget.
    destruct (Nat.leb_spec maxSourcesPerCategory (length custom)); [done|].
    destruct (existsb _ custom) eqn:Hsame; [done|].
    apply same_source_none in Hsame as [Hn Hu]. cbn [fst].
    unfold within_limits; cbn [customCategories customSources set_customSources].
    split_and!; try done.
    apply map_Forall_insert_2; [|done].
    apply custom_list_ok_snoc; try done.
    right. exact (Hsrc _ _ Hget).
  - cbn [length existsb]. unfold maxSourcesPerCategory at 1. cbn [Nat.leb fst].
    unfold within_limits; cbn [customCategories customSources set_customSources].
    split_and!; try done.
    rewrite insert_insert_eq.
    apply map_Forall_insert_2; [|done].
    apply (custom_list_ok_snoc []); try done.
    + by left.
    + unfold maxSourcesPerCategory; simpl; lia.
    + apply not_elem_of_nil.
    + apply not_elem_of_nil.
Qed.

Lemma removeCustomSource_within_limits (category : jsstring) (index : Index)
  (confirmed : bool) (checked : list jsstring) (prefs : UserPreferences) :
  within_limits prefs →
  within_limits (removeCustomSource category index confirmed checked prefs).1.
Proof.
  intros Hok. pose proof Hok as (Hlen & Hnd & Hne & Hsrc). unfold removeCustomSource.
  destruct (get (customSources prefs) category) as [custom| |] eqn:Hget; [|done|done].
  apply get_Own in Hget.
  destruct (at_index custom index) as [source|] eqn:Hat; [|done].
  apply at_index_Some in Hat as (position & -> & Hfound & ->).
  destruct confirmed; [|done]. cbn [fst].
  unfold within_limits; cbn [customCategories customSources set_customSources].
  split_and!; try done.
  destruct (Nat.eqb_spec (length (delete position custom)) 0) as [Hzero|Hpos].
  - by apply map_Forall_delete.
  - apply map_Forall_insert_2; [|done].
    apply custom_list_ok_delete; [exact (Hsrc _ _ Hget)|].
    intros Hnil. by rewrite Hnil in Hpos.
Qed.

Lemma removeCustomCategory_within_limits (index : Index) (confirmed : bool)
  (prefs : UserPreferences) :
  within_limits prefs →
  within_limits (removeCustomCategory index confirmed prefs).1.
Proof.
  intros Hok. pose proof Hok as (Hlen & Hnd & Hne & Hsrc). unfold removeCustomCategory.
  destruct confirmed; [|done].
  pose proof (splice1_sublist (customCategories prefs) index) as Hsub.
  assert ((length (splice1 (customCategories prefs) index) ≤ 9)%nat) as Hlen'
    by (apply sublist_length in Hsub; lia).
  assert (NoDup (splice1 (customCategories prefs) index)) as Hnd'
    by (by eapply sublist_NoDup).
  assert (Forall (λ name, truthy name = true) (splice1 (customCategories prefs) index))
    as Hne' by (by apply Forall_delete).
  destruct (at_index (customCategories prefs) index) as [category|]; cbn [fst];
    unfold within_limits;
    cbn [customCategories customSources set_customSources set_customCategories
           set_categories];
    split_and!; try done.
  by apply map_Forall_delete.
Qed.

Lemma perform_within_limits (prefs : UserPreferences) (action : Action) :
  within_limits prefs → within_limits (perform prefs action).
Proof.
  destruct action; cbn [perform].
  - apply addCustomCategory_within_limits.
  - apply removeCustomCategory_within_limits.
  - apply addCustomSource_within_limits.
  - apply removeCustomSource_within_limits.
Qed.

(** X18: however the user adds and removes custom categories and custom
    sources, in any order and whether an action is accepted, refused or
    throws, the custom data stay within these limits: at most 9 custom
    categories, with distinct non-empty names; under each key that has
    custom sources, between 1 and 5 of them, with distinct names and
    distinct URLs, each URL starting with https://, each source marked
    custom and unverified. *)
Theorem settings_within_limits (actions : list Action) (prefs : UserPreferences) :
  within_limits prefs → within_limits (foldl perform prefs actions).
Proof.
  revert prefs. induction actions as [|action rest IH]; intros prefs Hok; [done|].
  cbn [foldl]. apply IH. by apply perform_within_limits.
Qed.

(** What addCustomSource does when it goes through: the result of the
    function once no test has turned the request down. *)
Lemma addCustomSource_accepted (now : Z) (nameInput urlInput category : jsstring)
  (checked : list jsstring) (prefs : UserPreferences) :
  let name := trim nameInput in
  let url := trim urlInput in
  let existing := default [] (customSources prefs !! category) in
  let stored :=
    set_customSources
      (<[category := existing ++
           [{| st_id := js "custom-" ++ toString10 now; st_name := name;
               st_url := url; st_verified := false; st_isCustom := true |}]]>
         (customSources prefs)) prefs in
  name ≠ [] → url ≠ [] → category ≠ [] →
  startsWith (js "https://") url = true →
  (customSources prefs !! category = None → category ∉ prototype_names) →
  (length existing < maxSourcesPerCategory)%nat →
  name ∉ st_name <$> existing → url ∉ st_url <$> existing →
  addCustomSource now nameInput urlInput category checked prefs
  = (stored,
     match populateSourcesGrid stored checked with
     | Normal _ =>
         Normal (showNotification (js "Added custom source: " ++ name) (js "success"))
     | Throw e => Throw e
     end).
Proof.
  intros name url existing stored Hn Hu Hc Hs Hproto Hlen Hnn Hnu.
  subst stored. unfold addCustomSource. fold name url.
  apply truthy_true in Hn, Hu, Hc. rewrite Hn, Hu, Hc, Hs. cbn [negb orb].
  destruct (get (customSources prefs) category) as [custom| |] eqn:Hget.
  - apply get_Own in Hget. subst existing. rewrite Hget in *.
    cbn [default from_option id] in *.
    destruct (Nat.leb_spec maxSourcesPerCategory (length custom)); [lia|].
    assert (existsb (λ source, bool_decide (st_name source = name)
                               || bool_decide (st_url source = url)) custom = false)
      as -> by by apply same_source_none.
    done.
  - apply get_Inherited in Hget as [Hnone Hin]. by destruct (Hproto Hnone).
  - apply get_Undefined in Hget as [Hnone _]. subst existing. rewrite Hnone.
    cbn [default from_option id length existsb].
    unfold maxSourcesPerCategory at 1. cbn [Nat.leb].
    cbn [customSources set_customSources].
    by rewrite insert_insert_eq.
Qed.

(** What a success of addCustomSource tells about its arguments. *)
Lemma addCustomSource_success (now : Z) (nameInput urlInput category : jsstring)
  (checked : list jsstring) (prefs : UserPreferences) (message : jsstring) :
  (addCustomSource now nameInput urlInput category checked prefs).2
  = Normal (showNotification message (js "success")) →
  let name := trim nameInput in
  let url := trim urlInput in
  let existing := default [] (customSources prefs !! category) in
  name ≠ [] ∧ url ≠ [] ∧ category ≠ []
  ∧ startsWith (js "https://") url = true
  ∧ (customSources prefs !! category = None → category ∉ prototype_names)
  ∧ (length existing < maxSourcesPerCategory)%nat
  ∧ (name ∉ st_name <$> existing) ∧ (url ∉ st_url <$> existing).
Proof.
  unfold addCustomSource.
  destruct (truthy (trim nameInput)) eqn:Hn;
    [|intros [= _ Hty]; by destruct js_warning_not_success].
  destruct (truthy (trim urlInput)) eqn:Hu;
    [|intros [= _ Hty]; by destruct js_warning_not_success].
  destruct (truthy category) eqn:Hc;
    [|intros [= _ Hty]; by destruct js_warning_not_success].
  cbn [negb orb].
  destruct (startsWith (js "https://") (trim urlInput)) eqn:Hs;
    [|intros [= _ Hty]; by destruct js_warning_not_success].
  cbn [negb]. apply truthy_true in Hn, Hu, Hc.
  destruct (get (customSources prefs) category) as [custom| |] eqn:Hget; [|done|].
  - apply get_Own in Hget. rewrite Hget. cbn [default from_option id].
    destruct (Nat.leb_spec maxSourcesPerCategory (length custom));
      [intros [= _ Hty]; by destruct js_warning_not_success|].
    destruct (existsb _ custom) eqn:Hsame;
      [intros [= _ Hty]; by destruct js_warning_not_success|].
    apply same_source_none in Hsame as [? ?]. intros _.
    split_and!; try done; intros Hnone; congruence.
  - apply get_Undefined in Hget as [Hnone Hnotin]. rewrite Hnone.
    cbn [default from_option id].
    intros _.
    split_and!; try done; try apply not_elem_of_nil.
    unfold maxSourcesPerCategory; simpl; lia.
Qed.



Lemma forEach_category_ext (prefs1 prefs2 : UserPreferences) pending pushed :
  sources prefs1 = sources prefs2 →
  (∀ category, category ∈ pending →
     customSources prefs1 !! categoryKey category
     = customSources prefs2 !! categoryKey category) →
  forEach_category prefs1 pending pushed = forEach_category prefs2 pending pushed.
Proof.
  intros Hsources. revert pushed.
  induction pending as [|category rest IH]; intros pushed Hsame; [done|].
  cbn [forEach_category].
  assert (visit_default prefs1 (categoryKey category)
          = visit_default prefs2 (categoryKey category)) as ->
    by (unfold visit_default; by rewrite Hsources).
  assert (visit_custom prefs1 (categoryKey category)
          = visit_custom prefs2 (categoryKey category)) as ->.
  { unfold visit_custom. erewrite get_ext; [done|]. apply Hsame, elem_of_cons. by left. }
  destruct (visit_default prefs2 (categoryKey category)); [|done].
  destruct (visit_custom prefs2 (categoryKey category)); [|done].
  apply IH. intros c Hin. apply Hsame, elem_of_cons. by right.
Qed.

(** X21: a custom source that was accepted is loaded from then on if
    its category is the key of a selected category: it is among the
    active sources, under that key, custom and unverified. If no
    selected category has that key, the active sources are what they
    were before. *)
Theorem addCustomSource_active (now : Z) (nameInput urlInput category : jsstring)
  (checked : list jsstring) (prefs : UserPreferences) (message : jsstring) :
  (addCustomSource now nameInput urlInput category checked prefs).2
  = Normal (showNotification message (js "success")) →
  let prefs' := (addCustomSource now nameInput urlInput category checked prefs).1 in
  ((∃ selected, selected ∈ categories prefs ∧ categoryKey selected = category) →
   ∀ active, getActiveSources prefs' = Normal active →
             {| s_id := js "custom-" ++ toString10 now; s_name := trim nameInput;
                s_url := trim urlInput; s_verified := false; s_isCustom := true;
                s_category := category |} ∈ active)
  ∧ ((∀ selected, selected ∈ categories prefs → categoryKey selected ≠ category) →
     getActiveSources prefs' = getActiveSources prefs).
Proof.
  intros Hres prefs'.
  apply addCustomSource_success in Hres as (? & ? & ? & ? & ? & ? & ? & ?).
  subst prefs'. rewrite addCustomSource_accepted by done. cbn [fst]. split.
  - intros (selected & Hin & Hkey) active Hget.
    apply (forEach_category_members _ _ _ _
             {| s_id := js "custom-" ++ toString10 now; s_name := trim nameInput;
                s_url := trim urlInput; s_verified := false; s_isCustom := true;
                s_category := category |} Hget).
    right. exists selected. split; [done|]. split; [done|]. right.
    eexists _, {| st_id := js "custom-" ++ toString10 now; st_name := trim nameInput;
                  st_url := trim urlInput; st_verified := false; st_isCustom := true |}.
    cbn. split; [apply lookup_insert_eq|].
    split; [|done]. apply elem_of_app. right. by apply list_elem_of_singleton.
  - intros Hnone. apply forEach_category_ext; [done|].
    intros selected Hin. cbn. rewrite lookup_insert_ne; [done|].
    intros Heq. by destruct (Hnone selected Hin).
Qed.

(** X22: removing a custom category at an index that finds one, once
    confirmed, takes its name out of the list, unselects its key and
    drops the custom sources stored under that key, so that no custom
    source is active under it afterwards, whatever else shares the key;
    nothing stored under another key and no selection of catalog sources
    changes. With an index that finds no category the confirmed removal
    throws, after the splice has removed what the index points at in its
    own reading: nothing for an integer past the end, but one category
    for a negative integer (the last one for -1) if there is any.
    Declining changes nothing. *)
Theorem removeCustomCategory_effect (index : Index) (prefs : UserPreferences) :
  (∀ category, at_index (customCategories prefs) index = Some category →
     ∃ position, index = Whole (Z.of_nat position) ∧
     let prefs' := (removeCustomCategory index true prefs).1 in
     let key := customKey category in
     customCategories prefs' = delete position (customCategories prefs)
     ∧ length (customCategories prefs') = pred (length (customCategories prefs))
     ∧ (key ∉ categories prefs')
     ∧ categories prefs' `sublist_of` categories prefs
     ∧ customSources prefs' !! key = None
     ∧ (∀ other, other ≠ key →
                 customSources prefs' !! other = customSources prefs !! other)
     ∧ sources prefs' = sources prefs
     ∧ ∀ active s, getActiveSources prefs' = Normal active → s ∈ active →
                   s_isCustom s = true → s_category s ≠ key)
  ∧ (at_index (customCategories prefs) index = None →
     removeCustomCategory index true prefs
     = (set_customCategories (splice1 (customCategories prefs) index) prefs,
        Throw TypeError))
  ∧ (∀ i, index = Whole i → Z.of_nat (length (customCategories prefs)) ≤ i →
          removeCustomCategory index true prefs = (prefs, Throw TypeError))
  ∧ (∀ i, index = Whole i → i < 0 → customCategories prefs ≠ [] →
          (removeCustomCategory index true prefs).2 = Throw TypeError
          ∧ length (customCategories (removeCustomCategory index true prefs).1)
            = pred (length (customCategories prefs))
          ∧ (i = -1 →
             customCategories (removeCustomCategory index true prefs).1
             = take (pred (length (customCategories prefs))) (customCategories prefs)))
  ∧ removeCustomCategory index false prefs = (prefs, Normal None).
Proof.
  split_and!; [|intros Hnone|intros i -> Hlarge|intros i -> Hneg Hsome|done].
  - intros category Hfound.
    pose proof (at_index_Some _ _ _ Hfound) as (position & Hindex & Hat & Hsplice).
    exists position. split; [done|]. intros prefs' key. subst prefs'.
    unfold removeCustomCategory. rewrite Hfound, Hsplice.
    cbn [fst customCategories categories sources customSources set_customSources
           set_categories set_customCategories].
    fold key. split_and!; try done.
    + rewrite length_delete by done. lia.
    + intros Hin. by apply list_elem_of_filter in Hin as [? _].
    + apply sublist_filter.
    + apply lookup_delete_eq.
    + intros other Hne. by rewrite lookup_delete_ne.
    + intros active s Hget Hin Hcustom Hkey.
      apply (forEach_category_members _ _ _ _ s Hget) in Hin
        as [Hin|(selected & _ & _ & [Hfrom|Hfrom])].
      * by apply elem_of_nil in Hin.
      * destruct Hfrom as (? & ? & ? & _ & _ & _ & _ & _ & _ & _ & _ & Hnot). congruence.
      * destruct Hfrom as (custom & ? & Hstored & _).
        cbn [customSources set_customSources set_categories set_customCategories]
          in Hstored.
        rewrite Hkey, lookup_delete_eq in Hstored. done.
  - unfold removeCustomCategory. by rewrite Hnone.
  - unfold removeCustomCategory.
    assert (at_index (customCategories prefs) (Whole i) = None) as ->.
    { cbn [at_index]. destruct (0 <=? i); [|done]. apply lookup_ge_None. lia. }
    unfold splice1. cbn [splice_start]. destruct (Z.ltb_spec i 0); [lia|].
    rewrite delete_past_end by (apply lookup_ge_None; lia). by destruct prefs.
  - unfold removeCustomCategory.
    assert (at_index (customCategories prefs) (Whole i) = None) as ->.
    { cbn [at_index]. by destruct (Z.leb_spec 0 i); [lia|]. }
    cbn [fst snd customCategories set_customCategories]. split; [done|].
    unfold splice1. cbn [splice_start]. destruct (Z.ltb_spec i 0); [|lia].
    assert (0 < length (customCategories prefs))%nat as Hlen
      by (destruct (customCategories prefs); [done|simpl; lia]).
    split.
    + rewrite length_delete; [lia|]. apply lookup_lt_is_Some. lia.
    + intros ->.
      replace (Z.to_nat (Z.max (Z.of_nat (length (customCategories prefs)) + -1) 0))
        with (pred (length (customCategories prefs))) by lia.
      rewrite delete_take_drop.
      replace (S (pred (length (customCategories prefs))))
        with (length (customCategories prefs)) by lia.
      by rewrite drop_all, app_nil_r.
Qed.
End SettingsFacts.

Example addCustomSource_stored_then_thrown :
  @addCustomSource web_host 1700000000000 (js "Gazette") (js "https://") (js "world")
    [js "world"] defaultPreferences
  = (set_customSources
       (<[js "world" := [{| st_id := js "custom-1700000000000"; st_name := js "Gazette";
                            st_url := js "https://"; st_verified := false;
                            st_isCustom := true |}]]> ∅) defaultPreferences,
     Throw TypeError).
Proof. by vm_compute. Qed.

Example removeCustomCategory_from_the_end :
  (@removeCustomCategory ascii_host (Whole (-1)) true
     (set_customCategories [js "Local News"; js "Science"] defaultPreferences))
  = (set_customCategories [js "Local News"] defaultPreferences, Throw TypeError).
Proof. by vm_compute. Qed.

Lemma settings_within_limits_witness :
  within_limits defaultPreferences
  ∧ within_limits
      (foldl (@perform web_host) defaultPreferences
         [AddCategory (js "  Local News ");
          AddCategory (js "Science");
          AddSource 1700000000000 (js "Gazette") (js " https://gazette.example/rss")
            (js "localnews") [js "world"];
          AddSource 1700000000500 (js "Gazette") (js "https://other.example/rss")
            (js "localnews") [js "world"];
          AddSource 1700000001000 (js "Herald") (js "http://herald.example/rss")
            (js "localnews") [js "world"];
          AddSource 1700000001500 (js "Nowhere") (js "https://")
            (js "world") [js "world"];
          RemoveSource (js "localnews") (Whole 5) true [js "world"];
          RemoveSource (js "localnews") (Whole 0) true [js "world"];
          RemoveCategory (Whole (-1)) true;
          RemoveCategory (Whole 0) true]).
Proof.
  split; [exact defaultPreferences_within_limits|].
  apply (@settings_within_limits web_host). exact defaultPreferences_within_limits.
Defined.


Lemma getActiveSources_members_witness :
  ∃ active,
    @getActiveSources ascii_host defaultPreferences = Normal active
    ∧ (sample_source ∈ active ↔
       ∃ category, category ∈ categories defaultPreferences
         ∧ s_category sample_source = @categoryKey ascii_host category
         ∧ (from_catalog defaultPreferences sample_source
            ∨ from_custom defaultPreferences sample_source)).
Proof.
  eexists. split; [by vm_compute|].
  apply (@getActiveSources_members ascii_host defaultPreferences). by vm_compute.
Defined.

Lemma addCustomSource_active_witness :
  (@addCustomSource ascii_host 1700000000000 (js "Gazette ")
     (js "https://gazette.example/rss") (js "world") [js "world"] defaultPreferences).2
  = Normal (showNotification (js "Added custom source: Gazette") (js "success"))
  ∧ ∀ active,
      @getActiveSources ascii_host
        (@addCustomSource ascii_host 1700000000000 (js "Gazette ")
           (js "https://gazette.example/rss") (js "world") [js "world"]
           defaultPreferences).1 = Normal active →
      {| s_id := js "custom-1700000000000"; s_name := js "Gazette";
         s_url := js "https://gazette.example/rss"; s_verified := false;
         s_isCustom := true; s_category := js "world" |} ∈ active.
Proof.
  split; [reflexivity|].
  apply (@addCustomSource_active ascii_host 1700000000000 (js "Gazette ")
           (js "https://gazette.example/rss") (js "world") [js "world"]
           defaultPreferences (js "Added custom source: Gazette") eq_refl).
  exists (js "world"). split; [|reflexivity].
  apply elem_of_cons; right. apply elem_of_cons; by left.
Defined.

(** ** Category buttons *)

Section ButtonFacts.
Context `{Host}.

Lemma availableCategories_from (available : gset jsstring) (articles : list Article)
  (key : jsstring) :
  key ∈ foldl (λ available article,
                 if truthy (category article) then {[category article]} ∪ available
                 else available) available articles
  ↔ key ∈ available
    ∨ ∃ article, article ∈ articles ∧ category article = key ∧ key ≠ [].
Proof.
  revert available. induction articles as [|a rest IH]; intros available; cbn [foldl].
  - split; [by left|]. intros [?|(? & Hin & _)]; [done|]. by apply elem_of_nil in Hin.
  - rewrite IH. split.
    + intros [Hin|(article & Hin & ?)].
      * destruct (truthy (category a)) eqn:Ha; [|by left].
        apply elem_of_union in Hin as [Hin|Hin]; [|by left].
        apply elem_of_singleton in Hin as ->. right. exists a.
        split; [apply elem_of_cons; by left|]. split; [done|]. by apply truthy_true.
      * right. exists article. split; [apply elem_of_cons; by right|done].
    + intros [Hin|(article & Hin & Hkey & Hne)].
      * left. destruct (truthy (category a)); [|done]. apply elem_of_union. by right.
      * apply elem_of_cons in Hin as [->|Hin].
        -- left. apply truthy_true in Hne. rewrite <- Hkey in Hne. rewrite Hne.
           apply elem_of_union. left. by apply elem_of_singleton.
        -- right. by exists article.
Qed.

Lemma availableCategories_spec (articles : list Article) (key : jsstring) :
  key ∈ availableCategories articles
  ↔ key = js "all"
    ∨ ∃ article, article ∈ articles ∧ category article = key ∧ key ≠ [].
Proof.
  unfold availableCategories. rewrite availableCategories_from.
  by rewrite elem_of_singleton.
Qed.

Lemma has_category_spec (m : list CategoryButton) (key : jsstring) :
  has_category m key = true ↔ key ∈ data_category <$> m.
Proof. unfold has_category. apply bool_decide_eq_true. Qed.

(** Both loops only ever append one button, whose key is new. *)
Lemma visit_selected_step prefs available m selected :
  visit_selected prefs available m selected = m
  ∨ ∃ b, visit_selected prefs available m selected = m ++ [b]
      ∧ data_category b = categoryKey selected
      ∧ data_category b ∈ available
      ∧ (data_category b ∉ data_category <$> m)
      ∧ (data_custom b = true →
         categoryMetadata !! data_category b = None
         ∧ ∃ name, name ∈ customCategories prefs ∧ customKey name = data_category b).
Proof.
  unfold visit_selected. case_bool_decide as Hav; [|by left].
  destruct (has_category m (categoryKey selected)) eqn:Hhas; [by left|].
  right. eexists. split; [done|]. cbn [data_category data_custom]. split_and!; try done.
  - intros Hin. apply has_category_spec in Hin. congruence.
  - intros Hcustom. apply andb_true_iff in Hcustom as [Hbuilt Hfound].
    split.
    + apply negb_true_iff, bool_decide_eq_false in Hbuilt.
      destruct (categoryMetadata !! categoryKey selected); [|done].
      destruct Hbuilt. by eexists.
    + destruct (head _) as [name|] eqn:Hhead; [|done].
      apply head_Some_elem_of, list_elem_of_filter in Hhead as [? ?]. by exists name.
Qed.

Lemma visit_named_step available m name :
  visit_named available m name = m
  ∨ ∃ b, visit_named available m name = m ++ [b]
      ∧ data_category b = customKey name
      ∧ data_category b ∈ available
      ∧ (data_category b ∉ data_category <$> m)
      ∧ data_custom b = true.
Proof.
  unfold visit_named. case_bool_decide as Hav; [|by left].
  destruct (has_category m (customKey name)) eqn:Hhas; [by left|].
  right. eexists. split; [done|]. cbn [data_category data_custom]. split_and!; try done.
  intros Hin. apply has_category_spec in Hin. congruence.
Qed.

Lemma visit_selected_keys prefs available m selected key :
  key ∈ data_category <$> visit_selected prefs available m selected
  ↔ key ∈ data_category <$> m ∨ (key = categoryKey selected ∧ key ∈ available).
Proof.
  unfold visit_selected. case_bool_decide as Hav.
  - destruct (has_category m (categoryKey selected)) eqn:Hhas.
    + apply has_category_spec in Hhas. split; [by left|].
      intros [?|[-> _]]; done.
    + rewrite fmap_app, elem_of_app. csimpl. rewrite list_elem_of_singleton.
      split; (intros [?|?]; [by left|right]); [by subst|tauto].
  - split; [by left|]. intros [?|[-> ?]]; done.
Qed.

Lemma visit_named_keys available m name key :
  key ∈ data_category <$> visit_named available m name
  ↔ key ∈ data_category <$> m ∨ (key = customKey name ∧ key ∈ available).
Proof.
  unfold visit_named. case_bool_decide as Hav.
  - destruct (has_category m (customKey name)) eqn:Hhas; cbn [andb negb].
    + apply has_category_spec in Hhas. split; [by left|].
      intros [?|[-> _]]; done.
    + rewrite fmap_app, elem_of_app. csimpl. rewrite list_elem_of_singleton.
      split; (intros [?|?]; [by left|right]); [by subst|tauto].
  - cbn [andb]. split; [by left|]. intros [?|[-> ?]]; done.
Qed.

Lemma selected_loop_keys prefs available m pending key :
  key ∈ data_category <$> foldl (visit_selected prefs available) m pending
  ↔ key ∈ data_category <$> m
    ∨ (key ∈ available ∧ ∃ selected, selected ∈ pending ∧ categoryKey selected = key).
Proof.
  revert m. induction pending as [|c rest IH]; intros m; cbn [foldl].
  - split; [by left|]. intros [?|(_ & ? & Hin & _)]; [done|]. by apply elem_of_nil in Hin.
  - rewrite IH, visit_selected_keys. split.
    + intros [[?|[-> ?]]|(? & s & Hin & ?)].
      * by left.
      * right. split; [done|]. exists c. split; [apply elem_of_cons; by left|done].
      * right. split; [done|]. exists s. split; [apply elem_of_cons; by right|done].
    + intros [?|(? & s & Hin & Hkey)]; [by left; left|].
      apply elem_of_cons in Hin as [->|Hin]; [by left; right|].
      right. split; [done|]. by exists s.
Qed.

Lemma named_loop_keys available m pending key :
  key ∈ data_category <$> foldl (visit_named available) m pending
  ↔ key ∈ data_category <$> m
    ∨ (key ∈ available ∧ ∃ name, name ∈ pending ∧ customKey name = key).
Proof.
  revert m. induction pending as [|c rest IH]; intros m; cbn [foldl].
  - split; [by left|]. intros [?|(_ & ? & Hin & _)]; [done|]. by apply elem_of_nil in Hin.
  - rewrite IH, visit_named_keys. split.
    + intros [[?|[-> ?]]|(? & s & Hin & ?)].
      * by left.
      * right. split; [done|]. exists c. split; [apply elem_of_cons; by left|done].
      * right. split; [done|]. exists s. split; [apply elem_of_cons; by right|done].
    + intros [?|(? & s & Hin & Hkey)]; [by left; left|].
      apply elem_of_cons in Hin as [->|Hin]; [by left; right|].
      right. split; [done|]. by exists s.
Qed.

Lemma NoDup_keys_snoc (m : list CategoryButton) (b : CategoryButton) :
  NoDup (data_category <$> m) → data_category b ∉ data_category <$> m →
  NoDup (data_category <$> (m ++ [b])).
Proof.
  intros Hnd Hnew. rewrite fmap_app. apply NoDup_app. split_and!; [done| |apply NoDup_singleton].
  intros x Hx Hin. csimpl in Hin. apply list_elem_of_singleton in Hin as ->. done.
Qed.

Lemma selected_loop_invariant prefs available (P : CategoryButton → Prop) m pending :
  (∀ b selected, data_category b = categoryKey selected →
       (data_custom b = true →
          categoryMetadata !! data_category b = None
          ∧ ∃ name, name ∈ customCategories prefs ∧ customKey name = data_category b) →
       P b) →
  NoDup (data_category <$> m) → Forall P m →
  NoDup (data_category <$> foldl (visit_selected prefs available) m pending)
  ∧ Forall P (foldl (visit_selected prefs available) m pending).
Proof.
  intros HP. revert m. induction pending as [|c rest IH]; intros m Hnd Hall; [done|].
  cbn [foldl].
  destruct (visit_selected_step prefs available m c) as [->|(b & -> & Hk & _ & Hnew & Hc)].
  - by apply IH.
  - apply IH; [by apply NoDup_keys_snoc|].
    apply Forall_app. split; [done|]. constructor; [|done]. by eapply HP.
Qed.

Lemma named_loop_invariant available (P : CategoryButton → Prop) m pending :
  (∀ b, data_custom b = true → data_category b ∉ data_category <$> m →
        (∃ name, name ∈ pending ∧ customKey name = data_category b) → P b) →
  NoDup (data_category <$> m) → Forall P m →
  NoDup (data_category <$> foldl (visit_named available) m pending)
  ∧ Forall P (foldl (visit_named available) m pending).
Proof.
  revert m. induction pending as [|c rest IH]; intros m HP Hnd Hall; [done|].
  cbn [foldl].
  destruct (visit_named_step available m c) as [->|(b & -> & Hk & _ & Hnew & Hc)].
  - apply IH; [|done|done]. intros b Hb Hnew (name & Hin & Hkey). apply HP; [done|done|].
    exists name. split; [apply elem_of_cons; by right|done].
  - apply IH; [|by apply NoDup_keys_snoc|].
    + intros b' Hb' Hnew' (name & Hin & Hkey). apply HP; [done| |].
      * intros Hin'. apply Hnew'. rewrite fmap_app. apply elem_of_app. by left.
      * exists name. split; [apply elem_of_cons; by right|done].
    + apply Forall_app. split; [done|]. constructor; [|done].
      apply HP; [done|done|]. exists c. split; [apply elem_of_cons; by left|done].
Qed.

(** X23: the category tabs. Apart from the tab of all articles, which
    always comes first, there is one tab for each key that is the
    category of a displayed article and also the key of a selected
    category or of a custom category; no key gets two of them. A tab is
    marked custom only if its key is the key of a custom category, and,
    when the key is also that of a selected category, only if it is not
    a built-in key. The tab of all articles is doubled exactly when a
    selected or custom category has the key all. *)
Theorem updateCategoryButtons_tabs (prefs : UserPreferences) (articles : list Article) :
  let buttons := updateCategoryButtons prefs articles in
  let shown key := key = js "all"
                   ∨ ∃ article, article ∈ articles ∧ category article = key ∧ key ≠ [] in
  let chosen key := (∃ selected, selected ∈ categories prefs ∧ categoryKey selected = key)
                    ∨ (∃ name, name ∈ customCategories prefs ∧ customKey name = key) in
  NoDup (data_category <$> buttons)
  ∧ (∀ key, key ∈ data_category <$> buttons ↔ shown key ∧ chosen key)
  ∧ (∀ b, b ∈ buttons → data_custom b = true →
          (∃ name, name ∈ customCategories prefs ∧ customKey name = data_category b)
          ∧ ((∃ selected, selected ∈ categories prefs
                          ∧ categoryKey selected = data_category b) →
             categoryMetadata !! data_category b = None))
  ∧ (NoDup (categoryTabs prefs articles) ↔ ¬ chosen (js "all")).
Proof.
  intros buttons shown chosen.
  assert (∀ key, key ∈ data_category <$> buttons ↔ shown key ∧ chosen key) as Hkeys.
  { intros key. subst buttons. unfold updateCategoryButtons.
    rewrite named_loop_keys, selected_loop_keys, availableCategories_spec.
    subst shown chosen. cbn beta. split.
    - intros [[Hin|[? ?]]|[? ?]]; [by apply elem_of_nil in Hin|by split; [|left]|by split; [|right]].
    - intros [? [?|?]]; [left; by right|by right]. }
  set (first := foldl (visit_selected prefs (availableCategories articles)) []
                  (categories prefs)).
  assert (NoDup (data_category <$> first)
          ∧ Forall (λ b, data_custom b = true →
                         categoryMetadata !! data_category b = None
                         ∧ ∃ name, name ∈ customCategories prefs
                                   ∧ customKey name = data_category b) first)
    as [Hnd1 Hall1].
  { apply selected_loop_invariant; [|constructor|constructor].
    intros b selected _ Hb. exact Hb. }
  assert (NoDup (data_category <$> buttons)
          ∧ Forall (λ b, data_custom b = true →
                (∃ name, name ∈ customCategories prefs ∧ customKey name = data_category b)
                ∧ (data_category b ∈ data_category <$> first →
                   categoryMetadata !! data_category b = None)) buttons)
    as [Hnd Hall].
  { apply named_loop_invariant; [|done|].
    - intros b Hb Hnew Hname. by split.
    - eapply Forall_impl; [exact Hall1|]. intros b Hb Hcustom.
      destruct (Hb Hcustom) as [? ?]. by split. }
  split_and!; [done|done| |].
  - intros b Hin Hcustom. rewrite Forall_forall in Hall.
    destruct (Hall b Hin Hcustom) as [Hname Hbuilt]. split; [done|].
    intros (selected & Hsel & Hkey). apply Hbuilt.
    apply selected_loop_keys. right. split; [|by exists selected].
    assert (data_category b ∈ data_category <$> buttons) as Hb
      by by apply list_elem_of_fmap_2.
    apply Hkeys in Hb as [Hshown _]. by apply availableCategories_spec.
  - unfold categoryTabs. fold buttons. rewrite NoDup_cons, Hkeys. split.
    + intros [Hnot _] Hchosen. apply Hnot. split; [by left|done].
    + intros Hnot. split; [|done]. by intros [_ ?].
Qed.
End ButtonFacts.
